(** * The offline synchronisation engine of teachLink_mobile

    A shallow embedding of the offline store (class [OfflineStorage],
    [services/offlineStorage], in [src/unnamed/part_001]), of the sync driver
    (class [SyncService], in [src/src/services/videoQuality.ts], lines 179 to
    551) and of the offline data cache ([src/src/hooks/useOfflineData.ts]),
    with the properties their specification states about them.

    The code is asynchronous TypeScript.  An [async] function is embedded as
    a computation in the monad [M]: it threads the state of the module it
    belongs to and completes normally or by throwing.  What the collaborators
    answer (the key-value store, the clock, the random source, the remote
    API, the network probe) is not decided by the code: every state carries,
    for each collaborator, the stream of its future answers, and a call
    consumes the head of the stream.

    The file has three parts: the embedding of the code, the vocabulary in
    which the properties are stated, and the properties with their proofs. *)

From Stdlib Require Import ZArith Lia Ascii Sorting.Sorted Sorting.Permutation.
From stdpp Require Import base option list strings pretty gmap.

Set Default Proof Using "Type".
Open Scope Z_scope.

(* ===================================================================== *)
(** * JavaScript values *)
(* ===================================================================== *)

(** Primitive values.  A number is a finite number, represented by an
    integer, or [NaN]. *)
Inductive Prim :=
| PUndefined
| PNull
| PBool (b : bool)
| PNum (n : Z)
| PNaN
| PStr (s : string).

(** What an array cell or an object property holds: a primitive, or a
    reference to an object, known by its identity only. *)
Inductive Value :=
| VPrim (p : Prim)
| VRef (address : nat).

(** A piece of data as the merge function looks at it: one level deep. *)
Inductive Data :=
| DPrim (p : Prim)
| DArray (items : list Value)
| DObject (props : list (string * Value)).

#[global] Instance Prim_eq_dec : EqDecision Prim.
Proof. solve_decision. Defined.
#[global] Instance Value_eq_dec : EqDecision Value.
Proof. solve_decision. Defined.
#[global] Instance Data_eq_dec : EqDecision Data.
Proof. solve_decision. Defined.

(** A thrown value: an [Error] object with its message, or anything else. *)
Inductive Thrown :=
| JsError (message : string)
| NonError (v : Prim).

#[global] Instance Thrown_eq_dec : EqDecision Thrown.
Proof. solve_decision. Defined.

(** [error instanceof Error ? error.message : 'Unknown error'] *)
Definition error_text (error : Thrown) : string :=
  match error with
  | JsError message => message
  | NonError _ => "Unknown error"
  end.

(** ** Objects as ordered property lists

    The own properties of an ordinary object are enumerated with the array
    indices first, in ascending order, then the other string keys in the
    order of their creation. *)

Definition digit (c : ascii) : option N :=
  let n := N_of_ascii c in
  if ((48 <=? n) && (n <=? 57))%N then Some (n - 48)%N else None.

Fixpoint digits (s : string) (acc : N) : option N :=
  match s with
  | EmptyString => Some acc
  | String c s' =>
      match digit c with
      | Some d => digits s' (10 * acc + d)%N
      | None => None
      end
  end.

(** The array index a property key denotes, if it is a canonical one. *)
Definition array_index (key : string) : option N :=
  match key with
  | EmptyString => None
  | String c rest =>
      if bool_decide (c = "0"%char ∧ rest ≠ EmptyString) then None
      else match digits key 0 with
           | Some n => if (n <? 2 ^ 32 - 1)%N then Some n else None
           | None => None
           end
  end.

Section Object.
Context {V : Type}.

(** [obj[key]] on own properties *)
Fixpoint obj_get (key : string) (obj : list (string * V)) : option V :=
  match obj with
  | [] => None
  | (k, v) :: rest => if decide (k = key) then Some v else obj_get key rest
  end.

Fixpoint obj_replace (key : string) (v : V) (obj : list (string * V))
  : list (string * V) :=
  match obj with
  | [] => []
  | (k, w) :: rest =>
      if decide (k = key) then (k, v) :: rest
      else (k, w) :: obj_replace key v rest
  end.

Fixpoint obj_insert_index (n : N) (key : string) (v : V)
  (obj : list (string * V)) : list (string * V) :=
  match obj with
  | [] => [(key, v)]
  | (k, w) :: rest =>
      match array_index k with
      | Some m =>
          if (m <? n)%N then (k, w) :: obj_insert_index n key v rest
          else (key, v) :: obj
      | None => (key, v) :: obj
      end
  end.

(** [obj[key] = v]: an existing property keeps its place, a new one is
    created. *)
Definition obj_set (key : string) (v : V) (obj : list (string * V))
  : list (string * V) :=
  match obj_get key obj with
  | Some _ => obj_replace key v obj
  | None =>
      match array_index key with
      | Some n => obj_insert_index n key v obj
      | None => obj ++ [(key, v)]
      end
  end.

(** The members of [Object.prototype], which an ordinary object inherits. *)
Definition Object_prototype : list string :=
  ["constructor"; "__defineGetter__"; "__defineSetter__"; "hasOwnProperty";
   "__lookupGetter__"; "__lookupSetter__"; "isPrototypeOf";
   "propertyIsEnumerable"; "toString"; "valueOf"; "__proto__";
   "toLocaleString"].

(** [obj[key]] on an ordinary object: the own property of that name; or
    else, for the name of a member of [Object.prototype], that member (a
    function, or the prototype itself for [__proto__]: a value that is not
    falsy and that has no own enumerable property); or else [undefined]. *)
Inductive Lookup :=
| Own (v : V)
| Inherited
| Missing.

Definition obj_lookup (key : string) (obj : list (string * V)) : Lookup :=
  match obj_get key obj with
  | Some v => Own v
  | None => if decide (key ∈ Object_prototype) then Inherited else Missing
  end.

(** The own property a lookup found, if it found one. *)
Definition own (found : Lookup) : option V :=
  match found with
  | Own v => Some v
  | Inherited | Missing => None
  end.

(** [delete obj[key]] *)
Definition obj_delete (key : string) (obj : list (string * V))
  : list (string * V) :=
  filter (λ kv, kv.1 ≠ key) obj.

(** [{ ...target, ...source }]: the copy of [target] has the properties of
    [target]; those of [source] are then set on it one by one. *)
Definition spread (source target : list (string * V)) : list (string * V) :=
  foldl (λ acc kv, obj_set kv.1 kv.2 acc) target source.

Definition Object_keys (obj : list (string * V)) : list string := obj.*1.
Definition Object_values (obj : list (string * V)) : list V := obj.*2.
End Object.

(* ===================================================================== *)
(** * Asynchronous computations *)
(* ===================================================================== *)

Inductive Completion (A : Type) :=
| Normal (a : A)
| Throw (e : Thrown).
Arguments Normal {A} a.
Arguments Throw {A} e.

Definition M (S A : Type) : Type := S → Completion A * S.

#[global] Instance M_ret {S} : MRet (M S) := λ A a s, (Normal a, s).
#[global] Instance M_bind {S} : MBind (M S) := λ A B f m s,
  match m s with
  | (Normal a, s') => f a s'
  | (Throw e, s') => (Throw e, s')
  end.

Definition throw {S A} (e : Thrown) : M S A := λ s, (Throw e, s).

(** [try { body } catch (error) { handler }] *)
Definition try_catch {S A} (body : M S A) (handler : Thrown → M S A) : M S A :=
  λ s, match body s with
       | (Normal a, s') => (Normal a, s')
       | (Throw e, s') => handler e s'
       end.

(** [try { body } finally { final }] *)
Definition try_finally {S A} (body : M S A) (final : M S unit) : M S A :=
  λ s, match body s with
       | (c, s') =>
           match final s' with
           | (Normal _, s'') => (c, s'')
           | (Throw e, s'') => (Throw e, s'')
           end
       end.

(** The completion of a computation, as a value. *)
Definition settled {S A} (m : M S A) : M S (Completion A) :=
  λ s, match m s with (c, s') => (Normal c, s') end.

Definition gets {S A} (f : S → A) : M S A := λ s, (Normal (f s), s).
Definition modify {S} (f : S → S) : M S unit := λ s, (Normal tt, f s).

(** Running a computation of a component inside the state of its owner. *)
Definition zoom {S T A} (get : S → T) (set : T → S → S) (m : M T A) : M S A :=
  λ s, match m (get s) with (c, t) => (c, set t s) end.

Definition exec {S A} (m : M S A) (s : S) : S := (m s).2.
Definition result {S A} (m : M S A) (s : S) : Completion A := (m s).1.

(** Streams of answers. *)
Definition pop {A} (answers : nat → A) : A * (nat → A) :=
  (answers 0%nat, λ n, answers (S n)).

(* ===================================================================== *)
(** * The offline store: [services/offlineStorage] *)
(* ===================================================================== *)

Module OfflineStorage.

Inductive SyncOperationType := CREATE | UPDATE | DELETE | READ.
Inductive Priority := high | medium | low.

#[global] Instance SyncOperationType_eq_dec : EqDecision SyncOperationType.
Proof. solve_decision. Defined.
#[global] Instance Priority_eq_dec : EqDecision Priority.
Proof. solve_decision. Defined.

Record SyncOperation := {
  id : string;
  type : SyncOperationType;
  endpoint : string;
  data : option Data;
  timestamp : Z;
  retries : nat;
  maxRetries : nat;
  priority : Priority }.

#[global] Instance SyncOperation_eq_dec : EqDecision SyncOperation.
Proof. solve_decision. Defined.

(** [Omit<SyncOperation, 'id' | 'timestamp' | 'retries' | 'maxRetries'>] *)
Record SyncOperationInput := {
  in_type : SyncOperationType;
  in_endpoint : string;
  in_data : option Data;
  in_priority : Priority }.

(** The records of the offline data cache, kept here because the store
    persists them. *)
Inductive DataSyncStatus := synced | pending | conflict | error.

#[global] Instance DataSyncStatus_eq_dec : EqDecision DataSyncStatus.
Proof. solve_decision. Defined.

(** A record as it is at run time.  The callbacks of the cache build a
    record from the value they find under an id by copying its properties:
    when that value is not a record, the copy has no [id] and no
    [lastModified] ([None]), its [data] is [undefined], and a count of
    attempts read from it is [NaN] ([None] for [syncAttempts]). *)
Record OfflineDataItem := {
  item_id : option string;
  item_data : Data;
  status : DataSyncStatus;
  lastModified : option Z;
  syncAttempts : option nat;
  errorMessage : option string }.

#[global] Instance OfflineDataItem_eq_dec : EqDecision OfflineDataItem.
Proof. solve_decision. Defined.

(** A [Record<string, OfflineDataItem<T>>]: the own properties of the
    object, in the order [Object.keys] and [Object.values] enumerate them. *)
Definition Dict := list (string * OfflineDataItem).

(** What the store is asked to persist. *)
Inductive Payload :=
| PQueue (queue : list SyncOperation)
| PDict (dict : Dict).

(** [StorageItem<T>] *)
Record StorageItem := {
  st_data : Payload;
  st_timestamp : Z;
  st_version : nat }.

(** A stored string: the JSON text of an envelope, or a text that
    [JSON.parse] rejects. *)
Inductive Stored :=
| Json (item : StorageItem)
| Unparsable.

Inductive Level := Info | Warn | Debug | Error.
Record LogEntry := {
  level : Level;
  text : string;
  detail : option Thrown }.

(** The state the store works on: the contents of [AsyncStorage], the log,
    and the answers still to come from its collaborators. *)
Record Storage := {
  kv : gmap string Stored;
  log : list LogEntry;
  outcomes : nat → option Thrown;  (* AsyncStorage calls: resolve or reject *)
  clock : nat → Z;                 (* Date.now() *)
  random : nat → string            (* Math.random().toString(36).substr(2, 9) *)
}.

Definition set_kv (f : gmap string Stored → gmap string Stored) (s : Storage) :=
  {| kv := f (kv s); log := log s; outcomes := outcomes s;
     clock := clock s; random := random s |}.
Definition set_log (f : list LogEntry → list LogEntry) (s : Storage) :=
  {| kv := kv s; log := f (log s); outcomes := outcomes s;
     clock := clock s; random := random s |}.
Definition set_outcomes (o : nat → option Thrown) (s : Storage) :=
  {| kv := kv s; log := log s; outcomes := o;
     clock := clock s; random := random s |}.
Definition set_clock (c : nat → Z) (s : Storage) :=
  {| kv := kv s; log := log s; outcomes := outcomes s;
     clock := c; random := random s |}.
Definition set_random (r : nat → string) (s : Storage) :=
  {| kv := kv s; log := log s; outcomes := outcomes s;
     clock := clock s; random := r |}.

(** ** Collaborators *)

Definition logger (lv : Level) (msg : string) (err : option Thrown) : M Storage unit :=
  modify (set_log (λ l, l ++ [{| level := lv; text := msg; detail := err |}])).

Definition Date_now : M Storage Z :=
  λ s, let (now, rest) := pop (clock s) in (Normal now, set_clock rest s).

Definition Math_random : M Storage string :=
  λ s, let (r, rest) := pop (random s) in (Normal r, set_random rest s).

(** One call to [AsyncStorage]: it is rejected, or it acts on the contents. *)
Definition AsyncStorage {A} (act : gmap string Stored → A * gmap string Stored)
  : M Storage A :=
  λ s, let (outcome, rest) := pop (outcomes s) in
       match outcome with
       | Some e => (Throw e, set_outcomes rest s)
       | None =>
           let (a, kv') := act (kv s) in
           (Normal a, set_kv (λ _, kv') (set_outcomes rest s))
       end.

Definition AsyncStorage_setItem (key : string) (value : Stored) : M Storage unit :=
  AsyncStorage (λ m, (tt, <[key := value]> m)).
Definition AsyncStorage_getItem (key : string) : M Storage (option Stored) :=
  AsyncStorage (λ m, (m !! key, m)).
Definition AsyncStorage_removeItem (key : string) : M Storage unit :=
  AsyncStorage (λ m, (tt, delete key m)).
Definition AsyncStorage_clear : M Storage unit :=
  AsyncStorage (λ _, (tt, ∅)).

Definition JSON_parse (s : Stored) : M Storage StorageItem :=
  match s with
  | Json item => mret item
  | Unparsable => throw (JsError "JSON Parse error")
  end.

(** ** Storage keys *)

Definition SYNC_QUEUE : string := "@teachlink_sync_queue".
Definition MAX_RETRIES : nat := 3.

(** ** Generic storage *)

Definition store (key : string) (d : Payload) (version : nat) : M Storage unit :=
  try_catch
    (now ← Date_now;
     let item := {| st_data := d; st_timestamp := now; st_version := version |} in
     AsyncStorage_setItem key (Json item);;
     logger Info ("Stored data for key: " +:+ key) None)
    (λ error,
       logger Error ("Error storing data for key " +:+ key +:+ ":") (Some error);;
       throw error).

(** [store] is suspended once, at [await AsyncStorage.setItem(...)]: what
    it does up to that call, and what it does from the moment the call has
    settled. *)
Definition store_call (d : Payload) (version : nat) : M Storage StorageItem :=
  now ← Date_now;
  mret {| st_data := d; st_timestamp := now; st_version := version |}.

Definition store_settle (key : string) (item : StorageItem) : M Storage unit :=
  try_catch
    (AsyncStorage_setItem key (Json item);;
     logger Info ("Stored data for key: " +:+ key) None)
    (λ error,
       logger Error ("Error storing data for key " +:+ key +:+ ":") (Some error);;
       throw error).

Definition retrieve (key : string) : M Storage (option Payload) :=
  try_catch
    (itemStr ← AsyncStorage_getItem key;
     match itemStr with
     | None => mret None
     | Some text =>
         item ← JSON_parse text;
         mret (Some (st_data item))
     end)
    (λ error,
       logger Error ("Error retrieving data for key " +:+ key +:+ ":") (Some error);;
       mret None).

Definition exists_ (key : string) : M Storage bool :=
  try_catch
    (item ← AsyncStorage_getItem key;
     mret (bool_decide (item ≠ None)))
    (λ error,
       logger Error ("Error checking existence for key " +:+ key +:+ ":") (Some error);;
       mret false).

Definition remove (key : string) : M Storage unit :=
  try_catch
    (AsyncStorage_removeItem key;;
     logger Info ("Removed data for key: " +:+ key) None)
    (λ error,
       logger Error ("Error removing data for key " +:+ key +:+ ":") (Some error);;
       throw error).

Definition clearAll : M Storage unit :=
  try_catch
    (AsyncStorage_clear;;
     logger Info "Cleared all local storage" None)
    (λ error,
       logger Error "Error clearing local storage:" (Some error);;
       throw error).

(** ** Sync queue *)

(** [Array.prototype.sort(compareFn)]: a stable sort.  The element is put
    in front of the first one it does not have to follow. *)
Fixpoint Array_insert {A} (compareFn : A → A → Z) (x : A) (l : list A) : list A :=
  match l with
  | [] => [x]
  | y :: l' =>
      if decide (compareFn x y <= 0) then x :: y :: l'
      else y :: Array_insert compareFn x l'
  end.

Fixpoint Array_sort {A} (compareFn : A → A → Z) (l : list A) : list A :=
  match l with
  | [] => []
  | x :: l' => Array_insert compareFn x (Array_sort compareFn l')
  end.

Definition priorityOrder (p : Priority) : Z :=
  match p with high => 0 | medium => 1 | low => 2 end.

(** The comparison function of [addToSyncQueue]. *)
Definition compareOperations (a b : SyncOperation) : Z :=
  if decide (priorityOrder (priority a) ≠ priorityOrder (priority b))
  then priorityOrder (priority a) - priorityOrder (priority b)
  else timestamp a - timestamp b.

Definition generateOperationId : M Storage string :=
  now ← Date_now;
  r ← Math_random;
  mret ("op_" +:+ pretty now +:+ "_" +:+ r).

Definition getSyncQueue : M Storage Payload :=
  queue ← retrieve SYNC_QUEUE;
  mret (default (PQueue []) queue).

(** The receiver of an array method: anything but an array has no such
    method, and the call is a [TypeError]. *)
Definition array_receiver (method : string) (queue : Payload)
  : M Storage (list SyncOperation) :=
  match queue with
  | PQueue q => mret q
  | PDict _ => throw (JsError ("queue." +:+ method +:+ " is not a function"))
  end.

Definition describe (t : SyncOperationType) : string :=
  match t with
  | CREATE => "CREATE" | UPDATE => "UPDATE" | DELETE => "DELETE" | READ => "READ"
  end.

Definition addToSyncQueue (operation : SyncOperationInput) : M Storage string :=
  try_catch
    (queue ← getSyncQueue;
     opId ← generateOperationId;
     now ← Date_now;
     let syncOp :=
       {| id := opId;
          type := in_type operation;
          endpoint := in_endpoint operation;
          data := in_data operation;
          priority := in_priority operation;
          timestamp := now;
          retries := 0;
          maxRetries := MAX_RETRIES |} in
     q ← array_receiver "push" queue;
     let queue := Array_sort compareOperations (q ++ [syncOp]) in
     store SYNC_QUEUE (PQueue queue) 1;;
     logger Info ("Added operation to sync queue: " +:+ describe (type syncOp)
                    +:+ " " +:+ endpoint syncOp) None;;
     mret (id syncOp))
    (λ error,
       logger Error "Error adding to sync queue:" (Some error);;
       throw error).

Definition removeFromSyncQueue (operationId : string) : M Storage unit :=
  try_catch
    (queue ← getSyncQueue;
     q ← array_receiver "filter" queue;
     let filteredQueue := filter (λ op, id op ≠ operationId) q in
     store SYNC_QUEUE (PQueue filteredQueue) 1;;
     logger Info ("Removed operation from sync queue: " +:+ operationId) None)
    (λ error,
       logger Error ("Error removing operation " +:+ operationId
                       +:+ " from sync queue:") (Some error)).

(** [removeFromSyncQueue] waits twice for [AsyncStorage]: for the read of
    the queue and for the write of the filtered queue.  Between the two,
    other code may run.  The first part goes from the moment the read has
    settled to the call of [AsyncStorage.setItem], and gives the envelope
    to be written, or [None] when the function has returned; the second part
    starts when the write has settled. *)
Definition removeFromSyncQueue_read (operationId : string)
  : M Storage (option StorageItem) :=
  try_catch
    (queue ← getSyncQueue;
     q ← array_receiver "filter" queue;
     let filteredQueue := filter (λ op, id op ≠ operationId) q in
     item ← store_call (PQueue filteredQueue) 1;
     mret (Some item))
    (λ error,
       logger Error ("Error removing operation " +:+ operationId
                       +:+ " from sync queue:") (Some error);;
       mret None).

Definition removeFromSyncQueue_write (operationId : string) (item : StorageItem)
  : M Storage unit :=
  try_catch
    (store_settle SYNC_QUEUE item;;
     logger Info ("Removed operation from sync queue: " +:+ operationId) None)
    (λ error,
       logger Error ("Error removing operation " +:+ operationId
                       +:+ " from sync queue:") (Some error)).

Definition increment (op : SyncOperation) : SyncOperation :=
  {| id := id op; type := type op; endpoint := endpoint op; data := data op;
     timestamp := timestamp op; retries := S (retries op);
     maxRetries := maxRetries op; priority := priority op |}.

(** [queue.find(op => op.id === operationId)] followed by
    [operation.retries += 1]: the first operation with that id is changed
    where it stands; [None] when there is none. *)
Fixpoint find_and_increment (operationId : string) (queue : list SyncOperation)
  : option (list SyncOperation) :=
  match queue with
  | [] => None
  | op :: rest =>
      if decide (id op = operationId) then Some (increment op :: rest)
      else cons op <$> find_and_increment operationId rest
  end.

Definition incrementRetryCount (operationId : string) : M Storage unit :=
  try_catch
    (queue ← getSyncQueue;
     q ← array_receiver "find" queue;
     match find_and_increment operationId q with
     | Some queue' => store SYNC_QUEUE (PQueue queue') 1
     | None => mret tt
     end)
    (λ error,
       logger Error ("Error incrementing retry count for operation "
                       +:+ operationId +:+ ":") (Some error)).

(** The two parts of [incrementRetryCount], as for [removeFromSyncQueue]. *)
Definition incrementRetryCount_read (operationId : string)
  : M Storage (option StorageItem) :=
  try_catch
    (queue ← getSyncQueue;
     q ← array_receiver "find" queue;
     match find_and_increment operationId q with
     | Some queue' =>
         item ← store_call (PQueue queue') 1;
         mret (Some item)
     | None => mret None
     end)
    (λ error,
       logger Error ("Error incrementing retry count for operation "
                       +:+ operationId +:+ ":") (Some error);;
       mret None).

Definition incrementRetryCount_write (operationId : string) (item : StorageItem)
  : M Storage unit :=
  try_catch
    (store_settle SYNC_QUEUE item)
    (λ error,
       logger Error ("Error incrementing retry count for operation "
                       +:+ operationId +:+ ":") (Some error)).

Definition clearSyncQueue : M Storage unit :=
  store SYNC_QUEUE (PQueue []) 1.

Definition getFailedOperations : M Storage (list SyncOperation) :=
  queue ← getSyncQueue;
  q ← array_receiver "filter" queue;
  mret (filter (λ op, (maxRetries op ≤ retries op)%nat) q).

End OfflineStorage.

(* ===================================================================== *)
(** * The sync driver: [services/syncService] *)
(* ===================================================================== *)

Module SyncService.
Import OfflineStorage.

Record SyncConfig := {
  maxConcurrentSyncs : nat;
  retryDelay : Z;
  syncInterval : Z;
  batchSize : nat }.

Definition default_config : SyncConfig :=
  {| maxConcurrentSyncs := 3;
     retryDelay := 5000;
     syncInterval := 30000;
     batchSize := 10 |}.

Inductive ConflictResolutionStrategy := serverWins | clientWins | merge | manual.

Inductive SyncEventType :=
| syncStarted | syncCompleted | syncFailed | operationProcessed | conflictDetected.

Inductive EventData :=
| Response (d : Data)
| Versions (localData serverData : Data).

Record SyncEvent := {
  ev_type : SyncEventType;
  ev_operationId : option string;
  ev_data : option EventData;
  ev_error : option Thrown;
  ev_timestamp : Z }.

(** The calls made to [apiService]. *)
Inductive Method := api_post | api_put | api_delete | api_get.
Record Request := {
  method : Method;
  path : string;
  body : option Data }.

#[global] Instance Method_eq_dec : EqDecision Method.
Proof. solve_decision. Defined.
#[global] Instance Request_eq_dec : EqDecision Request.
Proof. solve_decision. Defined.

(** What [Network.getNetworkStateAsync] resolves to. *)
Record NetworkState := {
  isConnected : option bool;
  isInternetReachable : option bool }.

(** The state of the driver: its own fields, the store it works on, what it
    has sent to its listeners, to the API and to [setTimeout], and the
    answers still to come from the API and the network probe.  The
    operations of a batch run at once: which of them goes on next, when
    several wait, is not decided by the code either, and [schedule] is the
    stream of these choices. *)
Record Service := {
  storage : Storage;
  config : SyncConfig;
  isSyncing : bool;
  events : list SyncEvent;
  requests : list Request;
  timers : list (Z * string);
  responses : nat → Completion Data;
  network : nat → Completion NetworkState;
  schedule : nat → nat }.

Definition set_storage (st : Storage) (s : Service) :=
  {| storage := st; config := config s; isSyncing := isSyncing s;
     events := events s; requests := requests s; timers := timers s;
     responses := responses s; network := network s; schedule := schedule s |}.
Definition set_isSyncing (b : bool) (s : Service) :=
  {| storage := storage s; config := config s; isSyncing := b;
     events := events s; requests := requests s; timers := timers s;
     responses := responses s; network := network s; schedule := schedule s |}.
Definition set_events (f : list SyncEvent → list SyncEvent) (s : Service) :=
  {| storage := storage s; config := config s; isSyncing := isSyncing s;
     events := f (events s); requests := requests s; timers := timers s;
     responses := responses s; network := network s; schedule := schedule s |}.
Definition set_requests (f : list Request → list Request) (s : Service) :=
  {| storage := storage s; config := config s; isSyncing := isSyncing s;
     events := events s; requests := f (requests s); timers := timers s;
     responses := responses s; network := network s; schedule := schedule s |}.
Definition set_timers (f : list (Z * string) → list (Z * string)) (s : Service) :=
  {| storage := storage s; config := config s; isSyncing := isSyncing s;
     events := events s; requests := requests s; timers := f (timers s);
     responses := responses s; network := network s; schedule := schedule s |}.
Definition set_responses (r : nat → Completion Data) (s : Service) :=
  {| storage := storage s; config := config s; isSyncing := isSyncing s;
     events := events s; requests := requests s; timers := timers s;
     responses := r; network := network s; schedule := schedule s |}.
Definition set_network (n : nat → Completion NetworkState) (s : Service) :=
  {| storage := storage s; config := config s; isSyncing := isSyncing s;
     events := events s; requests := requests s; timers := timers s;
     responses := responses s; network := n; schedule := schedule s |}.
Definition set_schedule (c : nat → nat) (s : Service) :=
  {| storage := storage s; config := config s; isSyncing := isSyncing s;
     events := events s; requests := requests s; timers := timers s;
     responses := responses s; network := network s; schedule := c |}.

(** ** Collaborators *)

Definition offlineStorage {A} (m : M Storage A) : M Service A :=
  zoom storage set_storage m.

Definition logger (lv : Level) (msg : string) (err : option Thrown) : M Service unit :=
  offlineStorage (OfflineStorage.logger lv msg err).

Definition Date_now : M Service Z := offlineStorage OfflineStorage.Date_now.

(** The request leaves when the method of [apiService] is called ... *)
Definition apiService_call (m : Method) (endpoint : string) (d : option Data)
  : M Service unit :=
  modify (set_requests (λ l, l ++ [{| method := m; path := endpoint; body := d |}])).

(** ... and the promise it returned settles later. *)
Definition apiService_settle : M Service Data :=
  λ s, let (answer, rest) := pop (responses s) in (answer, set_responses rest s).

Definition Network_getNetworkStateAsync : M Service NetworkState :=
  λ s, let (answer, rest) := pop (network s) in (answer, set_network rest s).

(** [setTimeout(() => this.retryOperation(operationId), delay)] *)
Definition setTimeout_retryOperation (operationId : string) (delay : Z)
  : M Service unit :=
  modify (set_timers (λ l, l ++ [(delay, operationId)])).

(** [emitEvent]: every listener is called with the event; what a listener
    throws is caught and logged. *)
Definition emitEvent (event : SyncEvent) : M Service unit :=
  modify (set_events (λ l, l ++ [event])).

(** ** Batches and delays *)

(** [array.slice(from, to)] *)
Definition slice {A} (from to : nat) (array : list A) : list A :=
  take (to - from) (drop from array).

(** The loop of [createBatches],
    [for (let i = 0; i < array.length; i += batchSize)].  With a positive
    [batchSize] it makes at most [array.length] turns, which is the fuel
    [createBatches] gives it; [None] is a loop that has not ended, as with
    [batchSize = 0]. *)
Fixpoint createBatches_loop {A} (fuel : nat) (i : nat) (array : list A)
  (batchSize : nat) (batches : list (list A)) : option (list (list A)) :=
  if (i <? length array)%nat then
    match fuel with
    | O => None
    | S fuel' =>
        createBatches_loop fuel' (i + batchSize) array batchSize
          (batches ++ [slice i (i + batchSize) array])
    end
  else Some batches.

Definition createBatches {A} (array : list A) (batchSize : nat)
  : option (list (list A)) :=
  createBatches_loop (length array) 0 array batchSize [].

Definition calculateRetryDelay (cfg : SyncConfig) (retryCount : nat) : Z :=
  retryDelay cfg * 2 ^ Z.of_nat retryCount.

(** ** Processing one operation *)

(** [handlePermanentFailure] reads [error.message] before anything else.
    On [null] and [undefined] that throws: the promise of this [async]
    function is rejected, and [processOperation], which does not await it,
    goes on. *)
Definition handlePermanentFailure (operation : SyncOperation) (error : Thrown)
  : M Service unit :=
  match error with
  | NonError PNull | NonError PUndefined => mret tt
  | _ =>
      _ ← Date_now;
      logger Error "Permanent sync failure:" (Some error)
  end.

(** [processOperation] up to the [await] of the API call. *)
Definition processOperation_dispatch (operation : SyncOperation) : M Service unit :=
  logger Debug ("Processing operation: " +:+ describe (type operation)
                  +:+ " " +:+ endpoint operation) None;;
  match type operation with
  | CREATE => apiService_call api_post (endpoint operation) (data operation)
  | UPDATE => apiService_call api_put (endpoint operation) (data operation)
  | DELETE => apiService_call api_delete (endpoint operation) None
  | READ => apiService_call api_get (endpoint operation) None
  end.

(** [processOperation] from the moment the API call has settled. *)
Definition processOperation_settle (operation : SyncOperation) : M Service unit :=
  try_catch
    (result ← apiService_settle;
     offlineStorage (removeFromSyncQueue (id operation));;
     logger Info ("Operation completed: " +:+ id operation) None;;
     now ← Date_now;
     emitEvent {| ev_type := operationProcessed;
                  ev_operationId := Some (id operation);
                  ev_data := Some (Response result);
                  ev_error := None;
                  ev_timestamp := now |})
    (λ error,
       logger Error ("Operation failed: " +:+ id operation) (Some error);;
       (if decide (retries operation < maxRetries operation)%nat then
          offlineStorage (incrementRetryCount (id operation));;
          cfg ← gets config;
          setTimeout_retryOperation (id operation)
            (calculateRetryDelay cfg (retries operation))
        else
          logger Error ("Operation failed permanently after "
                          +:+ pretty (maxRetries operation) +:+ " retries: "
                          +:+ id operation) None;;
          handlePermanentFailure operation error);;
       now ← Date_now;
       emitEvent {| ev_type := syncFailed;
                    ev_operationId := Some (id operation);
                    ev_data := None;
                    ev_error := Some error;
                    ev_timestamp := now |}).

Definition processOperation (operation : SyncOperation) : M Service unit :=
  processOperation_dispatch operation;;
  processOperation_settle operation.

(** [retryOperation], what a timer set by [processOperation] runs. *)
Definition retryOperation (operationId : string) : M Service unit :=
  queue ← offlineStorage getSyncQueue;
  q ← offlineStorage (array_receiver "find" queue);
  match list_find (λ op, id op = operationId) q with
  | Some (_, operation) => processOperation operation
  | None => mret tt
  end.

(** ** Processing a batch

    [operations.slice(0, maxConcurrentSyncs).map(op => processOperation(op))]
    starts every selected operation, which sends its request; then
    [Promise.all] waits until all of them have settled. *)

Fixpoint for_each {S A} (f : A → M S unit) (l : list A) : M S unit :=
  match l with
  | [] => mret tt
  | x :: l' => f x;; for_each f l'
  end.

Definition selected (cfg : SyncConfig) (operations : list SyncOperation)
  : list SyncOperation :=
  slice 0 (maxConcurrentSyncs cfg) operations.

Definition processBatch_dispatch (operations : list SyncOperation) : M Service unit :=
  cfg ← gets config;
  for_each processOperation_dispatch (selected cfg operations).

(** After its request has left, [processOperation] waits three times for
    something outside: for the answer of the API, then for the read of the
    queue and for the write of the queue ([removeFromSyncQueue] after a
    success, [incrementRetryCount] after a failure).  While one operation of
    the batch waits another one goes on.  A task is an operation of the
    batch together with the place where it waits. *)
Inductive Task :=
| AwaitApi (operation : SyncOperation)
    (* at [await apiService.post(...)] and the like *)
| AwaitRead (operation : SyncOperation) (answer : Completion Data)
    (* in the store, at [await AsyncStorage.getItem(...)] *)
| AwaitWrite (operation : SyncOperation) (answer : Completion Data)
    (item : StorageItem)
    (* in the store, at [await AsyncStorage.setItem(...)] *)
| Finished.

(** The end of [processOperation], once the store has returned. *)
Definition processOperation_end (operation : SyncOperation)
  (answer : Completion Data) : M Service unit :=
  match answer with
  | Normal result =>
      logger Info ("Operation completed: " +:+ id operation) None;;
      now ← Date_now;
      emitEvent {| ev_type := operationProcessed;
                   ev_operationId := Some (id operation);
                   ev_data := Some (Response result);
                   ev_error := None;
                   ev_timestamp := now |}
  | Throw thrown =>
      cfg ← gets config;
      setTimeout_retryOperation (id operation)
        (calculateRetryDelay cfg (retries operation));;
      now ← Date_now;
      emitEvent {| ev_type := syncFailed;
                   ev_operationId := Some (id operation);
                   ev_data := None;
                   ev_error := Some thrown;
                   ev_timestamp := now |}
  end.

(** A task goes on, from the moment what it waits for has settled to the
    next place where it waits. *)
Definition task_step (task : Task) : M Service Task :=
  match task with
  | AwaitApi operation =>
      answer ← settled apiService_settle;
      match answer with
      | Normal _ => mret (AwaitRead operation answer)
      | Throw thrown =>
          logger Error ("Operation failed: " +:+ id operation) (Some thrown);;
          if decide (retries operation < maxRetries operation)%nat then
            mret (AwaitRead operation answer)
          else
            logger Error ("Operation failed permanently after "
                            +:+ pretty (maxRetries operation) +:+ " retries: "
                            +:+ id operation) None;;
            handlePermanentFailure operation thrown;;
            now ← Date_now;
            emitEvent {| ev_type := syncFailed;
                         ev_operationId := Some (id operation);
                         ev_data := None;
                         ev_error := Some thrown;
                         ev_timestamp := now |};;
            mret Finished
      end
  | AwaitRead operation answer =>
      write ← offlineStorage
                 (match answer with
                  | Normal _ => removeFromSyncQueue_read (id operation)
                  | Throw _ => incrementRetryCount_read (id operation)
                  end);
      match write with
      | Some item => mret (AwaitWrite operation answer item)
      | None => processOperation_end operation answer;; mret Finished
      end
  | AwaitWrite operation answer item =>
      offlineStorage
        (match answer with
         | Normal _ => removeFromSyncQueue_write (id operation) item
         | Throw _ => incrementRetryCount_write (id operation) item
         end);;
      processOperation_end operation answer;;
      mret Finished
  | Finished => mret Finished
  end.

Definition finished (task : Task) : bool :=
  match task with
  | Finished => true
  | _ => false
  end.

(** The places in [tasks] of the tasks that have not finished. *)
Definition unsettled (tasks : list Task) : list nat :=
  filter (λ i, finished (default Finished (tasks !! i)) = false)
    (seq 0 (length tasks)).

Definition next_turn : M Service nat :=
  λ s, let (choice, rest) := pop (schedule s) in (Normal choice, set_schedule rest s).

(** [await Promise.all(promises)]: as long as a task has not finished, one
    of those that have not goes on; [schedule] says which. *)
Fixpoint Promise_all (turns : nat) (tasks : list Task) : M Service (list Task) :=
  match turns, unsettled tasks with
  | S turns', first :: others =>
      choice ← next_turn;
      let i := default first ((first :: others)
                                !! Nat.modulo choice (length (first :: others))) in
      task ← task_step (default Finished (tasks !! i));
      Promise_all turns' (<[i := task]> tasks)
  | _, _ => mret tasks
  end.

(** A task is through after three turns at most, so that three turns for
    each task are enough for all of them to finish. *)
Definition processBatch_settle (operations : list SyncOperation) : M Service unit :=
  cfg ← gets config;
  let promises := AwaitApi <$> selected cfg operations in
  Promise_all (3 * length promises) promises;;
  mret tt.

Definition processBatch (operations : list SyncOperation) : M Service unit :=
  processBatch_dispatch operations;;
  processBatch_settle operations.

(** ** A sync pass

    [syncPendingOperations] is suspended at each of its [await]s.  A pass is
    described by the place where it is suspended. *)

Inductive Pass :=
| AwaitConnectivity
    (* at [await this.checkConnectivity()] *)
| AwaitBatch (batch : list SyncOperation) (later : list (list SyncOperation))
    (* at [await Promise.all(promises)], inside [processBatch(batch)] *)
| Hung
    (* in the loop of [createBatches], which does not end *)
| Returned.

Definition in_flight (p : Pass) : bool :=
  match p with
  | AwaitBatch _ _ => true
  | _ => false
  end.

Definition checkConnectivity : M Service bool :=
  try_catch
    (networkState ← Network_getNetworkStateAsync;
     mret (default false (isConnected networkState)
           && default false (isInternetReachable networkState)))
    (λ error,
       logger Error "Error checking connectivity:" (Some error);;
       mret false).

(** The call, up to the first [await]. *)
Definition syncPendingOperations_enter : M Service Pass :=
  syncing ← gets isSyncing;
  if (syncing : bool) then
    logger Debug "Sync already in progress, skipping" None;;
    mret Returned
  else mret AwaitConnectivity.

(** The [finally] block. *)
Definition syncPendingOperations_finally : M Service Pass :=
  modify (set_isSyncing false);;
  mret Returned.

(** The [catch] block. *)
Definition syncPendingOperations_catch (error : Thrown) : M Service Pass :=
  logger Error "Sync failed:" (Some error);;
  now ← Date_now;
  emitEvent {| ev_type := syncFailed; ev_operationId := None; ev_data := None;
               ev_error := Some error; ev_timestamp := now |};;
  syncPendingOperations_finally.

(** The head of the [for] loop over the batches, and what follows it. *)
Definition syncPendingOperations_loop (batches : list (list SyncOperation))
  : M Service Pass :=
  match batches with
  | batch :: later =>
      processBatch_dispatch batch;;
      mret (AwaitBatch batch later)
  | [] =>
      logger Info "Sync completed successfully" None;;
      now ← Date_now;
      emitEvent {| ev_type := syncCompleted; ev_operationId := None;
                   ev_data := None; ev_error := None; ev_timestamp := now |};;
      syncPendingOperations_finally
  end.

(** From the connectivity check to the next [await]. *)
Definition syncPendingOperations_connectivity : M Service Pass :=
  connected ← checkConnectivity;
  if negb (connected : bool) then
    logger Debug "No network connectivity, skipping sync" None;;
    mret Returned
  else
    modify (set_isSyncing true);;
    try_catch
      (queue ← offlineStorage getSyncQueue;
       match queue with
       | PQueue [] =>
           logger Debug "No pending operations to sync" None;;
           syncPendingOperations_finally
       | PQueue q =>
           logger Info ("Starting sync for " +:+ pretty (length q)
                          +:+ " operations") None;;
           cfg ← gets config;
           match createBatches q (batchSize cfg) with
           | Some batches => syncPendingOperations_loop batches
           | None => mret Hung
           end
       | PDict _ =>
           (* [queue.length] is [undefined]: no batch is made *)
           logger Info "Starting sync for undefined operations" None;;
           syncPendingOperations_loop []
       end)
      syncPendingOperations_catch.

(** From the end of a batch to the next [await]. *)
Definition syncPendingOperations_batch (batch : list SyncOperation)
  (later : list (list SyncOperation)) : M Service Pass :=
  try_catch
    (processBatch_settle batch;;
     syncPendingOperations_loop later)
    syncPendingOperations_catch.

(** A suspended pass goes on. *)
Definition resume (p : Pass) : M Service Pass :=
  match p with
  | AwaitConnectivity => syncPendingOperations_connectivity
  | AwaitBatch batch later => syncPendingOperations_batch batch later
  | Hung => mret Hung
  | Returned => mret Returned
  end.

(** A pass that nothing interrupts: every batch in turn. *)
Fixpoint resume_batches (batch : list SyncOperation)
  (later : list (list SyncOperation)) : M Service Pass :=
  p ← syncPendingOperations_batch batch later;
  match p, later with
  | AwaitBatch _ _, batch' :: later' => resume_batches batch' later'
  | _, _ => mret p
  end.

Definition syncPendingOperations : M Service Pass :=
  p ← syncPendingOperations_enter;
  match p with
  | AwaitConnectivity =>
      p' ← syncPendingOperations_connectivity;
      match p' with
      | AwaitBatch batch later => resume_batches batch later
      | _ => mret p'
      end
  | _ => mret p
  end.

Definition manualSync_enter : M Service Pass :=
  logger Info "Manual sync triggered" None;;
  syncPendingOperations_enter.

Definition manualSync : M Service Pass :=
  logger Info "Manual sync triggered" None;;
  syncPendingOperations.

(** ** Several passes at once

    The calls made to the driver and the passes they started.  A step is a
    new call to [manualSync] (or a tick of the timer of [startAutoSync],
    which differs by a line of log), the continuation of a suspended pass,
    or a retry timer that fires and runs [retryOperation] to its end: the
    timer that was set as the [n]th, which fires once, so that a list of
    steps names it once at most. *)

Definition Driver : Type := Service * list Pass.

Inductive Step :=
| Call
| Resume (i : nat)
| Fire (n : nat).

Definition hung (p : Pass) : bool :=
  match p with
  | Hung => true
  | _ => false
  end.

(** The loop of [createBatches] is synchronous: once a pass is in a loop
    that does not end, nothing else runs. *)
Definition step (st : Step) (d : Driver) : Driver :=
  if existsb hung d.2 then d
  else
    match st with
    | Call =>
        match manualSync_enter d.1 with
        | (Normal p, s') => (s', d.2 ++ [p])
        | (Throw _, s') => (s', d.2 ++ [Returned])
        end
    | Resume i =>
        match d.2 !! i with
        | Some p =>
            match resume p d.1 with
            | (Normal p', s') => (s', <[i := p']> d.2)
            | (Throw _, s') => (s', <[i := Returned]> d.2)
            end
        | None => d
        end
    | Fire n =>
        match timers d.1 !! n with
        | Some (_, operationId) => ((retryOperation operationId d.1).2, d.2)
        | None => d
        end
    end.

Definition steps (l : list Step) (d : Driver) : Driver :=
  foldl (λ d st, step st d) d l.

(** ** Conflicts *)

(** [a === b]: primitives by value, objects by identity; [NaN] is equal to
    nothing, itself included. *)
Definition strict_equal (a b : Value) : bool :=
  bool_decide (a = b) && negb (bool_decide (a = VPrim PNaN)).

(** [array.indexOf(item)] *)
Fixpoint indexOf (item : Value) (array : list Value) : Z :=
  match array with
  | [] => -1
  | x :: rest =>
      if strict_equal x item then 0
      else let i := indexOf item rest in
           if decide (i = -1) then -1 else i + 1
  end.

(** [array.filter((item, index) => predicate(item, index))] *)
Fixpoint filter_indexed {A} (predicate : A → Z → bool) (index : Z) (array : list A)
  : list A :=
  match array with
  | [] => []
  | item :: rest =>
      if predicate item index
      then item :: filter_indexed predicate (index + 1) rest
      else filter_indexed predicate (index + 1) rest
  end.

(** [typeof d === 'object'] *)
Definition typeof_object (d : Data) : bool :=
  match d with
  | DArray _ | DObject _ | DPrim PNull => true
  | DPrim _ => false
  end.

(** The own enumerable properties an object spread copies. *)
Definition own_properties (d : Data) : list (string * Value) :=
  match d with
  | DObject props => props
  | DArray items => imap (λ i v, (pretty i, v)) items
  | DPrim _ => []
  end.

Definition mergeData (localData serverData : Data) : Data :=
  match localData, serverData with
  | DArray l, DArray s =>
      let combined := l ++ s in
      DArray (filter_indexed
                (λ item index, bool_decide (indexOf item combined = index))
                0 combined)
  | _, _ =>
      if typeof_object localData && typeof_object serverData then
        DObject (spread (own_properties localData) (own_properties serverData))
      else serverData
  end.

Inductive Resolution :=
| Resolved (d : Data)
| Both (localData serverData : Data).

Definition resolveConflicts (localData serverData : Data)
  (strategy : ConflictResolutionStrategy) : M Service Resolution :=
  now ← Date_now;
  emitEvent {| ev_type := conflictDetected; ev_operationId := None;
               ev_data := Some (Versions localData serverData);
               ev_error := None; ev_timestamp := now |};;
  match strategy with
  | serverWins => mret (Resolved serverData)
  | clientWins => mret (Resolved localData)
  | merge => mret (Resolved (mergeData localData serverData))
  | manual => mret (Both localData serverData)
  end.

End SyncService.

(* ===================================================================== *)
(** * The offline data cache: [hooks/useOfflineData.ts] *)
(* ===================================================================== *)

Module useOfflineData.
Import OfflineStorage.

(** The state behind the hook: the store, and the React state the hook
    declares with [useState]. *)
Record Hook := {
  storage : Storage;
  data : Dict;
  isSyncing : bool }.

Definition set_storage (st : Storage) (h : Hook) :=
  {| storage := st; data := data h; isSyncing := isSyncing h |}.
Definition setData (d : Dict) : M Hook unit :=
  modify (λ h, {| storage := storage h; data := d; isSyncing := isSyncing h |}).
Definition setIsSyncing (b : bool) : M Hook unit :=
  modify (λ h, {| storage := storage h; data := data h; isSyncing := b |}).

Definition offlineStorage {A} (m : M Storage A) : M Hook A :=
  zoom storage set_storage m.
Definition logger (lv : Level) (msg : string) (err : option Thrown) : M Hook unit :=
  offlineStorage (OfflineStorage.logger lv msg err).
Definition Date_now : M Hook Z := offlineStorage OfflineStorage.Date_now.

(** The callbacks of one render.  They close over the arguments of the
    hook and over the state as that render saw it: [data] below is the
    dictionary of the render, whatever [setData] has been asked since. *)
Section Render.
Variable dataType : string.
Variable data : Dict.
Variable isOnline : bool.

Definition endpoint_of (id : string) : string :=
  "/" +:+ dataType +:+ "/" +:+ id.

(** The properties a callback reads on the value it found under an id:
    those of the record; a member of [Object.prototype] ([None]) has none
    of them, each reads [undefined], and [undefined + 1] is [NaN]. *)
Definition found_id (item : option OfflineDataItem) : option string :=
  item ≫= item_id.
Definition found_data (item : option OfflineDataItem) : Data :=
  from_option item_data (DPrim PUndefined) item.
Definition found_lastModified (item : option OfflineDataItem) : option Z :=
  item ≫= lastModified.
Definition found_syncAttempts (item : option OfflineDataItem) : option nat :=
  item ≫= syncAttempts.
Definition found_errorMessage (item : option OfflineDataItem) : option string :=
  item ≫= errorMessage.

Definition saveData (newData : Dict) : M Hook unit :=
  try_catch
    (offlineStorage (store dataType (PDict newData) 1);;
     setData newData)
    (λ error,
       logger Error ("Error saving " +:+ dataType +:+ " data:") (Some error);;
       throw error).

Definition addItem (id : string) (itemData : Data) : M Hook unit :=
  try_catch
    (now ← Date_now;
     let newItem :=
       {| item_id := Some id; item_data := itemData; status := pending;
          lastModified := Some now; syncAttempts := Some 0%nat;
          errorMessage := None |} in
     let updatedData := obj_set id newItem data in
     saveData updatedData;;
     if isOnline then
       offlineStorage
         (addToSyncQueue {| in_type := CREATE; in_endpoint := endpoint_of id;
                            in_data := Some itemData; in_priority := high |});;
       mret tt
     else mret tt)
    (λ error,
       logger Error ("Error adding " +:+ dataType +:+ " item:") (Some error);;
       throw error).

Definition deleteItem (id : string) : M Hook unit :=
  try_catch
    (let updatedData := obj_delete id data in
     saveData updatedData;;
     if isOnline then
       offlineStorage
         (addToSyncQueue {| in_type := DELETE; in_endpoint := endpoint_of id;
                            in_data := None; in_priority := medium |});;
       mret tt
     else mret tt)
    (λ error,
       logger Error ("Error deleting " +:+ dataType +:+ " item:") (Some error);;
       throw error).

Definition getItem (id : string) : option Data :=
  match obj_lookup id data with
  | Missing => None
  | found => Some (found_data (own found))
  end.

Definition getItemsByStatus (st : DataSyncStatus) : list Data :=
  item_data <$> filter (λ item, status item = st) (Object_values data).

Definition syncItem (id : string) : M Hook unit :=
  match obj_lookup id data with
  | Missing => mret tt
  | found =>
      let item := own found in
      try_finally
        (try_catch
           (setIsSyncing true;;
            offlineStorage
              (addToSyncQueue {| in_type := UPDATE; in_endpoint := endpoint_of id;
                                 in_data := Some (found_data item);
                                 in_priority := high |});;
            let updatedItem :=
              {| item_id := found_id item; item_data := found_data item;
                 status := pending; lastModified := found_lastModified item;
                 syncAttempts := (λ n, (n + 1)%nat) <$> found_syncAttempts item;
                 errorMessage := found_errorMessage item |} in
            let updatedData := obj_set id updatedItem data in
            saveData updatedData)
           (λ error,
              logger Error ("Error syncing " +:+ dataType +:+ " item " +:+ id +:+ ":")
                (Some error);;
              let errorItem :=
                {| item_id := found_id item; item_data := found_data item;
                   status := OfflineStorage.error;
                   lastModified := found_lastModified item;
                   syncAttempts := (λ n, (n + 1)%nat) <$> found_syncAttempts item;
                   errorMessage := Some (error_text error) |} in
              let updatedData := obj_set id errorItem data in
              saveData updatedData;;
              throw error))
        (setIsSyncing false)
  end.

(** The calls [syncAll] makes to [syncItem]:
    [pendingItems.map((_, index) => syncItem(Object.keys(data)[index]))].
    An index without a key would give [undefined], the key ["undefined"]. *)
Definition syncAll_calls : list string :=
  imap (λ index _, default "undefined" (Object_keys data !! index))
    (getItemsByStatus pending).

(** [Promise.all]: every call runs to its end, and the first rejection, if
    any, is the outcome.  The calls run one after the other here. *)
Fixpoint all_settled (calls : list (M Hook unit)) : M Hook unit :=
  match calls with
  | [] => mret tt
  | call :: rest =>
      λ h, match call h with
           | (Normal _, h') => all_settled rest h'
           | (Throw e, h') => (Throw e, (all_settled rest h').2)
           end
  end.

Definition syncAll : M Hook unit :=
  try_finally
    (try_catch
       (setIsSyncing true;;
        all_settled (syncItem <$> syncAll_calls))
       (λ error,
          logger Error ("Error syncing all " +:+ dataType +:+ " items:") (Some error);;
          throw error))
    (setIsSyncing false).

Definition markAsSynced (id : string) : M Hook unit :=
  match obj_lookup id data with
  | Missing => mret tt
  | found =>
      let item := own found in
      let updatedItem :=
        {| item_id := found_id item; item_data := found_data item;
           status := synced; lastModified := found_lastModified item;
           syncAttempts := Some 0%nat; errorMessage := None |} in
      let updatedData := obj_set id updatedItem data in
      saveData updatedData
  end.

Definition resolveConflict (id : string) (resolvedData : Data)
  (strategy : SyncService.ConflictResolutionStrategy) : M Hook unit :=
  try_catch
    (match obj_lookup id data with
     | Missing => mret tt
     | found =>
         let item := own found in
         now ← Date_now;
         let resolvedItem :=
           {| item_id := found_id item; item_data := resolvedData;
              status := pending; lastModified := Some now;
              syncAttempts := Some 0%nat; errorMessage := None |} in
         let updatedData := obj_set id resolvedItem data in
         saveData updatedData
     end)
    (λ error,
       logger Error ("Error resolving conflict for " +:+ dataType +:+ " item "
                       +:+ id +:+ ":") (Some error);;
       throw error).
End Render.

(** A callback of the current render: it sees the state as it is. *)
Definition rendered {A} (callback : Dict → M Hook A) : M Hook A :=
  λ h, callback (data h) h.

End useOfflineData.
(* ===================================================================== *)
(** * Vocabulary of the specification *)
(* ===================================================================== *)

(** ** The sync queue *)

Module QueueSpec.
Import OfflineStorage.

(** [a] may stand before [b]: a smaller priority rank, or the same priority
    and a timestamp that is not later. *)
Definition queue_order (a b : SyncOperation) : Prop :=
  priorityOrder (priority a) < priorityOrder (priority b) ∨
  (priority a = priority b ∧ timestamp a <= timestamp b).

Definition queue_sorted (q : list SyncOperation) : Prop :=
  StronglySorted queue_order q.

(** The value [getSyncQueue] finds under the key when the read goes
    through; [None] when what is there is not a queue. *)
Definition stored_queue (s : Storage) : option (list SyncOperation) :=
  match kv s !! SYNC_QUEUE with
  | None | Some Unparsable => Some []
  | Some (Json item) =>
      match st_data item with
      | PQueue q => Some q
      | PDict _ => None
      end
  end.

Inductive QueueCommand :=
| Enqueue (operation : SyncOperationInput)
| Dequeue (operationId : string)
| Retry (operationId : string).

Definition run_command (c : QueueCommand) (s : Storage) : Storage :=
  match c with
  | Enqueue operation => exec (addToSyncQueue operation) s
  | Dequeue operationId => exec (removeFromSyncQueue operationId) s
  | Retry operationId => exec (incrementRetryCount operationId) s
  end.

Definition run_commands (l : list QueueCommand) (s : Storage) : Storage :=
  foldl (λ s c, run_command c s) s l.

(** What names an operation and decides its place in the queue. *)
Definition sort_key (op : SyncOperation) : string * Priority * Z :=
  (id op, priority op, timestamp op).

(** The operation [addToSyncQueue] builds from its input. *)
Definition enqueued (operation : SyncOperationInput) (syncOp : SyncOperation) : Prop :=
  type syncOp = in_type operation ∧ endpoint syncOp = in_endpoint operation ∧
  data syncOp = in_data operation ∧ priority syncOp = in_priority operation ∧
  retries syncOp = 0%nat ∧ maxRetries syncOp = MAX_RETRIES.

(** The store answers every call. *)
Definition reliable (s : Storage) : Prop := ∀ n, outcomes s n = None.

(** The operation [addToSyncQueue] makes of its input in state [s]. *)
Definition new_operation (operation : SyncOperationInput) (s : Storage)
  : SyncOperation :=
  {| id := "op_" +:+ pretty (clock s 0%nat) +:+ "_" +:+ random s 0%nat;
     type := in_type operation;
     endpoint := in_endpoint operation;
     data := in_data operation;
     timestamp := clock s 1%nat;
     retries := 0;
     maxRetries := MAX_RETRIES;
     priority := in_priority operation |}.

(** *** Stores used as examples *)

(** A store with one record in it, which rejects the next call. *)
Definition rejecting_store : Storage :=
  {| kv := {[ "courses" := Unparsable ]};
     log := [];
     outcomes := λ n, match n with O => Some (JsError "disk full") | _ => None end;
     clock := λ _, 0;
     random := λ _, "" |}.

(** A store that holds the queue [q] and answers every call. *)
Definition store_with (q : list SyncOperation) : Storage :=
  {| kv := {[ SYNC_QUEUE :=
                Json {| st_data := PQueue q; st_timestamp := 0; st_version := 1 |} ]};
     log := [];
     outcomes := λ _, None;
     clock := λ n, 1700000000001 + Z.of_nat n;
     random := λ _, "a1b2c3d4e" |}.

(** A store with nothing in it, which answers every call. *)
Definition empty_store : Storage :=
  {| kv := ∅;
     log := [];
     outcomes := λ _, None;
     clock := λ n, 1700000000001 + Z.of_nat n;
     random := λ _, "a1b2c3d4e" |}.

Definition create_course : SyncOperationInput :=
  {| in_type := CREATE; in_endpoint := "/courses/42";
     in_data := Some (DObject [("title", VPrim (PStr "Logic"))]);
     in_priority := high |}.

Definition read_progress : SyncOperationInput :=
  {| in_type := READ; in_endpoint := "/progress/42";
     in_data := None; in_priority := low |}.

Definition update_notes : SyncOperationInput :=
  {| in_type := UPDATE; in_endpoint := "/notes/42";
     in_data := Some (DObject [("text", VPrim (PStr "Induction"))]);
     in_priority := medium |}.

(** Three enqueues, of low, high and medium priority; a retry of the first
    operation; a fourth enqueue, of high priority, and the removal of the
    second operation. *)
Definition mixed_commands : list QueueCommand :=
  [Enqueue read_progress; Enqueue create_course; Enqueue update_notes;
   Retry "op_1700000000001_a1b2c3d4e"; Enqueue create_course;
   Dequeue "op_1700000000004_a1b2c3d4e"].

(** Two enqueues, the low priority first; a retry of the first operation
    and the removal of the second. *)
Definition example_commands : list QueueCommand :=
  [Enqueue read_progress; Enqueue create_course;
   Retry "op_1700000000001_a1b2c3d4e"; Dequeue "op_1700000000004_a1b2c3d4e"].

(** What is looked at in the examples. *)
Definition summary (op : SyncOperation) : string * Priority * nat :=
  (endpoint op, priority op, retries op).

End QueueSpec.

(** ** The sync driver *)

Module DriverSpec.
Import OfflineStorage SyncService QueueSpec.

(** The request an operation is sent with. *)
Definition request_of (operation : SyncOperation) : Request :=
  match type operation with
  | CREATE => {| method := api_post; path := endpoint operation; body := data operation |}
  | UPDATE => {| method := api_put; path := endpoint operation; body := data operation |}
  | DELETE => {| method := api_delete; path := endpoint operation; body := None |}
  | READ => {| method := api_get; path := endpoint operation; body := None |}
  end.

(** The API rejects every call. *)
Definition failing (s : Service) : Prop := ∀ n, ∃ e, responses s n = Throw e.

(** What the driver knows of an operation it keeps failing to send. *)
Record tracked (operationId : string) (count : nat) (s : Service) : Prop := {
  tracked_reliable : reliable (storage s);
  tracked_failing : failing s;
  tracked_queue : ∃ q i op,
    stored_queue (storage s) = Some q ∧
    list_find (λ o, id o = operationId) q = Some (i, op) ∧
    retries op = count ∧ maxRetries op = MAX_RETRIES }.

(** The pass a suspended pass becomes once its batch has settled, and the
    operations it sends on the way. *)
Definition next_pass (later : list (list SyncOperation)) : Pass :=
  match later with
  | batch :: later' => AwaitBatch batch later'
  | [] => Returned
  end.

Definition next_selected (cfg : SyncConfig) (later : list (list SyncOperation))
  : list SyncOperation :=
  match later with
  | batch :: _ => selected cfg batch
  | [] => []
  end.

(** The turns a task has before it, at most. *)
Definition rank (task : Task) : nat :=
  match task with
  | AwaitApi _ => 3
  | AwaitRead _ _ => 2
  | AwaitWrite _ _ _ => 1
  | Finished => 0
  end.

(** The id of the operation of a task that has not finished. *)
Definition waiting (task : Task) : list string :=
  match task with
  | AwaitApi operation | AwaitRead operation _ | AwaitWrite operation _ _ =>
      [id operation]
  | Finished => []
  end.

(** The ids of the operations the events of a list are about. *)
Definition event_ids (l : list SyncEvent) : list string := omap ev_operationId l.

(** The network probe says the device is online. *)
Definition online (s : Service) : Prop :=
  ∃ state, network s 0%nat = Normal state ∧
           isConnected state = Some true ∧ isInternetReachable state = Some true.

(** *** Drivers used as examples *)

Definition course_42 : SyncOperation :=
  {| id := "op_1700000000000_k3j9x0a1b";
     type := CREATE;
     endpoint := "/courses/42";
     data := Some (DObject [("title", VPrim (PStr "Logic"))]);
     timestamp := 1700000000000;
     retries := 0;
     maxRetries := 3;
     priority := high |}.

(** An idle driver, online, with one operation to send. *)
Definition idle_online : Service :=
  {| storage := store_with [course_42];
     config := default_config;
     isSyncing := false;
     events := [];
     requests := [];
     timers := [];
     responses := λ _, Normal (DPrim PUndefined);
     network := λ _, Normal {| isConnected := Some true;
                               isInternetReachable := Some true |};
     schedule := λ _, 0%nat |}.

(** Twelve operations, and an idle driver, online, that has them to send;
    the operations that wait go on in turn. *)
Definition numbered (n : nat) : SyncOperation :=
  {| id := "op_" +:+ pretty n;
     type := UPDATE;
     endpoint := "/progress/" +:+ pretty n;
     data := None;
     timestamp := Z.of_nat n;
     retries := 0;
     maxRetries := 3;
     priority := medium |}.

Definition twelve_queued : list SyncOperation := numbered <$> seq 0 12.

Definition twelve_online : Service :=
  {| storage := store_with twelve_queued;
     config := default_config;
     isSyncing := false;
     events := [];
     requests := [];
     timers := [];
     responses := λ _, Normal (DPrim PUndefined);
     network := λ _, Normal {| isConnected := Some true;
                               isInternetReachable := Some true |};
     schedule := λ n, n |}.

(** [manualSync(); manualSync();] and then the two passes go on. *)
Definition two_calls : list Step := [Call; Call; Resume 0; Resume 1].

(** One call, and its pass to the end. *)
Definition one_call : list Step := [Call; Resume 0; Resume 0].

(** A second call made while the first pass awaits its batch. *)
Definition call_during_batch : list Step := [Call; Resume 0; Call; Resume 0].

(** The same driver with an empty queue, and an API that rejects every
    call. *)
Definition api_down : Service :=
  {| storage := store_with [];
     config := default_config;
     isSyncing := false;
     events := [];
     requests := [];
     timers := [];
     responses := λ _, Throw (JsError "Network Error");
     network := λ _, Normal {| isConnected := Some true;
                               isInternetReachable := Some true |};
     schedule := λ _, 0%nat |}.

(** The API is down and an operation is enqueued.  A pass fails to send it;
    its first retry timer fires and the retry fails.  A second pass loads
    the queue and sends the operation; while that request is under way the
    second retry timer fires and the retry fails; then the request of the
    pass fails too. *)
Definition enqueued_api_down : Service :=
  exec (offlineStorage (addToSyncQueue create_course)) api_down.

Definition enqueued_id : string :=
  id (new_operation create_course (storage api_down)).

Definition stale_pass : list Step :=
  [Call; Resume 0; Resume 0; Fire 0;
   Call; Resume 1; Fire 1; Resume 1].

(** The same, up to the third failure. *)
Definition three_failures : list Step :=
  [Call; Resume 0; Resume 0; Fire 0;
   Call; Resume 1; Fire 1].

End DriverSpec.

(** ** Conflicts *)

Module ConflictSpec.




End ConflictSpec.

(** ** The offline data cache *)

Module CacheSpec.
Import OfflineStorage useOfflineData.

Definition record (id : string) (st : DataSyncStatus) : OfflineDataItem :=
  {| item_id := Some id;
     item_data := DObject [("title", VPrim (PStr id))];
     status := st;
     lastModified := Some 1700000000000;
     syncAttempts := Some 0%nat;
     errorMessage := None |}.

(** A dictionary whose first record is synced and whose second is pending. *)
Definition synced_then_pending : Dict :=
  [("a", record "a" synced); ("b", record "b" pending)].

(** The ids of the pending records. *)
Definition pending_ids (data : Dict) : list string :=
  (filter (λ entry, status entry.2 = pending) data).*1.

Definition fresh_hook (data : Dict) : Hook :=
  {| storage := {| kv := ∅; log := []; outcomes := λ _, None;
                   clock := λ n, 1700000000001 + Z.of_nat n;
                   random := λ _, "a1b2c3d4e" |};
     useOfflineData.data := data;
     isSyncing := false |}.

(** The endpoints of the operations in the stored queue. *)
Definition queued_endpoints (h : Hook) : list string :=
  match kv (storage h) !! SYNC_QUEUE with
  | Some (Json item) =>
      match st_data item with
      | PQueue q => endpoint <$> q
      | PDict _ => []
      end
  | _ => []
  end.

(** A hook whose store rejects the second call it gets. *)
Definition second_call_rejected (data : Dict) : Hook :=
  {| storage := {| kv := ∅; log := [];
                   outcomes := λ n, match n with
                                    | 1%nat => Some (JsError "quota exceeded")
                                    | _ => None
                                    end;
                   clock := λ n, 1700000000001 + Z.of_nat n;
                   random := λ _, "a1b2c3d4e" |};
     useOfflineData.data := data;
     isSyncing := false |}.

(** A hook whose store gives its first calls the answers listed, [None]
    for a call it accepts, and accepts the calls after them. *)
Definition answering (answers : list (option Thrown)) (data : Dict) : Hook :=
  {| storage := {| kv := ∅; log := [];
                   outcomes := λ n, default None (answers !! n);
                   clock := λ n, 1700000000001 + Z.of_nat n;
                   random := λ _, "a1b2c3d4e" |};
     useOfflineData.data := data;
     isSyncing := false |}.

(** What [syncItem] asks the queue to take for a record. *)
Definition sync_request (dataType id : string) (item : OfflineDataItem)
  : SyncOperationInput :=
  {| in_type := UPDATE; in_endpoint := endpoint_of dataType id;
     in_data := Some (item_data item); in_priority := high |}.

(** What a callback makes of a member of [Object.prototype] found under an
    id: a record with the status it sets and no other property of the
    record it was looking for. *)
Definition not_a_record (st : DataSyncStatus) (now : option Z) : OfflineDataItem :=
  {| item_id := None; item_data := DPrim PUndefined; status := st;
     lastModified := now; syncAttempts := Some 0%nat; errorMessage := None |}.

End CacheSpec.

(* ===================================================================== *)
(** * The rest of the sync driver: timer, listeners, failed operations *)
(* ===================================================================== *)

Module SyncControl.
Import OfflineStorage SyncService.

(** The fields of [SyncService] the passes do not use, with the driver
    itself: the handle of the periodic timer, the timers [setInterval] has
    installed and [clearInterval] has not removed, the registered
    listeners (functions, known by their identity) and what they were
    called with.  What a listener does of an event and the handles
    [setInterval] returns (numbers other than 0) are not decided by the
    code.  A listener can register and unregister listeners, itself too,
    before it returns or throws; these are the calls a listener makes to
    the driver here. *)
Inductive Registration :=
| Add (listener : nat)
| Remove (listener : nat).

Record Controller := {
  service : Service;
  syncIntervalId : option positive;
  intervals : list (positive * Z);
  eventListeners : list nat;
  delivered : list (nat * SyncEvent);
  handles : nat → positive;
  reaction : nat → SyncEvent → list Registration * option Thrown }.

Definition set_service (s : Service) (c : Controller) :=
  {| service := s; syncIntervalId := syncIntervalId c; intervals := intervals c;
     eventListeners := eventListeners c; delivered := delivered c;
     handles := handles c; reaction := reaction c |}.
Definition set_syncIntervalId (i : option positive) (c : Controller) :=
  {| service := service c; syncIntervalId := i; intervals := intervals c;
     eventListeners := eventListeners c; delivered := delivered c;
     handles := handles c; reaction := reaction c |}.
Definition set_intervals (f : list (positive * Z) → list (positive * Z)) (c : Controller) :=
  {| service := service c; syncIntervalId := syncIntervalId c;
     intervals := f (intervals c);
     eventListeners := eventListeners c; delivered := delivered c;
     handles := handles c; reaction := reaction c |}.
Definition set_eventListeners (f : list nat → list nat) (c : Controller) :=
  {| service := service c; syncIntervalId := syncIntervalId c; intervals := intervals c;
     eventListeners := f (eventListeners c); delivered := delivered c;
     handles := handles c; reaction := reaction c |}.
Definition set_delivered (f : list (nat * SyncEvent) → list (nat * SyncEvent))
  (c : Controller) :=
  {| service := service c; syncIntervalId := syncIntervalId c; intervals := intervals c;
     eventListeners := eventListeners c; delivered := f (delivered c);
     handles := handles c; reaction := reaction c |}.
Definition set_handles (h : nat → positive) (c : Controller) :=
  {| service := service c; syncIntervalId := syncIntervalId c; intervals := intervals c;
     eventListeners := eventListeners c; delivered := delivered c;
     handles := h; reaction := reaction c |}.

Definition driver {A} (m : M Service A) : M Controller A :=
  zoom service set_service m.

(** [setInterval(() => this.syncPendingOperations(), period)] *)
Definition setInterval_syncPendingOperations (period : Z) : M Controller positive :=
  λ c, let (handle, rest) := pop (handles c) in
       (Normal handle,
        set_intervals (λ l, l ++ [(handle, period)]) (set_handles rest c)).

Definition clearInterval (handle : positive) : M Controller unit :=
  modify (set_intervals (filter (λ timer, timer.1 ≠ handle))).

Definition addEventListener (listener : nat) : M Controller unit :=
  modify (set_eventListeners (λ l, l ++ [listener])).

(** [this.eventListeners.indexOf(listener)] *)
Fixpoint listener_indexOf (listener : nat) (listeners : list nat) : Z :=
  match listeners with
  | [] => -1
  | x :: rest =>
      if decide (x = listener) then 0
      else let i := listener_indexOf listener rest in
           if decide (i = -1) then -1 else i + 1
  end.

(** [array.splice(index, 1)] *)
Definition splice_one {A} (index : Z) (array : list A) : list A :=
  take (Z.to_nat index) array ++ drop (S (Z.to_nat index)) array.

Definition removeEventListener (listener : nat) : M Controller unit :=
  listeners ← gets eventListeners;
  let index := listener_indexOf listener listeners in
  if decide (index > -1) then modify (set_eventListeners (splice_one index))
  else mret tt.

(** A call a listener makes to the driver. *)
Definition register (call : Registration) : M Controller unit :=
  match call with
  | Add listener => addEventListener listener
  | Remove listener => removeEventListener listener
  end.

(** [listener(event)] inside [try { } catch (error) { logger.error(...) }] *)
Definition notify (event : SyncEvent) (listener : nat) : M Controller unit :=
  try_catch
    (modify (set_delivered (λ l, l ++ [(listener, event)]));;
     react ← gets reaction;
     for_each register (react listener event).1;;
     match (react listener event).2 with
     | Some thrown => throw thrown
     | None => mret tt
     end)
    (λ error, driver (SyncService.logger Error "Error in sync event listener:" (Some error))).

(** [this.eventListeners.forEach(...)]: the indices below the length the
    array had when the loop began are visited in turn, each on the array
    as it is by then, and an index the array no longer has is passed
    over. *)
Fixpoint forEach_listener (callback : nat → M Controller unit)
  (index count : nat) : M Controller unit :=
  match count with
  | O => mret tt
  | S count' =>
      listeners ← gets eventListeners;
      match listeners !! index with
      | Some listener => callback listener
      | None => mret tt
      end;;
      forEach_listener callback (S index) count'
  end.

(** [emitEvent], with its listeners: the event is broadcast (the trace
    [events] of the driver records it) and the listeners are called with
    it. *)
Definition emitEvent (event : SyncEvent) : M Controller unit :=
  driver (SyncService.emitEvent event);;
  listeners ← gets eventListeners;
  forEach_listener (notify event) 0 (length listeners).

Definition startAutoSync : M Controller unit :=
  running ← gets syncIntervalId;
  match running with
  | Some _ =>
      driver (SyncService.logger Warn "Auto sync is already running" None)
  | None =>
      cfg ← driver (gets config);
      handle ← setInterval_syncPendingOperations (syncInterval cfg);
      modify (set_syncIntervalId (Some handle));;
      driver (SyncService.logger Info "Auto sync started" None);;
      now ← driver SyncService.Date_now;
      emitEvent {| ev_type := syncStarted; ev_operationId := None; ev_data := None;
                   ev_error := None; ev_timestamp := now |}
  end.

Definition stopAutoSync : M Controller unit :=
  running ← gets syncIntervalId;
  match running with
  | Some handle =>
      clearInterval handle;;
      modify (set_syncIntervalId None);;
      driver (SyncService.logger Info "Auto sync stopped" None)
  | None => mret tt
  end.

(** [clearFailedOperations] *)
Definition clearFailedOperations : M Service unit :=
  failedOps ← offlineStorage getFailedOperations;
  for_each (λ op, offlineStorage (removeFromSyncQueue (id op))) failedOps;;
  SyncService.logger Info ("Cleared " +:+ pretty (length failedOps)
                             +:+ " failed operations") None.

End SyncControl.

(* ===================================================================== *)
(** * The rest of the offline data cache: updates and clearing *)
(* ===================================================================== *)

Module CacheEdits.
Import OfflineStorage useOfflineData.

(** The own enumerable properties an object spread copies from any value:
    a string gives its characters, one for each code unit, under their
    indices; the other primitives give none.  A string of the model is the
    sequence of its code units: it stands for a text whose code units are
    all below 256, which is one character of the model each. *)
Definition spread_properties (d : Data) : list (string * Value) :=
  match d with
  | DObject props => props
  | DArray items => imap (λ i v, (pretty i, v)) items
  | DPrim (PStr s) =>
      imap (λ i c, (pretty i, VPrim (PStr (String c EmptyString))))
        (String.list_ascii_of_string s)
  | DPrim _ => []
  end.

Section Render.
Variable dataType : string.
Variable data : Dict.
Variable isOnline : bool.

Definition updateItem (id : string) (itemData : Data) : M Hook unit :=
  try_catch
    (match obj_lookup id data with
     | Missing => throw (JsError ("Item with id " +:+ id +:+ " not found"))
     | found =>
         let existingItem := own found in
         let merged :=
           DObject (spread (spread_properties itemData)
                      (spread_properties (found_data existingItem))) in
         now ← Date_now;
         let updatedItem :=
           {| item_id := found_id existingItem; item_data := merged;
              status := pending; lastModified := Some now;
              syncAttempts := Some 0%nat;
              errorMessage := found_errorMessage existingItem |} in
         let updatedData := obj_set id updatedItem data in
         saveData dataType updatedData;;
         if isOnline then
           offlineStorage
             (addToSyncQueue {| in_type := UPDATE;
                                in_endpoint := endpoint_of dataType id;
                                in_data := Some (item_data updatedItem);
                                in_priority := medium |});;
           mret tt
         else mret tt
     end)
    (λ error,
       logger Error ("Error updating " +:+ dataType +:+ " item:") (Some error);;
       throw error).

Definition clearAll : M Hook unit :=
  try_catch
    (offlineStorage (remove dataType);;
     setData [])
    (λ error,
       logger Error ("Error clearing " +:+ dataType +:+ " data:") (Some error);;
       throw error).
End Render.

End CacheEdits.

(* ===================================================================== *)
(** * Vocabulary of the further properties *)
(* ===================================================================== *)

(** ** The store *)

Module StoreSpec.
Import OfflineStorage QueueSpec.

(** What [retrieve key] reads in state [s]. *)
Definition readable (key : string) (s : Storage) : option Payload :=
  match outcomes s 0%nat with
  | Some _ => None
  | None =>
      match kv s !! key with
      | Some (Json item) => Some (st_data item)
      | Some Unparsable | None => None
      end
  end.

(** A queue of two operations, the first of them failed. *)
Definition failed_update : SyncOperation :=
  {| id := "op_1"; type := UPDATE; endpoint := "/courses/1"; data := None;
     timestamp := 1; retries := 3; maxRetries := 3; priority := high |}.

Definition fresh_read : SyncOperation :=
  {| id := "op_2"; type := READ; endpoint := "/courses/2"; data := None;
     timestamp := 2; retries := 0; maxRetries := 3; priority := medium |}.

Definition twice_queued : list SyncOperation := [failed_update; fresh_read].

End StoreSpec.

(** ** A pass of the driver *)

Module PassSpec.
Import OfflineStorage SyncService QueueSpec DriverSpec.

(** The network probe fails, or says the device is not connected or cannot
    reach the internet. *)
Definition offline (s : Service) : Prop :=
  match network s 0%nat with
  | Throw _ => True
  | Normal state =>
      default false (isConnected state)
      && default false (isInternetReachable state) = false
  end.

(** The API resolves every call. *)
Definition succeeding (s : Service) : Prop := ∀ n, ∃ d, responses s n = Normal d.

(** The store answers every call, the API resolves every call, and the
    store holds the queue [q]. *)
Definition healthy (s : Service) (q : list SyncOperation) : Prop :=
  reliable (storage s) ∧ succeeding s ∧ stored_queue (storage s) = Some q.

(** The event [processOperation] emits for what the API answered. *)
Definition outcome_event (operation : SyncOperation) (answer : Completion Data)
  (now : Z) : SyncEvent :=
  match answer with
  | Normal d =>
      {| ev_type := operationProcessed; ev_operationId := Some (id operation);
         ev_data := Some (Response d); ev_error := None; ev_timestamp := now |}
  | Throw e =>
      {| ev_type := syncFailed; ev_operationId := Some (id operation);
         ev_data := None; ev_error := Some e; ev_timestamp := now |}
  end.

(** The operations a pass sends when it cuts the queue into [batches]. *)
Definition dispatched (cfg : SyncConfig) (batches : list (list SyncOperation))
  : list SyncOperation :=
  concat (selected cfg <$> batches).

(** The operations that are left of [q] once those of [sent] are removed by
    their ids. *)
Definition remaining (sent q : list SyncOperation) : list SyncOperation :=
  filter (λ op, id op ∉ id <$> sent) q.

(** [x] is what is left of [q] when operations of [sent], and no other,
    are taken out of it. *)
Definition between (sent q x : list SyncOperation) : Prop :=
  sublist (remaining sent q) x ∧ sublist x q.

(** A task of a pass in which every call has succeeded so far: its
    operation is one of [sent], the API has resolved its call, and the
    queue it is about to write is between [q] and what [sent] leaves of it. *)
Definition removing (sent q : list SyncOperation) (task : Task) : Prop :=
  match task with
  | AwaitApi operation => operation ∈ sent
  | AwaitRead operation answer => operation ∈ sent ∧ ∃ d, answer = Normal d
  | AwaitWrite operation answer item =>
      operation ∈ sent ∧ (∃ d, answer = Normal d) ∧
      ∃ x, st_data item = PQueue x ∧ between sent q x
  | Finished => True
  end.

(** Two operations, and an idle driver, online, that has them to send.
    The two operations go on in turn: each reads the queue before the other
    writes it. *)
Definition two_queued : list SyncOperation := [numbered 0; numbered 1].

Definition two_in_turn : Service :=
  {| storage := store_with two_queued;
     config := default_config;
     isSyncing := false;
     events := [];
     requests := [];
     timers := [];
     responses := λ _, Normal (DPrim PUndefined);
     network := λ _, Normal {| isConnected := Some true;
                               isInternetReachable := Some true |};
     schedule := λ n, n |}.

(** The same driver, where the first operation is through before the
    second goes on. *)
Definition two_in_a_row : Service :=
  {| storage := store_with two_queued;
     config := default_config;
     isSyncing := false;
     events := [];
     requests := [];
     timers := [];
     responses := λ _, Normal (DPrim PUndefined);
     network := λ _, Normal {| isConnected := Some true;
                               isInternetReachable := Some true |};
     schedule := λ _, 0%nat |}.

(** A driver whose network probe says the device is connected but cannot
    reach the internet. *)
Definition unreachable : Service :=
  {| storage := store_with [course_42];
     config := default_config;
     isSyncing := false;
     events := [];
     requests := [];
     timers := [];
     responses := λ _, Normal (DPrim PUndefined);
     network := λ _, Normal {| isConnected := Some true;
                               isInternetReachable := Some false |};
     schedule := λ _, 0%nat |}.

End PassSpec.

(** ** The timer and the listeners *)

Module ControlSpec.
Import OfflineStorage SyncService QueueSpec DriverSpec SyncControl.

Inductive AutoSync := Start | Stop.

Definition run_autoSync (command : AutoSync) (c : Controller) : Controller :=
  match command with
  | Start => exec startAutoSync c
  | Stop => exec stopAutoSync c
  end.

Definition run_autoSyncs (l : list AutoSync) (c : Controller) : Controller :=
  foldl (λ c command, run_autoSync command c) c l.

(** The timer of the driver and the field that holds its handle agree:
    no timer and no handle, or one timer, with that handle and the period
    of the configuration. *)
Definition one_timer (c : Controller) : Prop :=
  match syncIntervalId c with
  | Some handle => intervals c = [(handle, syncInterval (config (service c)))]
  | None => intervals c = []
  end.

(** What the log gains when [event] is emitted: an entry for each listener
    that throws, in the order of the listeners. *)
Definition listener_errors (event : SyncEvent) (c : Controller) : list LogEntry :=
  omap (λ listener,
          (λ thrown, {| level := Error; text := "Error in sync event listener:";
                        detail := Some thrown |})
          <$> (reaction c listener event).2)
       (eventListeners c).

(** No registered listener calls the driver when it is called with
    [event]: none registers or unregisters a listener. *)
Definition registrations_kept (event : SyncEvent) (c : Controller) : Prop :=
  ∀ listener, listener ∈ eventListeners c → (reaction c listener event).1 = [].

(** A driver that has just been made, with three listeners of which the
    second throws. *)
Definition new_controller : Controller :=
  {| service := idle_online;
     syncIntervalId := None;
     intervals := [];
     eventListeners := [0; 1; 2]%nat;
     delivered := [];
     handles := λ n, Pos.of_succ_nat n;
     reaction := λ listener _,
       match listener with
       | 1%nat => ([], Some (JsError "listener failed"))
       | _ => ([], None)
       end |}.

(** The same driver, whose first listener unregisters itself when it is
    called. *)
Definition first_listens_once : Controller :=
  {| service := idle_online;
     syncIntervalId := None;
     intervals := [];
     eventListeners := [0; 1; 2]%nat;
     delivered := [];
     handles := λ n, Pos.of_succ_nat n;
     reaction := λ listener _,
       match listener with
       | 0%nat => ([Remove 0%nat], None)
       | _ => ([], None)
       end |}.

Definition sync_started : SyncEvent :=
  {| ev_type := syncStarted; ev_operationId := None; ev_data := None;
     ev_error := None; ev_timestamp := 0 |}.

End ControlSpec.

(* ===================================================================== *)
(** * Properties of the offline store *)
(* ===================================================================== *)

Module OfflineStorageFacts.
Import OfflineStorage QueueSpec.

(** ** The order of the queue *)

Lemma priorityOrder_inj p p' : priorityOrder p = priorityOrder p' → p = p'.
Proof. destruct p, p'; simpl; intros; congruence || lia. Qed.

Lemma compareOperations_order a b : compareOperations a b <= 0 ↔ queue_order a b.
Proof.
  unfold compareOperations, queue_order.
  destruct (decide _) as [Hne|Heq].
  - split; [intros; left; lia|].
    intros [?|[Hp _]]; [lia|]. rewrite Hp in Hne. done.
  - apply dec_stable in Heq. apply priorityOrder_inj in Heq.
    rewrite Heq. split; [intros; right; split; [done|lia]|].
    intros [?|[_ ?]]; lia.
Qed.

Lemma queue_order_total a b : queue_order a b ∨ queue_order b a.
Proof.
  unfold queue_order.
  destruct (Z.lt_trichotomy (priorityOrder (priority a)) (priorityOrder (priority b)))
    as [?|[Heq|?]]; [by left; left| |by right; left].
  apply priorityOrder_inj in Heq.
  destruct (Z.le_ge_cases (timestamp a) (timestamp b)); [left|right]; right; split;
    congruence || lia.
Qed.

Lemma queue_order_trans a b c : queue_order a b → queue_order b c → queue_order a c.
Proof.
  unfold queue_order. intros [?|[Hab ?]] [?|[Hbc ?]].
  - left; lia.
  - left. rewrite <- Hbc. done.
  - left. rewrite Hab. done.
  - right. split; [congruence|lia].
Qed.

Lemma Array_insert_perm {A} (cmp : A → A → Z) x l :
  Permutation (Array_insert cmp x l) (x :: l).
Proof.
  induction l as [|y l IH]; simpl; [done|].
  destruct (decide _); [done|].
  rewrite IH. apply perm_swap.
Qed.

Lemma Array_sort_perm {A} (cmp : A → A → Z) l : Permutation (Array_sort cmp l) l.
Proof.
  induction l as [|x l IH]; simpl; [done|].
  rewrite Array_insert_perm. by constructor.
Qed.

Lemma Array_insert_sorted x q :
  queue_sorted q → queue_sorted (Array_insert compareOperations x q).
Proof.
  unfold queue_sorted. induction 1 as [|y q Hq IH Hall]; simpl.
  - repeat constructor.
  - destruct (decide _) as [Hle|Hgt].
    + apply compareOperations_order in Hle.
      constructor; [by constructor|].
      constructor; [done|].
      eapply Forall_impl; [exact Hall|]. intros z. by apply queue_order_trans.
    + constructor; [done|].
      assert (queue_order y x) as Hyx.
      { destruct (queue_order_total x y) as [Hxy|]; [|done].
        apply compareOperations_order in Hxy. lia. }
      rewrite Array_insert_perm. by constructor.
Qed.

Lemma Array_sort_sorted q : queue_sorted (Array_sort compareOperations q).
Proof.
  induction q as [|x q IH]; simpl; [constructor|]. by apply Array_insert_sorted.
Qed.

Lemma filter_sorted (P : SyncOperation → Prop) `{!∀ x, Decision (P x)} q :
  queue_sorted q → queue_sorted (filter P q).
Proof.
  unfold queue_sorted. induction 1 as [|x q Hq IH Hall]; [constructor|].
  rewrite filter_cons. destruct (decide (P x)); [|done].
  constructor; [done|].
  rewrite Forall_forall in Hall |- *. intros z Hz.
  apply list_elem_of_filter in Hz as [_ Hz]. by apply Hall.
Qed.

Lemma find_and_increment_keys operationId q q' :
  find_and_increment operationId q = Some q' → sort_key <$> q' = sort_key <$> q.
Proof.
  revert q'. induction q as [|op q IH]; simpl; intros q'; [done|].
  destruct (decide _).
  - intros [= <-]. done.
  - destruct (find_and_increment operationId q) as [r|]; simpl; [|done].
    intros [= <-]. simpl. f_equal. by apply IH.
Qed.

Lemma sorted_keys q q' :
  sort_key <$> q' = sort_key <$> q → queue_sorted q → queue_sorted q'.
Proof.
  unfold queue_sorted. intros Hk Hs. revert q' Hk.
  induction Hs as [|x q Hq IH Hall]; intros [|x' q'] Hk; simpl in Hk; try done.
  - constructor.
  - injection Hk as Hid Hp Ht Hk.
    change (sort_key <$> q' = sort_key <$> q) in Hk.
    constructor; [by apply IH|].
    assert (Forall (λ k, priorityOrder (priority x') < priorityOrder k.1.2 ∨
                        (priority x' = k.1.2 ∧ timestamp x' <= k.2))
              (sort_key <$> q')) as HF.
    { rewrite Hk. rewrite Forall_fmap. eapply Forall_impl; [exact Hall|].
      intros z Hz. simpl. rewrite Hp, Ht. exact Hz. }
    rewrite Forall_fmap in HF. exact HF.
Qed.

(** ** What the queue functions leave in the store *)

Ltac unfold_store :=
  unfold exec, result, addToSyncQueue, removeFromSyncQueue, incrementRetryCount,
    removeFromSyncQueue_read, removeFromSyncQueue_write,
    incrementRetryCount_read, incrementRetryCount_write,
    getFailedOperations, clearSyncQueue, getSyncQueue, generateOperationId,
    store_call, store_settle, array_receiver, retrieve, store, remove, clearAll, exists_, JSON_parse,
    AsyncStorage_setItem, AsyncStorage_getItem, AsyncStorage_removeItem,
    AsyncStorage_clear, AsyncStorage, Date_now, Math_random, logger,
    try_catch, try_finally, modify, gets, throw, zoom, pop,
    mbind, M_bind, mret, M_ret in *.

(** Case analysis on the answers of [AsyncStorage], in the order in which
    the code consumes them. *)
Ltac answers s :=
  repeat (simpl;
          try match goal with
            | E : kv s !! _ = _ |- _ => rewrite E
            | E : outcomes s _ = _ |- _ => rewrite E
            | E : ∀ n, outcomes s n = _ |- _ => rewrite !E
            | |- context [outcomes s ?n] => destruct (outcomes s n) eqn:?
            end);
  rewrite ?lookup_insert_eq; simpl.

Lemma stored_queue_cases s q :
  stored_queue s = Some q →
  (∃ ts v, kv s !! SYNC_QUEUE =
             Some (Json {| st_data := PQueue q; st_timestamp := ts; st_version := v |})) ∨
  (q = [] ∧ (kv s !! SYNC_QUEUE = None ∨ kv s !! SYNC_QUEUE = Some Unparsable)).
Proof.
  unfold stored_queue.
  destruct (kv s !! SYNC_QUEUE) as [[[[]]|]|]; simpl; intros; simplify_eq; eauto.
Qed.

Lemma addToSyncQueue_stored operation s q :
  stored_queue s = Some q →
  let s' := exec (addToSyncQueue operation) s in
  stored_queue s' = Some q ∨
  ∃ syncOp, enqueued operation syncOp ∧
    (stored_queue s' = Some (Array_sort compareOperations (q ++ [syncOp])) ∨
     stored_queue s' = Some (Array_sort compareOperations [syncOp])).
Proof.
  intros H. pose proof H as H'.
  apply stored_queue_cases in H' as [(ts & v & Ek)|[-> [Ek|Ek]]];
    unfold stored_queue in *; unfold_store; answers s; eauto;
    right; eexists; (split; [|eauto]); by repeat split.
Qed.

Lemma removeFromSyncQueue_stored operationId s q :
  stored_queue s = Some q →
  let s' := exec (removeFromSyncQueue operationId) s in
  stored_queue s' = Some q ∨
  stored_queue s' = Some (filter (λ op, id op ≠ operationId) q) ∨
  stored_queue s' = Some [].
Proof.
  intros H. pose proof H as H'.
  apply stored_queue_cases in H' as [(ts & v & Ek)|[-> [Ek|Ek]]];
    unfold stored_queue in *; unfold_store; answers s; eauto.
Qed.

Lemma incrementRetryCount_stored operationId s q :
  stored_queue s = Some q →
  let s' := exec (incrementRetryCount operationId) s in
  stored_queue s' = Some q ∨
  ∃ q', find_and_increment operationId q = Some q' ∧ stored_queue s' = Some q'.
Proof.
  intros H. pose proof H as H'.
  apply stored_queue_cases in H' as [(ts & v & Ek)|[-> [Ek|Ek]]];
    unfold stored_queue in *; unfold_store; answers s; eauto.
  destruct (find_and_increment operationId q) eqn:Ef; answers s; eauto.
Qed.

Lemma getSyncQueue_result s q :
  stored_queue s = Some q →
  result getSyncQueue s = Normal (PQueue q) ∨ result getSyncQueue s = Normal (PQueue []).
Proof.
  intros H.
  apply stored_queue_cases in H as [(ts & v & Ek)|[-> [Ek|Ek]]];
    unfold_store; answers s; eauto.
Qed.

Lemma run_command_sorted c s q :
  stored_queue s = Some q → queue_sorted q →
  ∃ q', stored_queue (run_command c s) = Some q' ∧ queue_sorted q'.
Proof.
  intros Hq Hs. destruct c as [operation|operationId|operationId]; simpl.
  - destruct (addToSyncQueue_stored operation s q Hq) as [?|(syncOp & _ & [?|?])];
      eauto using Array_sort_sorted.
  - destruct (removeFromSyncQueue_stored operationId s q Hq) as [?|[?|?]]; eauto.
    + eexists; split; [done|]. by apply filter_sorted.
    + eexists; split; [done|]. constructor.
  - destruct (incrementRetryCount_stored operationId s q Hq) as [?|(q' & Hf & ?)]; eauto.
    eexists; split; [done|]. eapply sorted_keys; [|done].
    by eapply find_and_increment_keys.
Qed.

Lemma run_commands_sorted l s q :
  stored_queue s = Some q → queue_sorted q →
  ∃ q', stored_queue (run_commands l s) = Some q' ∧ queue_sorted q'.
Proof.
  revert s q. induction l as [|c l IH]; simpl; intros s q Hq Hs; [eauto|].
  destruct (run_command_sorted c s q Hq Hs) as (q1 & Hq1 & Hs1). eauto.
Qed.

(** ** The queue functions, step by step *)

Lemma removeFromSyncQueue_total operationId s :
  ∃ s', removeFromSyncQueue operationId s = (Normal tt, s').
Proof.
  unfold_store. answers s; eauto.
  all: destruct (kv s !! SYNC_QUEUE) as [[[[]]|]|] eqn:Ek; answers s; eauto.
Qed.

Lemma incrementRetryCount_total operationId s :
  ∃ s', incrementRetryCount operationId s = (Normal tt, s').
Proof.
  unfold_store. answers s; eauto.
  all: destruct (kv s !! SYNC_QUEUE) as [[[[]]|]|] eqn:Ek; answers s; eauto.
  all: destruct (find_and_increment operationId _); answers s; eauto.
Qed.

(** The two parts of [store], of [removeFromSyncQueue] and of
    [incrementRetryCount], one after the other, are the whole. *)
Lemma store_split key d version s :
  store key d version s = (item ← store_call d version; store_settle key item) s.
Proof. unfold_store. simpl. by destruct (outcomes s 0%nat). Qed.

Lemma removeFromSyncQueue_split operationId s :
  removeFromSyncQueue operationId s
  = (write ← removeFromSyncQueue_read operationId;
     match write with
     | Some item => removeFromSyncQueue_write operationId item
     | None => mret tt
     end) s.
Proof.
  unfold_store. answers s; try done.
  all: destruct (kv s !! SYNC_QUEUE) as [[[[]]|]|] eqn:Ek; by answers s.
Qed.

Lemma incrementRetryCount_split operationId s :
  incrementRetryCount operationId s
  = (write ← incrementRetryCount_read operationId;
     match write with
     | Some item => incrementRetryCount_write operationId item
     | None => mret tt
     end) s.
Proof.
  unfold_store. answers s; try done.
  all: destruct (kv s !! SYNC_QUEUE) as [[[[]]|]|] eqn:Ek; answers s; try done.
  all: destruct (find_and_increment operationId _); by answers s.
Qed.

Lemma removeFromSyncQueue_read_total operationId s :
  ∃ write s', removeFromSyncQueue_read operationId s = (Normal write, s').
Proof.
  unfold_store. answers s; eauto.
  all: destruct (kv s !! SYNC_QUEUE) as [[[[]]|]|] eqn:Ek; answers s; eauto.
Qed.

Lemma incrementRetryCount_read_total operationId s :
  ∃ write s', incrementRetryCount_read operationId s = (Normal write, s').
Proof.
  unfold_store. answers s; eauto.
  all: destruct (kv s !! SYNC_QUEUE) as [[[[]]|]|] eqn:Ek; answers s; eauto.
  all: destruct (find_and_increment operationId _); answers s; eauto.
Qed.

Lemma removeFromSyncQueue_write_total operationId item s :
  ∃ s', removeFromSyncQueue_write operationId item s = (Normal tt, s').
Proof. unfold_store. answers s; eauto. Qed.

Lemma incrementRetryCount_write_total operationId item s :
  ∃ s', incrementRetryCount_write operationId item s = (Normal tt, s').
Proof. unfold_store. answers s; eauto. Qed.

Lemma getSyncQueue_total s : ∃ queue s', getSyncQueue s = (Normal queue, s').
Proof.
  unfold_store. answers s; eauto.
  all: destruct (kv s !! SYNC_QUEUE) as [[[[]]|]|] eqn:Ek; answers s; eauto.
Qed.

Lemma getSyncQueue_loaded s q :
  outcomes s 0%nat = None → stored_queue s = Some q →
  ∃ s', getSyncQueue s = (Normal (PQueue q), s') ∧ kv s' = kv s ∧
        outcomes s' = λ n, outcomes s (S n).
Proof.
  intros Ho H.
  apply stored_queue_cases in H as [(ts & v & Ek)|[-> [Ek|Ek]]];
    unfold_store; answers s; eauto.
Qed.

Lemma getSyncQueue_reliable s q :
  reliable s → stored_queue s = Some q →
  ∃ s', getSyncQueue s = (Normal (PQueue q), s') ∧ reliable s' ∧
        stored_queue s' = Some q.
Proof.
  intros Hr H. destruct (getSyncQueue_loaded s q (Hr _) H) as (s' & E & Hk & Ho).
  exists s'. split; [done|]. split.
  - intros n. rewrite Ho. apply Hr.
  - unfold stored_queue in *. by rewrite Hk.
Qed.

Lemma incrementRetryCount_reliable operationId s q :
  reliable s → stored_queue s = Some q →
  ∃ s', incrementRetryCount operationId s = (Normal tt, s') ∧ reliable s' ∧
        stored_queue s' = Some (default q (find_and_increment operationId q)).
Proof.
  intros Hr H. pose proof H as H'. unfold reliable in *.
  apply stored_queue_cases in H' as [(ts & v & Ek)|[-> [Ek|Ek]]];
    unfold stored_queue in *; unfold_store; answers s.
  1: destruct (find_and_increment operationId q) eqn:Ef; answers s.
  all: eexists; split; [done|]; simpl; rewrite ?lookup_insert_eq, ?Ek; simpl; auto.
Qed.

Lemma removeFromSyncQueue_reliable operationId s q :
  reliable s → stored_queue s = Some q →
  ∃ s', removeFromSyncQueue operationId s = (Normal tt, s') ∧ reliable s' ∧
        stored_queue s' = Some (filter (λ op, id op ≠ operationId) q).
Proof.
  intros Hr H. pose proof H as H'. unfold reliable in *.
  apply stored_queue_cases in H' as [(ts & v & Ek)|[-> [Ek|Ek]]];
    unfold stored_queue in *; unfold_store; answers s.
  all: eexists; split; [done|]; simpl; rewrite ?lookup_insert_eq, ?Ek; simpl; auto.
Qed.

Lemma addToSyncQueue_reliable operation s q :
  reliable s → stored_queue s = Some q →
  ∃ s',
    addToSyncQueue operation s = (Normal (id (new_operation operation s)), s') ∧
    reliable s' ∧
    stored_queue s'
    = Some (Array_sort compareOperations (q ++ [new_operation operation s])).
Proof.
  intros Hr H. pose proof H as H'. unfold reliable in *.
  apply stored_queue_cases in H' as [(ts & v & Ek)|[-> [Ek|Ek]]];
    unfold stored_queue in *; unfold_store; answers s.
  all: eexists; split; [done|]; simpl; rewrite ?lookup_insert_eq, ?Ek;
    repeat split; auto.
Qed.

Lemma getFailedOperations_reliable s q :
  reliable s → stored_queue s = Some q →
  result getFailedOperations s
  = Normal (filter (λ op, (maxRetries op ≤ retries op)%nat) q).
Proof.
  intros Hr H. pose proof H as H'. unfold reliable in *.
  apply stored_queue_cases in H' as [(ts & v & Ek)|[-> [Ek|Ek]]];
    unfold stored_queue in *; unfold_store; by answers s.
Qed.

Lemma store_accepted key d version s :
  outcomes s 0%nat = None →
  ∃ s', store key d version s = (Normal tt, s') ∧
        kv s' = <[key := Json {| st_data := d; st_timestamp := clock s 0%nat;
                                 st_version := version |}]> (kv s) ∧
        outcomes s' = λ n, outcomes s (S n).
Proof. intros H. unfold_store. simpl. rewrite H. simpl. eauto. Qed.

Lemma store_rejected key d version s e :
  outcomes s 0%nat = Some e →
  ∃ s', store key d version s = (Throw e, s') ∧ kv s' = kv s ∧
        outcomes s' = λ n, outcomes s (S n).
Proof. intros H. unfold_store. simpl. rewrite H. simpl. eauto. Qed.

(** The write of the queue is the second call [addToSyncQueue] makes to the
    key-value store. *)
Lemma addToSyncQueue_rejected operation s q e :
  stored_queue s = Some q → outcomes s 1%nat = Some e →
  ∃ s', addToSyncQueue operation s = (Throw e, s') ∧ kv s' = kv s ∧
        outcomes s' = λ n, outcomes s (S (S n)).
Proof.
  intros H Ho. pose proof H as H'.
  apply stored_queue_cases in H' as [(ts & v & Ek)|[-> [Ek|Ek]]];
    unfold stored_queue in *; unfold_store; answers s; eauto.
Qed.

Lemma find_and_increment_absent operationId q :
  operationId ∉ id <$> q → find_and_increment operationId q = None.
Proof.
  induction q as [|op q IH]; simpl; [done|].
  rewrite not_elem_of_cons. intros [Hne Hq].
  rewrite decide_False by done. by rewrite IH.
Qed.

Lemma find_and_increment_insert operationId q i op :
  list_find (λ o, id o = operationId) q = Some (i, op) →
  find_and_increment operationId q = Some (<[i := increment op]> q).
Proof.
  revert i. induction q as [|o q IH]; intros i; simpl; [done|].
  destruct (decide (id o = operationId)) as [Ho|Ho].
  - by intros [= <- <-].
  - destruct (list_find _ q) as [[j x]|] eqn:Ef; simpl; [|done].
    intros [= <- <-]. by rewrite (IH j eq_refl).
Qed.

(** C1.  Whatever enqueues, removals and retry increments are made from an
    empty queue, and whatever the store answers meanwhile, the queue that
    [getSyncQueue] returns is sorted: by priority rank, high before medium
    before low, and by ascending timestamp among equal priorities.

    When the store answers every call, an enqueue makes the operation of
    its input, with a new id, the time of the clock and no retry, appends it
    to the queue it has read and stores the whole, sorted again: a sorted
    permutation of the old queue and the new operation.  A removal stores
    the queue without the operations of that id, the others in their order;
    a retry increment stores the queue with the first operation of that id
    changed in its retry count only, every operation at its place.

    Whatever the store answers, an enqueue leaves the stored queue as it
    was or stores the queue it has read, with an operation of its input
    appended, sorted as a whole; a removal leaves a sublist of the stored
    queue, and a retry increment leaves every operation at its place with
    its id, priority and timestamp. *)
Theorem sync_queue_sorted (commands : list QueueCommand) (s : Storage) :
  kv s !! SYNC_QUEUE = None →
  (∃ q, result getSyncQueue (run_commands commands s) = Normal (PQueue q) ∧
        queue_sorted q) ∧
  (∀ operation s q, reliable s → stored_queue s = Some q →
     let syncOp := new_operation operation s in
     result (addToSyncQueue operation) s = Normal (id syncOp) ∧
     stored_queue (exec (addToSyncQueue operation) s)
     = Some (Array_sort compareOperations (q ++ [syncOp])) ∧
     Array_sort compareOperations (q ++ [syncOp]) ≡ₚ q ++ [syncOp] ∧
     queue_sorted (Array_sort compareOperations (q ++ [syncOp]))) ∧
  (∀ operationId s q, reliable s → stored_queue s = Some q →
     stored_queue (exec (removeFromSyncQueue operationId) s)
     = Some (filter (λ op, id op ≠ operationId) q)) ∧
  (∀ operationId s q, reliable s → stored_queue s = Some q →
     (operationId ∉ id <$> q →
      stored_queue (exec (incrementRetryCount operationId) s) = Some q) ∧
     (∀ i op, list_find (λ o, id o = operationId) q = Some (i, op) →
        stored_queue (exec (incrementRetryCount operationId) s)
        = Some (<[i := increment op]> q) ∧
        sort_key (increment op) = sort_key op)) ∧
  (∀ operation s q, stored_queue s = Some q →
     stored_queue (exec (addToSyncQueue operation) s) = Some q ∨
     ∃ syncOp read, enqueued operation syncOp ∧ (read = q ∨ read = []) ∧
       stored_queue (exec (addToSyncQueue operation) s)
       = Some (Array_sort compareOperations (read ++ [syncOp]))) ∧
  (∀ operationId s q, stored_queue s = Some q →
     ∃ q', stored_queue (exec (removeFromSyncQueue operationId) s) = Some q' ∧
           sublist q' q) ∧
  (∀ operationId s q, stored_queue s = Some q →
     ∃ q', stored_queue (exec (incrementRetryCount operationId) s) = Some q' ∧
           sort_key <$> q' = sort_key <$> q).
Proof.
  intros Hempty. split; [|split; [|split; [|split; [|split; [|split]]]]].
  - assert (stored_queue s = Some []) as H0 by (unfold stored_queue; by rewrite Hempty).
    destruct (run_commands_sorted commands s [] H0) as (q & Hq & Hs); [constructor|].
    destruct (getSyncQueue_result _ _ Hq); eauto.
    eexists; split; [done|constructor].
  - intros operation s0 q Hr Hq syncOp.
    destruct (addToSyncQueue_reliable operation s0 q Hr Hq) as (s1 & E & _ & Hq1).
    unfold exec, result. rewrite E. simpl. split; [done|]. split; [done|].
    split; [apply Array_sort_perm|apply Array_sort_sorted].
  - intros operationId s0 q Hr Hq.
    destruct (removeFromSyncQueue_reliable operationId s0 q Hr Hq) as (s1 & E & _ & Hq1).
    unfold exec. by rewrite E.
  - intros operationId s0 q Hr Hq.
    destruct (incrementRetryCount_reliable operationId s0 q Hr Hq) as (s1 & E & _ & Hq1).
    unfold exec. rewrite E. simpl. rewrite Hq1. split.
    + intros Habs. by rewrite find_and_increment_absent.
    + intros i op Hf. by rewrite (find_and_increment_insert _ _ _ _ Hf).
  - intros operation s0 q Hq.
    destruct (addToSyncQueue_stored operation s0 q Hq) as [?|(syncOp & ? & [?|?])];
      [by left|right..]; exists syncOp; [exists q|exists []]; eauto.
  - intros operationId s0 q Hq.
    destruct (removeFromSyncQueue_stored operationId s0 q Hq) as [?|[?|?]];
      eexists; (split; [done|]).
    + done.
    + apply sublist_filter.
    + apply sublist_nil_l.
  - intros operationId s0 q Hq.
    destruct (incrementRetryCount_stored operationId s0 q Hq) as [?|(q' & Hf & ?)];
      eauto using find_and_increment_keys.
Qed.

Lemma sync_queue_sorted_witness :
  ∃ q, result getSyncQueue (run_commands mixed_commands empty_store)
       = Normal (PQueue q) ∧ queue_sorted q ∧
       summary <$> q = [("/courses/42", high, 0%nat); ("/notes/42", medium, 0%nat);
                        ("/progress/42", low, 1%nat)].
Proof.
  destruct (sync_queue_sorted mixed_commands empty_store) as [(q & Hq & Hs) _].
  - reflexivity.
  - exists q. split; [exact Hq|]. split; [exact Hs|].
    vm_compute in Hq. injection Hq as <-. reflexivity.
Defined.

Example queue_after_two_enqueues :
  fmap (M := list) summary
    <$> stored_queue (run_commands [Enqueue read_progress; Enqueue create_course]
                        empty_store)
  = Some [("/courses/42", high, 0%nat); ("/progress/42", low, 0%nat)].
Proof. vm_compute. reflexivity. Qed.

Example queue_after_example_commands :
  fmap (M := list) summary
    <$> stored_queue (run_commands example_commands empty_store)
  = Some [("/progress/42", low, 1%nat)].
Proof. vm_compute. reflexivity. Qed.

End OfflineStorageFacts.

Module StoreCleanupFacts.
Import OfflineStorage QueueSpec OfflineStorageFacts.

(** C6, as stated, fails: when the key-value store rejects the call,
    [remove] and [clearAll] throw what it rejected with. *)
Lemma remove_clearAll_throw :
  result (remove "courses") rejecting_store = Throw (JsError "disk full") ∧
  result clearAll rejecting_store = Throw (JsError "disk full").
Proof. split; reflexivity. Qed.

(** C6, amended.  When the key-value store rejects the call with [e],
    [remove key] and [clearAll] log the failure and throw [e] again. *)
Theorem remove_clearAll_rethrow (key : string) (s : Storage) (e : Thrown) :
  outcomes s 0%nat = Some e →
  (result (remove key) s = Throw e ∧
   log (exec (remove key) s)
   = log s ++ [{| level := Error;
                  text := "Error removing data for key " +:+ key +:+ ":";
                  detail := Some e |}]) ∧
  (result clearAll s = Throw e ∧
   log (exec clearAll s)
   = log s ++ [{| level := Error;
                  text := "Error clearing local storage:";
                  detail := Some e |}]).
Proof.
  intros H. unfold_store. simpl. rewrite H. simpl. by repeat split.
Qed.

Lemma remove_clearAll_rethrow_witness :
  (result (remove "courses") rejecting_store = Throw (JsError "disk full") ∧
   log (exec (remove "courses") rejecting_store)
   = log rejecting_store ++
       [{| level := Error;
           text := "Error removing data for key " +:+ "courses" +:+ ":";
           detail := Some (JsError "disk full") |}]) ∧
  (result clearAll rejecting_store = Throw (JsError "disk full") ∧
   log (exec clearAll rejecting_store)
   = log rejecting_store ++
       [{| level := Error;
           text := "Error clearing local storage:";
           detail := Some (JsError "disk full") |}]).
Proof.
  apply (remove_clearAll_rethrow "courses" rejecting_store (JsError "disk full")).
  reflexivity.
Defined.

(** When the key-value store accepts the call, both complete normally. *)
Lemma remove_clearAll_accepted (key : string) (s : Storage) :
  outcomes s 0%nat = None →
  (result (remove key) s = Normal tt ∧ kv (exec (remove key) s) = delete key (kv s)) ∧
  (result clearAll s = Normal tt ∧ kv (exec clearAll s) = ∅).
Proof.
  intros H. unfold_store. simpl. rewrite H. simpl. by repeat split.
Qed.

End StoreCleanupFacts.

(* ===================================================================== *)
(** * Properties of the sync driver *)
(* ===================================================================== *)

Module SyncServiceFacts.
Import OfflineStorage SyncService QueueSpec DriverSpec OfflineStorageFacts.

#[local] Arguments addToSyncQueue : simpl never.
#[local] Arguments removeFromSyncQueue : simpl never.
#[local] Arguments incrementRetryCount : simpl never.
#[local] Arguments getSyncQueue : simpl never.
#[local] Arguments getFailedOperations : simpl never.

(** The small steps of the driver are unfolded; the calls to the store are
    left for the lemmas about the store. *)
Ltac unfold_service :=
  unfold retryOperation, processOperation, processOperation_dispatch,
    processOperation_settle, handlePermanentFailure, apiService_call,
    apiService_settle, setTimeout_retryOperation, emitEvent, checkConnectivity,
    Network_getNetworkStateAsync, resolveConflicts,
    syncPendingOperations_finally, syncPendingOperations_catch,
    SyncService.logger, SyncService.Date_now, offlineStorage,
    OfflineStorage.logger, OfflineStorage.Date_now, array_receiver,
    try_catch, try_finally, modify, gets, throw, zoom, pop, exec, result,
    mbind, M_bind, mret, M_ret in *;
  simpl.

(** A failed dispatch, when the retry count of the operation allows a
    retry. *)
Lemma processOperation_retry s operation e :
  responses s 0%nat = Throw e →
  (retries operation < maxRetries operation)%nat →
  ∃ s', processOperation operation s = (Normal tt, s') ∧
    config s' = config s ∧
    responses s' = (λ n, responses s (S n)) ∧
    requests s' = requests s ++ [request_of operation] ∧
    timers s' = timers s ++
      [(calculateRetryDelay (config s) (retries operation), id operation)] ∧
    (∀ q, reliable (storage s) → stored_queue (storage s) = Some q →
          reliable (storage s') ∧
          stored_queue (storage s')
          = Some (default q (find_and_increment (id operation) q))).
Proof.
  intros Hr Hlt. unfold request_of. unfold_service.
  destruct (type operation); simpl; rewrite Hr; simpl;
    (destruct (decide _); [|lia]); simpl.
  all: match goal with |- context [incrementRetryCount ?i ?st] =>
    pose proof (incrementRetryCount_total i st) as [st1 E1];
    pose proof (incrementRetryCount_reliable i st) as R1;
    rewrite E1 in *; simpl in *
  end.
  all: eexists; (split; [reflexivity|]); simpl; repeat split.
  all: intros; destruct (R1 q) as (st2 & [= <-] & ? & ?); done.
Qed.

(** A failed dispatch, when the retry count of the operation has reached
    its ceiling. *)
Lemma processOperation_exhausted s operation e :
  responses s 0%nat = Throw e →
  (maxRetries operation ≤ retries operation)%nat →
  ∃ s', processOperation operation s = (Normal tt, s') ∧
    config s' = config s ∧
    responses s' = (λ n, responses s (S n)) ∧
    requests s' = requests s ++ [request_of operation] ∧
    timers s' = timers s ∧
    kv (storage s') = kv (storage s) ∧
    outcomes (storage s') = outcomes (storage s).
Proof.
  intros Hr Hlt. unfold request_of. unfold_service.
  destruct (type operation); simpl; rewrite Hr; simpl;
    (destruct (decide _); [lia|]); simpl.
  all: destruct e as [?|[]]; simpl.
  all: eexists; (split; [reflexivity|]); simpl; by repeat split.
Qed.

(** ** Retries *)

Lemma find_and_increment_found operationId q i op :
  list_find (λ o, id o = operationId) q = Some (i, op) →
  ∃ q', find_and_increment operationId q = Some q' ∧
        list_find (λ o, id o = operationId) q' = Some (i, increment op).
Proof.
  revert i. induction q as [|o q IH]; intros i; simpl; [done|].
  destruct (decide (id o = operationId)) as [Ho|Ho].
  - intros [= <- <-]. eexists; split; [done|]. simpl.
    by rewrite decide_True.
  - destruct (list_find _ q) as [[j x]|] eqn:Ef; simpl; [|done].
    intros [= <- <-]. destruct (IH j eq_refl) as (q' & -> & Hf).
    eexists; split; [done|]. simpl. rewrite decide_False by done.
    by rewrite Hf.
Qed.

Lemma list_find_fresh (op : SyncOperation) q0 q1 :
  q1 ≡ₚ q0 ++ [op] → id op ∉ id <$> q0 →
  ∃ i, list_find (λ o, id o = id op) q1 = Some (i, op).
Proof.
  intros Hp Hfresh.
  assert (op ∈ q1) as Hin by (rewrite Hp; set_solver).
  destruct (list_find_elem_of (λ o, id o = id op) q1 op Hin eq_refl) as [[i x] Hf].
  exists i. rewrite Hf. apply list_find_Some in Hf as (Hx & Hid & _).
  apply list_elem_of_lookup_2 in Hx. rewrite Hp in Hx.
  apply elem_of_app in Hx as [Hx|Hx].
  - destruct Hfresh. rewrite <- Hid. by apply list_elem_of_fmap_2.
  - apply list_elem_of_singleton in Hx. by subst.
Qed.

Lemma retryOperation_tracked operationId count s :
  tracked operationId count s →
  let s' := exec (retryOperation operationId) s in
  config s' = config s ∧
  if decide (count < MAX_RETRIES)%nat then
    tracked operationId (S count) s' ∧
    timers s' = timers s ++ [(calculateRetryDelay (config s) count, operationId)]
  else
    tracked operationId count s' ∧ timers s' = timers s ∧
    stored_queue (storage s') = stored_queue (storage s).
Proof.
  intros [Hrel Hfail (q & i & op & Hq & Hf & Hc & Hm)].
  destruct (getSyncQueue_reliable _ _ Hrel Hq) as (st1 & E1 & Hrel1 & Hq1).
  destruct (Hfail 0%nat) as [e He].
  assert (id op = operationId) as Hid.
  { by apply list_find_Some in Hf as (_ & ? & _). }
  unfold retryOperation, exec, offlineStorage, zoom, mbind, M_bind. simpl.
  rewrite E1. simpl. rewrite Hf.
  match goal with |- context [processOperation op ?x] => set (s1 := x) end.
  destruct (decide (count < MAX_RETRIES)%nat) as [Hlt|Hge].
  - destruct (processOperation_retry s1 op e He) as (s' & -> & Hcfg & Hresp & _ & Ht & Hst);
      [lia|].
    simpl. split; [done|]. rewrite Ht, Hc, Hid. split; [|done].
    destruct (Hst q Hrel1 Hq1) as [Hrel' Hq'].
    destruct (find_and_increment_found _ _ _ _ Hf) as (q' & Hq'' & Hf').
    rewrite Hid, Hq'' in Hq'. simpl in Hq'.
    split; [done| |].
    + intros n. rewrite Hresp. apply Hfail.
    + exists q', i, (increment op). simpl. by rewrite Hc.
  - destruct (processOperation_exhausted s1 op e He) as
      (s' & -> & Hcfg & Hresp & _ & Ht & Hkv & Hout); [lia|].
    simpl. split; [done|].
    assert (stored_queue (storage s') = Some q) as Hq'.
    { unfold stored_queue in *. by rewrite Hkv. }
    split; [|by rewrite Hq'].
    split.
    + intros n. rewrite Hout. apply Hrel1.
    + intros n. rewrite Hresp. apply Hfail.
    + by exists q, i, op.
Qed.

Lemma enqueue_tracked operation s q0 :
  reliable (storage s) → failing s → stored_queue (storage s) = Some q0 →
  id (new_operation operation (storage s)) ∉ id <$> q0 →
  let s1 := exec (offlineStorage (addToSyncQueue operation)) s in
  result (offlineStorage (addToSyncQueue operation)) s
  = Normal (id (new_operation operation (storage s))) ∧
  config s1 = config s ∧ timers s1 = timers s ∧
  tracked (id (new_operation operation (storage s))) 0 s1.
Proof.
  intros Hrel Hfail Hq Hfresh.
  destruct (addToSyncQueue_reliable operation _ _ Hrel Hq) as (st1 & E1 & Hrel1 & Hq1).
  unfold exec, result, offlineStorage, zoom. rewrite E1. simpl.
  repeat split; try done.
  destruct (list_find_fresh (new_operation operation (storage s)) q0 _
              (Array_sort_perm compareOperations _) Hfresh) as [i Hi].
  eexists _, i, _. split; [exact Hq1|]. split; [exact Hi|done].
Qed.

Lemma retries_tracked operationId n s :
  tracked operationId 0 s →
  let s' := Nat.iter n (exec (retryOperation operationId)) s in
  config s' = config s ∧ tracked operationId (n `min` MAX_RETRIES) s'.
Proof.
  intros Ht. induction n as [|n IH]; [done|].
  destruct IH as [Hcfg IH].
  pose proof (retryOperation_tracked _ _ _ IH) as [Hcfg' Hstep].
  change (Nat.iter (S n) ?f ?x) with (f (Nat.iter n f x)).
  split; [congruence|].
  destruct (decide _) as [Hlt|Hge]; destruct Hstep as [Hstep _].
  - replace (S n `min` MAX_RETRIES)%nat with (S (n `min` MAX_RETRIES)); [done|].
    unfold MAX_RETRIES in *. lia.
  - replace (S n `min` MAX_RETRIES)%nat with (n `min` MAX_RETRIES)%nat; [done|].
    unfold MAX_RETRIES in *. lia.
Qed.

(** Retries that follow one another stop at the ceiling.  An operation is
    enqueued (its [maxRetries] is 3) and every call to the API is rejected,
    the store answering every call.  After [n] failed runs of
    [retryOperation] the operation is still in the queue with
    [retries = min n 3]: from the third failure on it is among the failed
    operations, its retry count stays 3 and a further failure sets no
    timer. *)
Lemma retries_in_turn (operation : SyncOperationInput) (s : Service)
    (q0 : list SyncOperation) (n : nat) :
  reliable (storage s) → failing s → stored_queue (storage s) = Some q0 →
  id (new_operation operation (storage s)) ∉ id <$> q0 →
  let operationId := id (new_operation operation (storage s)) in
  let s1 := exec (offlineStorage (addToSyncQueue operation)) s in
  let sn := Nat.iter n (exec (retryOperation operationId)) s1 in
  ∃ q i op,
    stored_queue (storage sn) = Some q ∧
    list_find (λ o, id o = operationId) q = Some (i, op) ∧
    maxRetries op = 3%nat ∧
    retries op = (n `min` 3)%nat ∧
    ((3 ≤ n)%nat →
     (∃ failed, result getFailedOperations (storage sn) = Normal failed ∧
                op ∈ failed) ∧
     timers (exec (retryOperation operationId) sn) = timers sn ∧
     stored_queue (storage (exec (retryOperation operationId) sn)) = Some q).
Proof.
  intros Hrel Hfail Hq Hfresh operationId s1 sn.
  destruct (enqueue_tracked operation s q0 Hrel Hfail Hq Hfresh) as (_ & _ & _ & Ht).
  destruct (retries_tracked operationId n s1 Ht) as [_ Hn]. fold sn in Hn.
  pose proof Hn as [Hreln Hfailn (q & i & op & Hqn & Hf & Hc & Hm)].
  exists q, i, op. repeat split; try done.
  - exists (filter (λ o, (maxRetries o ≤ retries o)%nat) q).
    split; [by apply getFailedOperations_reliable|].
    apply list_elem_of_filter. split.
    + rewrite Hc, Hm. unfold MAX_RETRIES. lia.
    + apply list_find_Some in Hf as (Hi & _). by eapply list_elem_of_lookup_2.
  - pose proof (retryOperation_tracked _ _ _ Hn) as [_ Hstep].
    destruct (decide _) as [Hlt|_]; [unfold MAX_RETRIES in Hlt; lia|].
    by destruct Hstep as (_ & ? & _).
  - pose proof (retryOperation_tracked _ _ _ Hn) as [_ Hstep].
    destruct (decide _) as [Hlt|_]; [unfold MAX_RETRIES in Hlt; lia|].
    destruct Hstep as (_ & _ & Hsame). by rewrite Hsame.
Qed.

(** C4.  When the dispatch of an operation fails and its retry count [k] is
    below its ceiling, the timer set for the retry has the delay
    [retryDelay * 2 ^ k]; with the default base of 5000 ms the delays for
    [k = 0, 1, 2] are 5000, 10000 and 20000. *)
Theorem retry_delay (s : Service) (operation : SyncOperation) (e : Thrown) :
  responses s 0%nat = Throw e →
  (retries operation < maxRetries operation)%nat →
  timers (exec (processOperation operation) s)
  = timers s ++ [(retryDelay (config s) * 2 ^ Z.of_nat (retries operation),
                  id operation)] ∧
  calculateRetryDelay default_config <$> [0; 1; 2]%nat = [5000; 10000; 20000].
Proof.
  intros Hr Hlt.
  destruct (processOperation_retry s operation e Hr Hlt) as (s' & E & _ & _ & _ & Ht & _).
  unfold exec. rewrite E. simpl. by rewrite Ht.
Qed.

Example retries_in_turn_example :
  ∃ q i op,
    stored_queue
      (storage
         (Nat.iter 4
            (exec (retryOperation (id (new_operation create_course (storage api_down)))))
            (exec (offlineStorage (addToSyncQueue create_course)) api_down)))
    = Some q ∧
    list_find (λ o, id o = id (new_operation create_course (storage api_down))) q
    = Some (i, op) ∧
    maxRetries op = 3%nat ∧ retries op = 3%nat.
Proof.
  destruct (retries_in_turn create_course api_down [] 4) as (q & i & op & Hq & Hf & Hm & Hr & _).
  - intros n. reflexivity.
  - intros n. eexists. reflexivity.
  - reflexivity.
  - simpl. apply not_elem_of_nil.
  - exists q, i, op. repeat split; assumption.
Qed.

Lemma retry_delay_witness :
  timers (exec (processOperation course_42) api_down)
  = timers api_down ++ [(5000 * 2 ^ 0, id course_42)].
Proof.
  destruct (retry_delay api_down course_42 (JsError "Network Error")) as [H _].
  - reflexivity.
  - simpl. lia.
  - exact H.
Defined.

End SyncServiceFacts.

Module SyncPassFacts.
Import OfflineStorage SyncService QueueSpec DriverSpec OfflineStorageFacts SyncServiceFacts.

#[local] Arguments addToSyncQueue : simpl never.
#[local] Arguments removeFromSyncQueue : simpl never.
#[local] Arguments incrementRetryCount : simpl never.
#[local] Arguments getSyncQueue : simpl never.
#[local] Arguments removeFromSyncQueue_read : simpl never.
#[local] Arguments removeFromSyncQueue_write : simpl never.
#[local] Arguments incrementRetryCount_read : simpl never.
#[local] Arguments incrementRetryCount_write : simpl never.
#[local] Arguments processOperation_settle : simpl never.
#[local] Arguments processOperation_dispatch : simpl never.
#[local] Arguments processOperation_end : simpl never.
#[local] Arguments task_step : simpl never.

(** ** Batches *)

Lemma createBatches_loop_spec {A} (array : list A) (b : nat) fuel i acc :
  (0 < b)%nat → (length array - i ≤ fuel)%nat →
  ∃ rest,
    createBatches_loop fuel i array b acc = Some (acc ++ rest) ∧
    concat rest = drop i array ∧
    ∀ j batch, rest !! j = Some batch →
               batch = take b (drop (i + j * b) array) ∧ batch ≠ [].
Proof.
  intros Hb. revert i acc. induction fuel as [|fuel IH]; intros i acc Hfuel; simpl.
  - destruct (Nat.ltb_spec i (length array)); [lia|].
    exists []. rewrite app_nil_r, drop_ge by lia. by split.
  - destruct (Nat.ltb_spec i (length array)) as [Hlt|Hge].
    + destruct (IH (i + b)%nat (acc ++ [slice i (i + b) array])) as (rest & -> & Hc & Hr);
        [lia|].
      assert (slice i (i + b) array = take b (drop i array)) as Hs.
      { unfold slice. f_equal. lia. }
      exists (slice i (i + b) array :: rest). rewrite <- app_assoc. split; [done|].
      split.
      * simpl. rewrite Hc, Hs, <- drop_drop. apply take_drop.
      * intros [|j] batch; simpl.
        -- intros [= <-]. rewrite Nat.add_0_r. split; [done|].
           rewrite Hs. intros Hnil. apply (f_equal length) in Hnil.
           rewrite length_take, length_drop in Hnil. simpl in Hnil. lia.
        -- intros Hj. destruct (Hr j batch Hj) as [-> Hne]. split; [|done].
           do 2 f_equal. lia.
    + exists []. rewrite app_nil_r, drop_ge by lia. by split.
Qed.

Lemma createBatches_spec {A} (array : list A) (b : nat) :
  (0 < b)%nat →
  ∃ batches,
    createBatches array b = Some batches ∧
    concat batches = array ∧
    ∀ j batch, batches !! j = Some batch →
               batch = take b (drop (j * b) array) ∧ batch ≠ [].
Proof.
  intros Hb.
  destruct (createBatches_loop_spec array b (length array) 0 [] Hb) as (rest & E & Hc & Hr);
    [lia|].
  exists rest. split; [exact E|]. split; [by rewrite Hc|]. exact Hr.
Qed.

Example createBatches_of_seven :
  createBatches [1; 2; 3; 4; 5; 6; 7] 3 = Some [[1; 2; 3]; [4; 5; 6]; [7]] ∧
  createBatches [1; 2; 3] 0 = None.
Proof. split; reflexivity. Qed.

(** ** What a pass sends *)

Lemma processOperation_dispatch_frame operation s :
  ∃ s', processOperation_dispatch operation s = (Normal tt, s') ∧
        requests s' = requests s ++ [request_of operation] ∧
        config s' = config s ∧ isSyncing s' = isSyncing s ∧
        events s' = events s ∧ timers s' = timers s ∧
        responses s' = responses s ∧
        kv (storage s') = kv (storage s) ∧
        outcomes (storage s') = outcomes (storage s).
Proof.
  unfold processOperation_dispatch, request_of. unfold_service.
  destruct (type operation); simpl; eexists; (split; [reflexivity|]); simpl;
    by repeat split.
Qed.

Lemma for_each_dispatch_frame l s :
  ∃ s', for_each processOperation_dispatch l s = (Normal tt, s') ∧
        requests s' = requests s ++ (request_of <$> l) ∧
        config s' = config s ∧ isSyncing s' = isSyncing s ∧
        events s' = events s ∧ timers s' = timers s ∧
        responses s' = responses s ∧
        kv (storage s') = kv (storage s) ∧
        outcomes (storage s') = outcomes (storage s).
Proof.
  revert s. induction l as [|op l IH]; intros s; simpl.
  - eexists; split; [done|]. rewrite app_nil_r. by repeat split.
  - unfold mbind, M_bind.
    destruct (processOperation_dispatch_frame op s)
      as (s1 & -> & Hq & Hc & Hf & He & Ht & Hr & Hk & Ho).
    destruct (IH s1) as (s2 & -> & Hq2 & Hc2 & Hf2 & He2 & Ht2 & Hr2 & Hk2 & Ho2).
    eexists; split; [done|]. rewrite Hq2, Hq, <- app_assoc.
    repeat split; congruence.
Qed.

Lemma processBatch_dispatch_run batch s :
  ∃ s', processBatch_dispatch batch s = (Normal tt, s') ∧
        requests s' = requests s ++ (request_of <$> selected (config s) batch) ∧
        config s' = config s ∧ isSyncing s' = isSyncing s ∧
        events s' = events s ∧ timers s' = timers s ∧
        responses s' = responses s ∧
        kv (storage s') = kv (storage s) ∧
        outcomes (storage s') = outcomes (storage s).
Proof.
  unfold processBatch_dispatch, gets, mbind, M_bind. apply for_each_dispatch_frame.
Qed.

(** ** The tasks of a batch *)

Lemma processOperation_end_run operation answer s :
  ∃ s' event, processOperation_end operation answer s = (Normal tt, s') ∧
    requests s' = requests s ∧ config s' = config s ∧
    isSyncing s' = isSyncing s ∧
    events s' = events s ++ [event] ∧
    ev_operationId event = Some (id operation).
Proof.
  unfold processOperation_end. destruct answer as [d|e]; unfold_service;
    eexists _, _; (split; [reflexivity|]); simpl; by repeat split.
Qed.

(** A task that goes on does not throw and sends nothing; it emits the
    event of its operation when it finishes, and no other; it has fewer
    turns before it than it had. *)
Lemma task_step_run task s :
  ∃ task' s' new, task_step task s = (Normal task', s') ∧
    requests s' = requests s ∧ config s' = config s ∧
    isSyncing s' = isSyncing s ∧
    events s' = events s ++ new ∧
    event_ids new ++ waiting task' = waiting task ∧
    (rank task' ≤ pred (rank task))%nat.
Proof.
  destruct task as [operation|operation answer|operation answer item|];
    unfold task_step.
  - unfold settled, apiService_settle, pop, mbind, M_bind. simpl.
    destruct (responses s 0%nat) as [d|e]; simpl.
    { eexists _, _, []. split; [reflexivity|]. simpl. rewrite app_nil_r.
      repeat split; try done; try (simpl; lia). }
    unfold_service. destruct (decide _); simpl.
    { eexists _, _, []. split; [reflexivity|]. simpl. rewrite app_nil_r.
      repeat split; try done; try (simpl; lia). }
    destruct e as [?|[]]; simpl.
    all: eexists _, _, [_]; (split; [reflexivity|]); simpl.
    all: repeat split; try done; try (simpl; lia).
  - unfold mbind, M_bind, offlineStorage, zoom.
    assert (∃ write st',
              match answer with
              | Normal _ => removeFromSyncQueue_read (id operation)
              | Throw _ => incrementRetryCount_read (id operation)
              end (storage s) = (Normal write, st')) as (write & st' & ->).
    { destruct answer; [apply removeFromSyncQueue_read_total
                       |apply incrementRetryCount_read_total]. }
    destruct write as [item|]; simpl.
    + eexists _, _, []. split; [reflexivity|]. simpl. rewrite app_nil_r.
      repeat split; try done; try (simpl; lia).
    + destruct (processOperation_end_run operation answer (set_storage st' s))
        as (s' & event & -> & Hq & Hc & Hf & He & Hid).
      simpl. eexists _, _, [event]. split; [reflexivity|].
      simpl. unfold event_ids. simpl. rewrite Hid. simpl.
      repeat split; try done; try (simpl; lia).
  - unfold mbind, M_bind, offlineStorage, zoom.
    assert (∃ st',
              match answer with
              | Normal _ => removeFromSyncQueue_write (id operation) item
              | Throw _ => incrementRetryCount_write (id operation) item
              end (storage s) = (Normal tt, st')) as (st' & ->).
    { destruct answer; [apply removeFromSyncQueue_write_total
                       |apply incrementRetryCount_write_total]. }
    destruct (processOperation_end_run operation answer (set_storage st' s))
      as (s' & event & -> & Hq & Hc & Hf & He & Hid).
    simpl. eexists _, _, [event]. split; [reflexivity|].
    simpl. unfold event_ids. simpl. rewrite Hid. simpl.
    repeat split; try done; try (simpl; lia).
  - eexists _, _, []. split; [reflexivity|]. simpl. rewrite app_nil_r.
    by repeat split.
Qed.

(** One operation on its own: the three turns of its task are what
    [processOperation] does once its request has left. *)
Lemma task_alone operation s :
  processOperation_settle operation s
  = (task1 ← task_step (AwaitApi operation);
     task2 ← task_step task1;
     task_step task2;;
     mret tt) s.
Proof.
  unfold processOperation_settle, task_step, processOperation_end, settled,
    try_catch, mbind, M_bind, offlineStorage, zoom.
  destruct (apiService_settle s) as [[d|e] s1]; simpl.
  - rewrite removeFromSyncQueue_split. unfold mbind, M_bind.
    destruct (removeFromSyncQueue_read_total (id operation) (storage s1))
      as (write & st' & ->).
    destruct write as [item|]; simpl.
    + destruct (removeFromSyncQueue_write_total (id operation) item st') as (st'' & ->).
      simpl. unfold_service. done.
    + unfold_service. done.
  - unfold_service. destruct (decide _); simpl.
    + rewrite incrementRetryCount_split. unfold mbind, M_bind.
      match goal with |- context [incrementRetryCount_read ?i ?st] =>
        destruct (incrementRetryCount_read_total i st) as (write & st' & ->)
      end.
      destruct write as [item|]; simpl.
      * match goal with |- context [incrementRetryCount_write ?i ?it ?st] =>
          destruct (incrementRetryCount_write_total i it st) as (st'' & ->)
        end.
        done.
      * done.
    + destruct e as [?|[]]; done.
Qed.

Lemma unsettled_spec tasks i :
  i ∈ unsettled tasks ↔ ∃ task, tasks !! i = Some task ∧ finished task = false.
Proof.
  unfold unsettled. rewrite list_elem_of_filter, elem_of_seq. split.
  - intros [Hf Hi]. destruct (lookup_lt_is_Some_2 tasks i) as [task Ht]; [lia|].
    exists task. rewrite Ht in Hf. done.
  - intros (task & Ht & Hf). rewrite Ht. split; [done|].
    apply lookup_lt_Some in Ht. lia.
Qed.

Lemma unsettled_nil tasks : unsettled tasks = [] → concat (waiting <$> tasks) = [].
Proof.
  intros Hnil.
  assert (∀ i task, tasks !! i = Some task → task = Finished) as Hall.
  { intros i task Ht. destruct (finished task) eqn:Hf; [by destruct task|].
    assert (i ∈ unsettled tasks) as Hin by (apply unsettled_spec; eauto).
    rewrite Hnil in Hin. by apply not_elem_of_nil in Hin. }
  clear Hnil. induction tasks as [|task tasks IH]; [done|].
  rewrite fmap_cons, concat_cons, (Hall 0%nat task eq_refl). simpl.
  apply IH. intros i. apply (Hall (S i)).
Qed.

Lemma ranks_app l1 l2 :
  sum_list (rank <$> (l1 ++ l2)) = (sum_list (rank <$> l1) + sum_list (rank <$> l2))%nat.
Proof.
  rewrite fmap_app. induction (rank <$> l1) as [|n l IH]; simpl; [done|].
  rewrite IH. lia.
Qed.

Lemma waiting_rank task : rank task = 0%nat → waiting task = [].
Proof. by destruct task. Qed.

Lemma ranks_zero tasks :
  sum_list (rank <$> tasks) = 0%nat → concat (waiting <$> tasks) = [].
Proof.
  induction tasks as [|task tasks IH]; [done|]. intros H.
  change (rank task + sum_list (rank <$> tasks) = 0)%nat in H.
  rewrite fmap_cons, concat_cons, waiting_rank by lia. apply IH. lia.
Qed.

Lemma unsettled_rank task : finished task = false → (0 < rank task)%nat.
Proof. destruct task; simpl; [lia..|done]. Qed.

(** The choice of the schedule is one of the tasks that have not
    finished. *)
Lemma choice_unsettled (first : nat) others choice :
  default first ((first :: others) !! Nat.modulo choice (length (first :: others)))
  ∈ first :: others.
Proof.
  destruct (lookup_lt_is_Some_2 (first :: others)
              (Nat.modulo choice (length (first :: others)))) as [i Hi].
  { apply Nat.mod_upper_bound. simpl. lia. }
  rewrite Hi. simpl. by eapply list_elem_of_lookup_2.
Qed.

(** [Promise.all] over the tasks of a batch: it does not throw and sends
    nothing; the events emitted meanwhile are those of the tasks that have
    finished, one for each; with three turns for each task, all of them
    have finished at the end. *)
Lemma Promise_all_run turns tasks s :
  ∃ tasks' s' new, Promise_all turns tasks s = (Normal tasks', s') ∧
    requests s' = requests s ∧ config s' = config s ∧
    isSyncing s' = isSyncing s ∧
    events s' = events s ++ new ∧
    event_ids new ++ concat (waiting <$> tasks') ≡ₚ concat (waiting <$> tasks) ∧
    ((sum_list (rank <$> tasks) ≤ turns)%nat → concat (waiting <$> tasks') = []).
Proof.
  revert tasks s. induction turns as [|turns IH]; intros tasks s.
  { exists tasks, s, []. simpl. rewrite app_nil_r. repeat split; try done.
    intros H. apply ranks_zero. lia. }
  simpl. destruct (unsettled tasks) as [|first others] eqn:Eu.
  { exists tasks, s, []. simpl. rewrite app_nil_r. repeat split; try done.
    intros _. by apply unsettled_nil. }
  unfold mbind, M_bind, next_turn, pop. simpl.
  set (i := default first _).
  assert (i ∈ unsettled tasks) as Hi.
  { rewrite Eu. apply choice_unsettled. }
  apply unsettled_spec in Hi as (task & Ht & Hf). rewrite Ht. simpl.
  match goal with |- context [task_step task ?x] =>
    destruct (task_step_run task x) as (task' & s1 & new1 & -> & Hq & Hc & Hg & He & Hw & Hr)
  end.
  simpl in Hq, Hc, Hg, He.
  destruct (IH (<[i := task']> tasks) s1)
    as (tasks' & s2 & new2 & -> & Hq2 & Hc2 & Hg2 & He2 & Hw2 & Hr2).
  exists tasks', s2, (new1 ++ new2).
  split; [done|]. split; [congruence|]. split; [congruence|]. split; [congruence|].
  split; [by rewrite He2, He, app_assoc|].
  pose proof (take_drop_middle _ _ _ Ht) as Hsplit.
  assert (<[i := task']> tasks = take i tasks ++ task' :: drop (S i) tasks) as Hins.
  { apply insert_take_drop. by eapply lookup_lt_Some. }
  remember (take i tasks) as l1. remember (drop (S i) tasks) as l2.
  rewrite Hins in *. rewrite <- Hsplit. clear Hins Hsplit Heql1 Heql2.
  split.
  - unfold event_ids in *. rewrite omap_app, <- app_assoc, Hw2.
    rewrite !fmap_app, !concat_app, !fmap_cons, !concat_cons, <- Hw.
    rewrite app_assoc, (Permutation_app_comm (omap _ new1)), <- !app_assoc.
    done.
  - intros Hle. apply Hr2. rewrite ranks_app in *. simpl in *.
    pose proof (unsettled_rank _ Hf). lia.
Qed.

Lemma ranks_bound tasks : (sum_list (rank <$> tasks) ≤ 3 * length tasks)%nat.
Proof.
  induction tasks as [|task tasks IH]; [done|].
  change (rank task + sum_list (rank <$> tasks) ≤ 3 * S (length tasks))%nat.
  destruct task; simpl; lia.
Qed.

Lemma processBatch_settle_run batch s :
  ∃ s' new, processBatch_settle batch s = (Normal tt, s') ∧
    requests s' = requests s ∧ config s' = config s ∧
    isSyncing s' = isSyncing s ∧
    events s' = events s ++ new ∧
    event_ids new ≡ₚ id <$> selected (config s) batch.
Proof.
  unfold processBatch_settle, gets, mbind, M_bind.
  set (promises := AwaitApi <$> selected (config s) batch).
  destruct (Promise_all_run (3 * length promises) promises s)
    as (tasks' & s' & new & -> & Hq & Hc & Hf & He & Hw & Hdone).
  exists s', new. split; [done|]. repeat split; try done.
  rewrite Hdone in Hw by apply ranks_bound.
  rewrite app_nil_r in Hw. rewrite Hw. subst promises.
  clear. induction (selected (config s) batch) as [|op l IH]; simpl; [done|].
  by rewrite IH.
Qed.

(** ** A pass, batch after batch *)

Lemma syncPendingOperations_loop_run batches s :
  ∃ s' new, syncPendingOperations_loop batches s = (Normal (next_pass batches), s') ∧
    requests s' = requests s ++ (request_of <$> next_selected (config s) batches) ∧
    config s' = config s ∧
    isSyncing s' = match batches with [] => false | _ => isSyncing s end ∧
    events s' = events s ++ new ∧ event_ids new = [] ∧
    (batches ≠ [] → new = []) ∧
    timers s' = timers s ∧ responses s' = responses s ∧
    kv (storage s') = kv (storage s) ∧
    outcomes (storage s') = outcomes (storage s).
Proof.
  destruct batches as [|batch later]; simpl.
  - unfold_service. eexists _, [_]; split; [done|]. simpl. rewrite app_nil_r.
    by repeat split.
  - unfold mbind, M_bind.
    destruct (processBatch_dispatch_run batch s)
      as (s1 & -> & Hq & Hc & Hf & He & Ht & Hr & Hk & Ho).
    exists s1, []. rewrite app_nil_r. by repeat split.
Qed.

Lemma syncPendingOperations_batch_run batch later s :
  ∃ s' new, syncPendingOperations_batch batch later s = (Normal (next_pass later), s') ∧
    requests s' = requests s ++ (request_of <$> next_selected (config s) later) ∧
    config s' = config s ∧
    isSyncing s' = match later with [] => false | _ => isSyncing s end ∧
    events s' = events s ++ new ∧
    event_ids new ≡ₚ id <$> selected (config s) batch.
Proof.
  unfold syncPendingOperations_batch, try_catch, mbind, M_bind.
  destruct (processBatch_settle_run batch s) as (s1 & new1 & -> & Hq & Hc & Hf & He & Hw).
  destruct (syncPendingOperations_loop_run later s1)
    as (s2 & new2 & -> & Hq2 & Hc2 & Hf2 & He2 & Hw2 & _).
  exists s2, (new1 ++ new2). split; [done|].
  rewrite Hq2, Hq, Hc. split; [done|]. split; [congruence|].
  split; [rewrite Hf2; by destruct later|].
  split; [by rewrite He2, He, app_assoc|].
  unfold event_ids in *. by rewrite omap_app, Hw2, app_nil_r.
Qed.

Lemma resume_batches_run batch later s :
  ∃ s', resume_batches batch later s = (Normal Returned, s') ∧
        requests s' =
          requests s ++ (request_of <$> concat (selected (config s) <$> later)) ∧
        config s' = config s ∧ isSyncing s' = false.
Proof.
  revert batch s. induction later as [|batch' later IH]; intros batch s; simpl;
    unfold mbind, M_bind.
  - destruct (syncPendingOperations_batch_run batch [] s)
      as (s1 & new & -> & Hq & Hc & Hf & _).
    simpl in *. eexists; split; [done|]. by rewrite Hq.
  - destruct (syncPendingOperations_batch_run batch (batch' :: later) s)
      as (s1 & new & -> & Hq & Hc & Hf & _).
    simpl in *. destruct (IH batch' s1) as (s2 & -> & Hq2 & Hc2 & Hf2).
    eexists; split; [done|]. rewrite Hq2, Hq, Hc, fmap_app, app_assoc.
    split; [done|]. split; [congruence|done].
Qed.



End SyncPassFacts.
Module DriverFacts.
Import OfflineStorage SyncService QueueSpec DriverSpec SyncServiceFacts.

(** ** Two calls in a row *)

(** A call that finds the flag set returns at once and sends nothing. *)
Lemma manualSync_while_syncing s :
  isSyncing s = true →
  result manualSync s = Normal Returned ∧
  requests (exec manualSync s) = requests s ∧
  kv (storage (exec manualSync s)) = kv (storage s) ∧
  isSyncing (exec manualSync s) = true.
Proof.
  intros H. unfold manualSync, syncPendingOperations, syncPendingOperations_enter.
  unfold_service. by rewrite H.
Qed.

(** The flag is not set when the call returns: it is set after the
    connectivity check. *)
Lemma manualSync_enter_leaves_flag s :
  isSyncing s = false →
  result manualSync_enter s = Normal AwaitConnectivity ∧
  isSyncing (exec manualSync_enter s) = false.
Proof.
  intros H. unfold manualSync_enter, syncPendingOperations_enter.
  unfold_service. by rewrite H.
Qed.

Example one_call_one_pass :
  (steps one_call (idle_online, [])).2 = [Returned] ∧
  requests (steps one_call (idle_online, [])).1 = [request_of course_42] ∧
  stored_queue (storage (steps one_call (idle_online, [])).1) = Some [] ∧
  isSyncing (steps one_call (idle_online, [])).1 = false ∧
  ev_type <$> events (steps one_call (idle_online, [])).1
  = [operationProcessed; syncCompleted].
Proof. vm_compute. by repeat split. Qed.

Example call_during_batch_is_skipped :
  (steps call_during_batch (idle_online, [])).2 = [Returned; Returned] ∧
  requests (steps call_during_batch (idle_online, [])).1 = [request_of course_42].
Proof. vm_compute. by repeat split. Qed.

(** C7, on the code.  Two calls to [manualSync] made one after the other,
    before the connectivity check of the first has resolved, both pass the
    guard: two passes are in flight and the one queued operation is sent
    twice. *)
Theorem two_calls_two_passes :
  (steps two_calls (idle_online, [])).2
  = [AwaitBatch [course_42] []; AwaitBatch [course_42] []] ∧
  requests (steps two_calls (idle_online, [])).1
  = [request_of course_42; request_of course_42] ∧
  length (filter (λ p, in_flight p = true) (steps two_calls (idle_online, [])).2)
  = 2%nat.
Proof. vm_compute. by repeat split. Qed.

(** C3, on the code.  An operation is enqueued with [maxRetries = 3] and
    every call to the API fails.  After three failures its retry count is 3.
    The fourth failure is that of a pass that had loaded the queue when the
    count was 2: it tests the count it has loaded, not the stored one, so
    that the stored count goes to 4 and one more retry timer is set. *)
Theorem stale_pass_exceeds_ceiling :
  fmap (M := list) (λ op, (id op, retries op, maxRetries op))
    <$> stored_queue (storage (steps three_failures (enqueued_api_down, [])).1)
  = Some [(enqueued_id, 3%nat, 3%nat)] ∧
  fmap (M := list) (λ op, (id op, retries op, maxRetries op))
    <$> stored_queue (storage (steps stale_pass (enqueued_api_down, [])).1)
  = Some [(enqueued_id, 4%nat, 3%nat)] ∧
  timers (steps three_failures (enqueued_api_down, [])).1
  = [(5000, enqueued_id); (10000, enqueued_id); (20000, enqueued_id)] ∧
  timers (steps stale_pass (enqueued_api_down, [])).1
  = [(5000, enqueued_id); (10000, enqueued_id); (20000, enqueued_id);
     (20000, enqueued_id)] ∧
  length (requests (steps stale_pass (enqueued_api_down, [])).1) = 4%nat.
Proof. vm_compute. by repeat split. Qed.

End DriverFacts.

(* ===================================================================== *)
(** * Properties of conflict resolution *)
(* ===================================================================== *)

Module ConflictFacts.
Import OfflineStorage SyncService ConflictSpec.

(** ** Arrays: the first occurrences *)










(** ** Objects: the properties of both, the local ones first *)

Section Objects.
Context {V : Type}.
Implicit Types obj : list (string * V).

Lemma obj_get_replace key k v obj :
  obj_get key (obj_replace k v obj) =
    if decide (key = k) then (λ _, v) <$> obj_get k obj else obj_get key obj.
Proof.
  induction obj as [|[k' w] obj IH]; simpl; [by case_decide|].
  repeat (case_decide; simplify_eq/=); try done.
  all: rewrite IH; by repeat (case_decide; simplify_eq/=).
Qed.

Lemma obj_get_insert_index key n k v obj :
  obj_get k obj = None →
  obj_get key (obj_insert_index n k v obj) =
    if decide (key = k) then Some v else obj_get key obj.
Proof.
  induction obj as [|[k' w] obj IH]; simpl; intros Hk.
  - by repeat (case_decide; simplify_eq/=).
  - destruct (decide (k' = k)) as [->|Hne]; [done|].
    destruct (array_index k') as [m|]; [destruct (m <? n)%N|]; simpl.
    2, 3: by repeat (case_decide; simplify_eq/=).
    rewrite IH by done. by repeat (case_decide; simplify_eq/=).
Qed.

Lemma obj_get_app key obj obj' :
  obj_get key (obj ++ obj') =
    match obj_get key obj return option V with
    | Some v => Some v
    | None => obj_get key obj'
    end.
Proof.
  induction obj as [|[k w] obj IH]; simpl; [done|]. by destruct (decide _).
Qed.

Lemma obj_get_set key k v obj :
  obj_get key (obj_set k v obj) =
    if decide (key = k) then Some v else obj_get key obj.
Proof.
  unfold obj_set. destruct (obj_get k obj) as [w|] eqn:Hk.
  - rewrite obj_get_replace, Hk. done.
  - destruct (array_index k).
    + by apply obj_get_insert_index.
    + rewrite obj_get_app. simpl.
      repeat (case_decide; simplify_eq/=); try by rewrite Hk.
      by destruct (obj_get key obj).
Qed.

Lemma obj_get_None key obj : obj_get key obj = None ↔ key ∉ obj.*1.
Proof.
  induction obj as [|[k w] obj IH]; simpl.
  - split; [intros _; apply not_elem_of_nil|done].
  - rewrite not_elem_of_cons. case_decide; simplify_eq/=.
    + split; [done|tauto].
    + rewrite IH. split; [by split|tauto].
Qed.

Lemma obj_get_spread key source target :
  NoDup source.*1 →
  obj_get key (spread source target) =
    match obj_get key source return option V with
    | Some v => Some v
    | None => obj_get key target
    end.
Proof.
  unfold spread. revert target.
  induction source as [|[k w] source IH]; intros target Hnd; simpl; [done|].
  apply NoDup_cons in Hnd as [Hk Hnd]. rewrite IH by done.
  rewrite obj_get_set. apply obj_get_None in Hk.
  repeat (case_decide; simplify_eq/=); try done. by rewrite Hk.
Qed.
End Objects.



End ConflictFacts.

(* ===================================================================== *)
(** * Properties of the offline data cache *)
(* ===================================================================== *)

Module CacheFacts.
Import OfflineStorage useOfflineData QueueSpec CacheSpec OfflineStorageFacts.

(** C2, on the code.  With a synced record before a pending one, [syncAll]
    calls [syncItem] for the synced record and not for the pending one: the
    index of a pending record among the pending ones is used as an index
    into all the keys. *)
Theorem syncAll_syncs_the_wrong_item :
  pending_ids synced_then_pending = ["b"] ∧
  syncAll_calls synced_then_pending = ["a"] ∧
  queued_endpoints
    (exec (syncAll "courses" synced_then_pending) (fresh_hook synced_then_pending))
  = ["/courses/a"].
Proof. vm_compute. by repeat split. Qed.

#[local] Arguments addToSyncQueue : simpl never.
#[local] Arguments store : simpl never.

Ltac unfold_hook :=
  unfold addItem, deleteItem, syncItem, markAsSynced, resolveConflict, saveData,
    setData, setIsSyncing, useOfflineData.logger, useOfflineData.Date_now,
    offlineStorage, OfflineStorage.logger, OfflineStorage.Date_now,
    try_catch, try_finally, modify, gets, throw, zoom, pop, exec, result,
    mbind, M_bind, mret, M_ret in *;
  simpl.

Ltac store_call lemma :=
  match goal with
  | |- context [store ?key ?d ?v ?st] =>
      let st' := fresh "st" in
      let E := fresh "E" in
      destruct (lemma key d v st) as (st' & E & ?); [done..|];
      rewrite E; simpl
  end.

Lemma obj_get_set_eq {V} key (v : V) obj : obj_get key (obj_set key v obj) = Some v.
Proof. rewrite ConflictFacts.obj_get_set. by rewrite decide_True. Qed.

Lemma obj_lookup_own {V} key (v : V) obj :
  obj_get key obj = Some v → obj_lookup key obj = Own v.
Proof. unfold obj_lookup. by intros ->. Qed.

Lemma obj_lookup_missing {V} key (obj : list (string * V)) :
  obj_get key obj = None → key ∉ Object_prototype → obj_lookup key obj = Missing.
Proof. unfold obj_lookup. intros -> H. by rewrite decide_False. Qed.

Lemma obj_lookup_inherited {V} key (obj : list (string * V)) :
  obj_get key obj = None → key ∈ Object_prototype → obj_lookup key obj = Inherited.
Proof. unfold obj_lookup. intros -> H. by rewrite decide_True. Qed.

(** For an id that is neither in the dictionary of the render nor the name
    of a member of [Object.prototype], [markAsSynced], [syncItem] and
    [resolveConflict] return normally and leave the whole state as it is. *)
Lemma unknown_id_is_ignored (dataType : string) (data : Dict) (id : string)
    (resolvedData : Data) (strategy : SyncService.ConflictResolutionStrategy)
    (h : Hook) :
  obj_get id data = None →
  id ∉ Object_prototype →
  markAsSynced dataType data id h = (Normal tt, h) ∧
  syncItem dataType data id h = (Normal tt, h) ∧
  resolveConflict dataType data id resolvedData strategy h = (Normal tt, h).
Proof.
  intros H Hp. unfold markAsSynced, syncItem, resolveConflict, try_catch.
  by rewrite (obj_lookup_missing _ _ H Hp).
Qed.

Example unknown_id_is_ignored_example :
  markAsSynced "courses" synced_then_pending "c" (fresh_hook synced_then_pending)
  = (Normal tt, fresh_hook synced_then_pending) ∧
  syncItem "courses" synced_then_pending "c" (fresh_hook synced_then_pending)
  = (Normal tt, fresh_hook synced_then_pending) ∧
  resolveConflict "courses" synced_then_pending "c" (DPrim PNull)
    SyncService.serverWins (fresh_hook synced_then_pending)
  = (Normal tt, fresh_hook synced_then_pending).
Proof.
  apply (unknown_id_is_ignored "courses" synced_then_pending "c" (DPrim PNull)
           SyncService.serverWins (fresh_hook synced_then_pending)).
  - reflexivity.
  - apply (bool_decide_unpack _). by vm_compute.
Qed.

(** C10, on the code.  The dictionary of the render is empty, so the id
    ["constructor"] is not in it; yet [data[id]] finds the member of that
    name that every object inherits, and the three functions take it for a
    record.  [markAsSynced] and [resolveConflict] write a dictionary with an
    entry for the id to the store and set it as the state; [syncItem] adds
    an update of [/courses/constructor] to the sync queue, and does the
    same. *)
Theorem inherited_id_is_not_ignored :
  obj_get "constructor" ([] : Dict) = None ∧
  (result (markAsSynced "courses" [] "constructor") (fresh_hook []) = Normal tt ∧
   useOfflineData.data (exec (markAsSynced "courses" [] "constructor") (fresh_hook []))
   = [("constructor", not_a_record synced None)] ∧
   kv (storage (exec (markAsSynced "courses" [] "constructor") (fresh_hook [])))
     !! "courses"
   = Some (Json {| st_data := PDict [("constructor", not_a_record synced None)];
                   st_timestamp := 1700000000001; st_version := 1 |})) ∧
  (result (syncItem "courses" [] "constructor") (fresh_hook []) = Normal tt ∧
   queued_endpoints (exec (syncItem "courses" [] "constructor") (fresh_hook []))
   = ["/courses/constructor"] ∧
   obj_get "constructor"
     (useOfflineData.data (exec (syncItem "courses" [] "constructor") (fresh_hook [])))
   = Some {| item_id := None; item_data := DPrim PUndefined; status := pending;
             lastModified := None; syncAttempts := None; errorMessage := None |}) ∧
  (result (resolveConflict "courses" [] "constructor" (DPrim PNull)
             SyncService.serverWins) (fresh_hook []) = Normal tt ∧
   kv (storage (exec (resolveConflict "courses" [] "constructor" (DPrim PNull)
                        SyncService.serverWins) (fresh_hook [])))
     !! "courses"
   = Some (Json {| st_data :=
                     PDict [("constructor",
                             {| item_id := None; item_data := DPrim PNull;
                                status := pending;
                                lastModified := Some 1700000000001;
                                syncAttempts := Some 0%nat;
                                errorMessage := None |})];
                   st_timestamp := 1700000000002; st_version := 1 |})).
Proof. vm_compute. by repeat split. Qed.

(** C9, as stated, fails: a failed [syncItem] need not leave the status [error] with a
    message.  The write of the queue is rejected, and so is the save of the
    dictionary that follows: [syncItem] throws the error of the save and the
    record is as it was, with status [pending] and no message.  Or the
    write of the queue is rejected with an error whose message is empty:
    the record gets status [error] and the empty message.  And when the
    save is rejected, [addItem] creates no record and [markAsSynced]
    leaves the status of the record as it was. *)
Lemma failed_syncItem_without_error_message :
  (result (addToSyncQueue (sync_request "courses" "b" (record "b" pending)))
     (storage (answering [None; Some (JsError "quota exceeded");
                          Some (JsError "disk full")] synced_then_pending))
   = Throw (JsError "quota exceeded") ∧
   result (syncItem "courses" synced_then_pending "b")
     (answering [None; Some (JsError "quota exceeded");
                 Some (JsError "disk full")] synced_then_pending)
   = Throw (JsError "disk full") ∧
   obj_get "b"
     (useOfflineData.data
        (exec (syncItem "courses" synced_then_pending "b")
           (answering [None; Some (JsError "quota exceeded");
                       Some (JsError "disk full")] synced_then_pending)))
   = Some (record "b" pending)) ∧
  (result (addToSyncQueue (sync_request "courses" "b" (record "b" pending)))
     (storage (answering [None; Some (JsError "")] synced_then_pending))
   = Throw (JsError "") ∧
   (λ item, (status item, errorMessage item)) <$>
     obj_get "b"
       (useOfflineData.data
          (exec (syncItem "courses" synced_then_pending "b")
             (answering [None; Some (JsError "")] synced_then_pending)))
   = Some (OfflineStorage.error, Some "")) ∧
  (result (addItem "courses" synced_then_pending false "c" (DPrim PNull))
     (answering [Some (JsError "disk full")] synced_then_pending)
   = Throw (JsError "disk full") ∧
   obj_get "c"
     (useOfflineData.data
        (exec (addItem "courses" synced_then_pending false "c" (DPrim PNull))
           (answering [Some (JsError "disk full")] synced_then_pending)))
   = None) ∧
  (result (markAsSynced "courses" synced_then_pending "b")
     (answering [Some (JsError "disk full")] synced_then_pending)
   = Throw (JsError "disk full") ∧
   obj_get "b"
     (useOfflineData.data
        (exec (markAsSynced "courses" synced_then_pending "b")
           (answering [Some (JsError "disk full")] synced_then_pending)))
   = Some (record "b" pending)).
Proof. vm_compute. by repeat split. Qed.

(** C9, amended.  When the store accepts the save of the dictionary:
    [addItem] puts its item in the dictionary with status [pending] and no
    sync attempt; [markAsSynced] on an item of the dictionary sets its
    status to [synced], its sync attempts to 0 and clears its error message;
    a [syncItem] whose enqueue throws [e] throws [e] and leaves the item
    with status [error] and, as its error message, the message of [e]
    (["Unknown error"] when [e] is not an [Error]), which is not empty
    unless [e] is an [Error] with the empty message. *)
Theorem status_transitions (dataType : string) (data : Dict) (id : string) (h : Hook) :
  (∀ isOnline itemData,
     outcomes (storage h) 0%nat = None →
     ∃ item,
       obj_get id (useOfflineData.data (exec (addItem dataType data isOnline id itemData) h))
       = Some item ∧
       status item = pending ∧ syncAttempts item = Some 0%nat ∧
       item_data item = itemData ∧ errorMessage item = None) ∧
  (∀ item,
     obj_get id data = Some item →
     outcomes (storage h) 0%nat = None →
     result (markAsSynced dataType data id) h = Normal tt ∧
     ∃ item',
       obj_get id (useOfflineData.data (exec (markAsSynced dataType data id) h))
       = Some item' ∧
       status item' = synced ∧ syncAttempts item' = Some 0%nat ∧
       errorMessage item' = None ∧ item_data item' = item_data item) ∧
  (∀ item e,
     obj_get id data = Some item →
     result (addToSyncQueue (sync_request dataType id item)) (storage h) = Throw e →
     outcomes (exec (addToSyncQueue (sync_request dataType id item)) (storage h)) 0%nat
     = None →
     result (syncItem dataType data id) h = Throw e ∧
     ∃ item',
       obj_get id (useOfflineData.data (exec (syncItem dataType data id) h))
       = Some item' ∧
       status item' = OfflineStorage.error ∧
       errorMessage item' = Some (error_text e) ∧
       (e ≠ JsError "" → errorMessage item' ≠ Some "") ∧
       syncAttempts item' = (λ n, (n + 1)%nat) <$> syncAttempts item ∧
       item_data item' = item_data item).
Proof.
  split; [|split].
  - intros isOnline itemData Ho. unfold_hook.
    store_call store_accepted.
    destruct isOnline; simpl.
    + match goal with |- context [addToSyncQueue ?op ?st] =>
        destruct (addToSyncQueue op st) as [[?|?] ?]
      end; simpl; rewrite obj_get_set_eq; eauto 10.
    + rewrite obj_get_set_eq; eauto 10.
  - intros item Hitem Ho. unfold_hook. rewrite (obj_lookup_own _ _ _ Hitem). simpl.
    store_call store_accepted.
    rewrite obj_get_set_eq. split; [done|]. eauto 10.
  - intros item e Hitem Hthrow Hsave. unfold sync_request in *. unfold_hook.
    rewrite (obj_lookup_own _ _ _ Hitem). simpl.
    destruct (addToSyncQueue _ (storage h)) as [c st1] eqn:E1.
    simpl in *. subst c. simpl.
    match goal with
    | |- context [store ?key ?d ?v ?st] =>
        destruct (store_accepted key d v st) as (st2 & E2 & _)
    end.
    { done. }
    rewrite E2. simpl. rewrite obj_get_set_eq. split; [done|].
    eexists. split; [done|]. simpl. repeat split; try done.
    intros He Hm. apply He. destruct e as [m|v]; simpl in Hm; [|done].
    by injection Hm as ->.
Qed.

Lemma status_transitions_witness :
  result (syncItem "courses" synced_then_pending "b")
    (second_call_rejected synced_then_pending)
  = Throw (JsError "quota exceeded") ∧
  ∃ item',
    obj_get "b"
      (useOfflineData.data
         (exec (syncItem "courses" synced_then_pending "b")
            (second_call_rejected synced_then_pending)))
    = Some item' ∧
    status item' = OfflineStorage.error ∧
    errorMessage item' = Some "quota exceeded" ∧
    (JsError "quota exceeded" ≠ JsError "" → errorMessage item' ≠ Some "") ∧
    syncAttempts item' = Some 1%nat ∧
    item_data item' = item_data (record "b" pending).
Proof.
  destruct (status_transitions "courses" synced_then_pending "b"
              (second_call_rejected synced_then_pending)) as (_ & _ & H).
  apply (H (record "b" pending) (JsError "quota exceeded")).
  - reflexivity.
  - reflexivity.
  - reflexivity.
Defined.

End CacheFacts.

(* ===================================================================== *)
(** * Further properties of the offline store *)
(* ===================================================================== *)

Module StoreFacts.
Import OfflineStorage QueueSpec StoreSpec OfflineStorageFacts.

(** X2.  [retrieve] and [exists] never throw and never change what is
    stored.  A rejected read, a missing key and a text that does not parse
    all make [retrieve] return [null]; [exists] answers [false] to a
    rejected read and [true] to any stored text, also one that [retrieve]
    cannot parse. *)
Theorem retrieve_exists_total (key : string) (s : Storage) :
  result (retrieve key) s = Normal (readable key s) ∧
  kv (exec (retrieve key) s) = kv s ∧
  result (exists_ key) s
  = Normal (match outcomes s 0%nat with
            | Some _ => false
            | None => bool_decide (is_Some (kv s !! key))
            end) ∧
  kv (exec (exists_ key) s) = kv s.
Proof.
  unfold readable. unfold_store. simpl.
  destruct (outcomes s 0%nat); simpl; [done|].
  destruct (kv s !! key) as [[item|]|] eqn:Ek; simpl; repeat split; try done.
Qed.

(** X3.  When the key-value store rejects the write, [store] logs the
    failure and throws what it was rejected with; nothing is written. *)
Theorem store_rethrows (key : string) (d : Payload) (version : nat) (s : Storage)
    (e : Thrown) :
  outcomes s 0%nat = Some e →
  result (store key d version) s = Throw e ∧
  kv (exec (store key d version) s) = kv s ∧
  log (exec (store key d version) s)
  = log s ++ [{| level := Error;
                 text := "Error storing data for key " +:+ key +:+ ":";
                 detail := Some e |}].
Proof. intros H. unfold_store. simpl. rewrite H. simpl. by repeat split. Qed.

Lemma store_rethrows_witness :
  result (store "courses" (PQueue []) 1) rejecting_store = Throw (JsError "disk full").
Proof.
  destruct (store_rethrows "courses" (PQueue []) 1 rejecting_store (JsError "disk full"))
    as [H _].
  - reflexivity.
  - exact H.
Defined.

(** ** More on the queue *)

Lemma filter_id_absent operationId (q : list SyncOperation) :
  operationId ∉ id <$> q → filter (λ op, id op ≠ operationId) q = q.
Proof.
  induction q as [|op q IH]; simpl; [done|].
  rewrite not_elem_of_cons. intros [Hne Hq].
  rewrite filter_cons_True by done. by rewrite IH.
Qed.

Lemma filter_id_twice operationId (q : list SyncOperation) :
  filter (λ op, id op ≠ operationId) (filter (λ op, id op ≠ operationId) q)
  = filter (λ op, id op ≠ operationId) q.
Proof.
  induction q as [|op q IH]; simpl; [done|].
  rewrite (filter_cons (λ op, id op ≠ operationId)).
  destruct (decide _) as [Hne|]; [|done].
  rewrite filter_cons_True by done. by rewrite IH.
Qed.

(** X4.  Removal is idempotent.  With a key-value store that answers every
    call, removing an id drops every operation with that id and keeps the
    others in their order; removing it again, or removing an id that is not
    in the queue, leaves the queue as it is. *)
Theorem removeFromSyncQueue_idempotent (operationId : string) (s : Storage)
    (q : list SyncOperation) :
  reliable s → stored_queue s = Some q →
  stored_queue (exec (removeFromSyncQueue operationId) s)
  = Some (filter (λ op, id op ≠ operationId) q) ∧
  stored_queue (exec (removeFromSyncQueue operationId;;
                      removeFromSyncQueue operationId) s)
  = stored_queue (exec (removeFromSyncQueue operationId) s) ∧
  (operationId ∉ id <$> q →
   stored_queue (exec (removeFromSyncQueue operationId) s) = Some q).
Proof.
  intros Hr Hq.
  destruct (removeFromSyncQueue_reliable operationId s q Hr Hq) as (s1 & E1 & Hr1 & Hq1).
  destruct (removeFromSyncQueue_reliable operationId s1 _ Hr1 Hq1) as (s2 & E2 & _ & Hq2).
  unfold exec, mbind, M_bind. rewrite E1. simpl. rewrite E2. simpl.
  rewrite Hq1, Hq2, filter_id_twice. split; [done|]. split; [done|].
  intros Habs. by rewrite filter_id_absent.
Qed.

Lemma removeFromSyncQueue_idempotent_witness :
  stored_queue (exec (removeFromSyncQueue "op_1") (store_with twice_queued))
  = Some (filter (λ op, id op ≠ "op_1") twice_queued).
Proof.
  destruct (removeFromSyncQueue_idempotent "op_1" (store_with twice_queued) twice_queued)
    as [H _].
  - intros n. reflexivity.
  - reflexivity.
  - exact H.
Defined.

(** X5.  [removeFromSyncQueue] and [incrementRetryCount] never throw,
    whatever the key-value store answers and whatever is stored under the
    key of the queue: a failure is logged and the call returns. *)
Theorem queue_updates_never_throw (operationId : string) (s : Storage) :
  result (removeFromSyncQueue operationId) s = Normal tt ∧
  result (incrementRetryCount operationId) s = Normal tt.
Proof.
  split.
  - unfold_store. answers s; try done.
    all: destruct (kv s !! SYNC_QUEUE) as [[[[]]|]|] eqn:Ek; by answers s.
  - unfold_store. answers s; try done.
    all: destruct (kv s !! SYNC_QUEUE) as [[[[]]|]|] eqn:Ek; answers s; try done.
    all: destruct (find_and_increment operationId _); by answers s.
Qed.

(** X6.  [incrementRetryCount] changes one retry count and nothing else.
    For an id that is not in the stored queue it writes nothing at all; for
    an id that is, and a key-value store that answers every call, the first
    operation with that id has its retry count increased by one, where it
    stands, and the queue is otherwise the same. *)
Theorem incrementRetryCount_one (operationId : string) (s : Storage)
    (q : list SyncOperation) :
  stored_queue s = Some q →
  (operationId ∉ id <$> q → kv (exec (incrementRetryCount operationId) s) = kv s) ∧
  (∀ i op, reliable s →
     list_find (λ o, id o = operationId) q = Some (i, op) →
     stored_queue (exec (incrementRetryCount operationId) s)
     = Some (<[i := increment op]> q) ∧
     retries (increment op) = S (retries op)).
Proof.
  intros Hq. split.
  - intros Habs. apply find_and_increment_absent in Habs. pose proof Hq as H'.
    apply stored_queue_cases in H' as [(ts & v & Ek)|[-> [Ek|Ek]]];
      unfold_store; answers s; try done.
    by rewrite Habs.
  - intros i op Hr Hf.
    destruct (incrementRetryCount_reliable operationId s q Hr Hq) as (s1 & E1 & _ & Hq1).
    unfold exec. rewrite E1. simpl.
    by rewrite Hq1, (find_and_increment_insert _ _ _ _ Hf).
Qed.

Lemma incrementRetryCount_one_witness :
  stored_queue (exec (incrementRetryCount "op_2") (store_with twice_queued))
  = Some [failed_update; increment fresh_read].
Proof.
  destruct (incrementRetryCount_one "op_2" (store_with twice_queued) twice_queued)
    as [_ H].
  - reflexivity.
  - destruct (H 1%nat fresh_read) as [H1 _].
    + intros n. reflexivity.
    + reflexivity.
    + exact H1.
Defined.

(** X7.  With a key-value store that answers every call, [addToSyncQueue]
    returns the id of the operation it has made, and the stored queue holds
    that operation and the operations it held, no other: one more than
    before.  When the write of the queue is rejected, [addToSyncQueue]
    throws what it was rejected with and the stored queue is as before. *)
Theorem addToSyncQueue_adds_one (operation : SyncOperationInput) (s : Storage)
    (q : list SyncOperation) :
  stored_queue s = Some q →
  (reliable s →
   ∃ q', result (addToSyncQueue operation) s
         = Normal (id (new_operation operation s)) ∧
         stored_queue (exec (addToSyncQueue operation) s) = Some q' ∧
         q' ≡ₚ q ++ [new_operation operation s] ∧
         length q' = S (length q)) ∧
  (∀ e, outcomes s 1%nat = Some e →
        result (addToSyncQueue operation) s = Throw e ∧
        stored_queue (exec (addToSyncQueue operation) s) = Some q).
Proof.
  intros Hq. split.
  - intros Hr.
    destruct (addToSyncQueue_reliable operation s q Hr Hq) as (s1 & E1 & _ & Hq1).
    unfold exec, result. rewrite E1. simpl. eexists. split; [done|]. split; [done|].
    split; [apply Array_sort_perm|].
    rewrite (Permutation_length (Array_sort_perm compareOperations _)), length_app.
    simpl. lia.
  - intros e He.
    destruct (addToSyncQueue_rejected operation s q e Hq He) as (s1 & E1 & Hkv & _).
    unfold exec, result. rewrite E1. simpl. split; [done|].
    unfold stored_queue in *. by rewrite Hkv.
Qed.

Lemma addToSyncQueue_adds_one_witness :
  ∃ q', stored_queue (exec (addToSyncQueue create_course) (store_with twice_queued))
        = Some q' ∧ length q' = 3%nat.
Proof.
  destruct (addToSyncQueue_adds_one create_course (store_with twice_queued) twice_queued)
    as [H _].
  - reflexivity.
  - destruct H as (q' & _ & Hq & _ & Hl).
    + intros n. reflexivity.
    + exists q'. split; [exact Hq|exact Hl].
Defined.

(** X8.  After [clearSyncQueue], when its write is accepted, the queue is
    empty: [getSyncQueue] returns no operation, whatever the next read
    does.  When the write is rejected, [clearSyncQueue] throws and the queue
    is as before. *)
Theorem clearSyncQueue_empties (s : Storage) :
  (outcomes s 0%nat = None →
   result (clearSyncQueue;; getSyncQueue) s = Normal (PQueue []) ∧
   stored_queue (exec clearSyncQueue s) = Some []) ∧
  (∀ e, outcomes s 0%nat = Some e →
        result clearSyncQueue s = Throw e ∧ kv (exec clearSyncQueue s) = kv s).
Proof.
  split.
  - intros H. unfold stored_queue. unfold_store. simpl. rewrite H. simpl.
    rewrite ?lookup_insert_eq. simpl. split; [|done].
    destruct (outcomes s 1%nat); simpl; [done|].
    done.
  - intros e H. unfold_store. simpl. by rewrite H.
Qed.

Lemma clearSyncQueue_empties_witness :
  result (clearSyncQueue;; getSyncQueue) (store_with twice_queued) = Normal (PQueue []).
Proof.
  destruct (clearSyncQueue_empties (store_with twice_queued)) as [H _].
  destruct H as [H _].
  - reflexivity.
  - exact H.
Defined.

End StoreFacts.

(* ===================================================================== *)
(** * Further properties of the sync driver *)
(* ===================================================================== *)

Module PassFacts.
Import OfflineStorage SyncService QueueSpec DriverSpec PassSpec.
Import OfflineStorageFacts SyncServiceFacts SyncPassFacts.

#[local] Arguments addToSyncQueue : simpl never.
#[local] Arguments removeFromSyncQueue : simpl never.
#[local] Arguments incrementRetryCount : simpl never.
#[local] Arguments getSyncQueue : simpl never.
#[local] Arguments getFailedOperations : simpl never.
#[local] Arguments processOperation_settle : simpl never.
#[local] Arguments processOperation_dispatch : simpl never.

(** ** One operation *)

Lemma processOperation_settle_frame operation s :
  ∃ s' now, processOperation_settle operation s = (Normal tt, s') ∧
        requests s' = requests s ∧
        config s' = config s ∧ isSyncing s' = isSyncing s ∧
        events s' = events s ++ [outcome_event operation (responses s 0%nat) now] ∧
        responses s' = (λ n, responses s (S n)).
Proof.
  unfold processOperation_settle. unfold_service.
  destruct (responses s 0%nat) as [d|e]; simpl.
  - match goal with |- context [removeFromSyncQueue ?i ?st] =>
      destruct (removeFromSyncQueue_total i st) as [st1 ->]
    end.
    simpl. eexists _, _. split; [reflexivity|]. simpl. by repeat split.
  - destruct (decide _); simpl.
    + match goal with |- context [incrementRetryCount ?i ?st] =>
        destruct (incrementRetryCount_total i st) as [st1 ->]
      end.
      simpl. eexists _, _. split; [reflexivity|]. simpl. by repeat split.
    + destruct e as [?|[]]; simpl; eexists _, _; (split; [reflexivity|]); simpl;
        by repeat split.
Qed.

Lemma processOperation_settle_success operation s d q :
  responses s 0%nat = Normal d →
  reliable (storage s) → stored_queue (storage s) = Some q →
  ∃ s', processOperation_settle operation s = (Normal tt, s') ∧
        reliable (storage s') ∧
        stored_queue (storage s')
        = Some (filter (λ op, id op ≠ id operation) q) ∧
        timers s' = timers s.
Proof.
  intros Hd Hr Hq. unfold processOperation_settle. unfold_service.
  rewrite Hd. simpl.
  destruct (removeFromSyncQueue_reliable (id operation) _ _ Hr Hq) as (st1 & -> & Hr1 & Hq1).
  simpl. eexists. split; [reflexivity|]. simpl. by repeat split.
Qed.

(** X9.  Whatever the store and the API answer, [processOperation] returns
    normally, sends one request, the one of its operation, and emits one
    event: [operationProcessed] with the response when the API call
    resolves, [syncFailed] with the error when it is rejected. *)
Theorem processOperation_one_event (operation : SyncOperation) (s : Service) :
  ∃ now,
    result (processOperation operation) s = Normal tt ∧
    requests (exec (processOperation operation) s)
    = requests s ++ [request_of operation] ∧
    events (exec (processOperation operation) s)
    = events s ++ [outcome_event operation (responses s 0%nat) now].
Proof.
  unfold processOperation, exec, result, mbind, M_bind.
  destruct (processOperation_dispatch_frame operation s)
    as (s1 & -> & Hreq & _ & _ & Hev & _ & Hresp & _).
  destruct (processOperation_settle_frame operation s1)
    as (s2 & now & -> & Hreq2 & _ & _ & Hev2 & _).
  exists now. simpl. rewrite Hreq2, Hreq, Hev2, Hev, Hresp. by repeat split.
Qed.

(** X10.  When the API call resolves and the store answers every call,
    [processOperation] removes its operation from the queue, the other
    operations stay in their order, and no retry timer is set. *)
Theorem processOperation_success (operation : SyncOperation) (s : Service)
    (d : Data) (q : list SyncOperation) :
  responses s 0%nat = Normal d →
  reliable (storage s) → stored_queue (storage s) = Some q →
  stored_queue (storage (exec (processOperation operation) s))
  = Some (filter (λ op, id op ≠ id operation) q) ∧
  timers (exec (processOperation operation) s) = timers s.
Proof.
  intros Hd Hr Hq. unfold processOperation, exec, mbind, M_bind.
  destruct (processOperation_dispatch_frame operation s)
    as (s1 & -> & _ & _ & _ & _ & Ht & Hresp & Hkv & Hout).
  destruct (processOperation_settle_success operation s1 d q)
    as (s2 & -> & _ & Hq2 & Ht2).
  - by rewrite Hresp.
  - intros n. rewrite Hout. apply Hr.
  - unfold stored_queue in *. by rewrite Hkv.
  - simpl. by rewrite Hq2, Ht2, Ht.
Qed.

Lemma processOperation_success_witness :
  stored_queue (storage (exec (processOperation course_42) idle_online)) = Some [].
Proof.
  destruct (processOperation_success course_42 idle_online (DPrim PUndefined) [course_42])
    as [H _].
  - reflexivity.
  - intros n. reflexivity.
  - reflexivity.
  - exact H.
Defined.

(** ** A whole pass *)

(** X11.  A pass that nothing interrupts returns, whatever the network
    probe, the store and the API answer, and leaves the flag [isSyncing] as
    it found it: a pass that found it unset has unset it again when it
    returns.  The batch size is positive. *)
Theorem pass_returns_and_resets_flag (s : Service) :
  (0 < batchSize (config s))%nat →
  result syncPendingOperations s = Normal Returned ∧
  isSyncing (exec syncPendingOperations s) = isSyncing s.
Proof.
  intros Hb. unfold syncPendingOperations, syncPendingOperations_enter, exec, result,
    gets, mbind, M_bind.
  destruct (isSyncing s) eqn:Hflag; simpl.
  { unfold_service. by rewrite ?Hflag. }
  unfold syncPendingOperations_connectivity, mbind, M_bind.
  assert (∃ connected s0, checkConnectivity s = (Normal connected, s0) ∧
            config s0 = config s ∧ isSyncing s0 = false) as (connected & s0 & -> & Hc0 & Hf0).
  { unfold_service. destruct (network s 0%nat); simpl; eexists _, _; by repeat split. }
  destruct connected; simpl.
  2: { unfold_service. by rewrite ?Hf0. }
  unfold modify, try_catch, offlineStorage, zoom. simpl.
  destruct (getSyncQueue_total (storage s0)) as (queue & st1 & ->). simpl.
  destruct queue as [[|op q]|dict].
  - unfold_service. done.
  - unfold SyncService.logger, offlineStorage, zoom, gets. simpl.
    destruct (createBatches_spec (op :: q) _ (eq_ind_r (λ c, (0 < batchSize c)%nat) Hb Hc0))
      as (batches & E & Hcat & _).
    simpl in E. rewrite E.
    match goal with |- context [syncPendingOperations_loop batches ?x] =>
      destruct (syncPendingOperations_loop_run batches x) as (s1 & new & -> & _)
    end.
    destruct batches as [|batch later]; [done|]. cbn [fst snd next_pass].
    destruct (resume_batches_run batch later s1) as (s2 & -> & _ & _ & Hf2). done.
  - unfold_service. done.
Qed.

Lemma pass_returns_and_resets_flag_witness :
  result syncPendingOperations api_down = Normal Returned ∧
  isSyncing (exec syncPendingOperations api_down) = isSyncing api_down.
Proof. apply (pass_returns_and_resets_flag api_down). simpl. lia. Defined.

(** X12.  A pass that finds the device offline does nothing: when the
    network probe fails, or says that the device is not connected or cannot
    reach the internet, the pass returns without a call to the store or to
    the API, without an event and without setting the flag. *)
Theorem offline_pass_does_nothing (s : Service) :
  isSyncing s = false → offline s →
  let s' := exec syncPendingOperations s in
  result syncPendingOperations s = Normal Returned ∧
  requests s' = requests s ∧ events s' = events s ∧ timers s' = timers s ∧
  kv (storage s') = kv (storage s) ∧
  outcomes (storage s') = outcomes (storage s) ∧
  isSyncing s' = false.
Proof.
  intros Hflag Hoff. unfold offline in Hoff.
  unfold syncPendingOperations, syncPendingOperations_enter,
    syncPendingOperations_connectivity.
  unfold_service. rewrite Hflag. simpl.
  destruct (network s 0%nat) as [state|e]; simpl.
  - rewrite Hoff. simpl. by repeat split.
  - by repeat split.
Qed.

Lemma offline_pass_does_nothing_witness :
  requests (exec syncPendingOperations unreachable) = [] ∧
  isSyncing (exec syncPendingOperations unreachable) = false.
Proof.
  destruct (offline_pass_does_nothing unreachable) as (_ & Hr & _ & _ & _ & _ & Hf).
  - reflexivity.
  - reflexivity.
  - split; [exact Hr|exact Hf].
Defined.

(** ** A pass in which every call succeeds *)

Lemma remaining_nil q : remaining [] q = q.
Proof.
  unfold remaining. induction q as [|op q IH]; [done|].
  rewrite filter_cons_True; [by rewrite IH|]. simpl. apply not_elem_of_nil.
Qed.

Lemma remaining_cons op sent q :
  remaining (op :: sent) q = remaining sent (filter (λ o, id o ≠ id op) q).
Proof.
  unfold remaining. rewrite list_filter_filter. apply list_filter_iff.
  intros o. rewrite fmap_cons, not_elem_of_cons. tauto.
Qed.

Lemma remaining_app sent sent' q :
  remaining (sent ++ sent') q = remaining sent' (remaining sent q).
Proof.
  revert q. induction sent as [|op sent IH]; intros q; simpl.
  - by rewrite remaining_nil.
  - by rewrite !remaining_cons, IH.
Qed.

Lemma remaining_all q : remaining q q = [].
Proof.
  unfold remaining.
  assert (∀ l : list SyncOperation, Forall (λ op, id op ∈ id <$> q) l →
            filter (λ op, id op ∉ id <$> q) l = []) as H.
  { induction l as [|op l IH]; [done|]. intros [Hop Hl]%Forall_cons.
    rewrite filter_cons_False by tauto. by apply IH. }
  apply H, Forall_forall. intros op Hop. by apply list_elem_of_fmap_2.
Qed.

Lemma sublist_filter_mono {A} (P : A → Prop) `{!∀ x, Decision (P x)} (l k : list A) :
  sublist l k → sublist (filter P l) (filter P k).
Proof.
  induction 1 as [|x l k _ IH|x l k _ IH]; [done| |].
  - rewrite !filter_cons. destruct (decide (P x)); [by constructor|done].
  - rewrite filter_cons. destruct (decide (P x)); [by constructor|done].
Qed.

Lemma elem_of_concat {A} (x : A) l ls : x ∈ l → l ∈ ls → x ∈ concat ls.
Proof.
  intros Hx Hl. apply list_elem_of_In, in_concat. exists l.
  split; by apply list_elem_of_In.
Qed.

Lemma between_refl sent q : between sent q q.
Proof. split; [apply sublist_filter|done]. Qed.

Lemma between_filter sent q x op :
  op ∈ sent → between sent q x → between sent q (filter (λ o, id o ≠ id op) x).
Proof.
  intros Hop [H1 H2]. split.
  - replace (remaining sent q)
      with (filter (λ o, id o ≠ id op) (remaining sent q)).
    { by apply sublist_filter_mono. }
    unfold remaining. rewrite list_filter_filter. apply list_filter_iff.
    intros o. split; [tauto|]. intros Ho. split; [|done].
    intros E. apply Ho. rewrite E. by apply list_elem_of_fmap_2.
  - etrans; [apply sublist_filter|done].
Qed.

Lemma removeFromSyncQueue_read_reliable operationId s q :
  reliable s → stored_queue s = Some q →
  ∃ item s', removeFromSyncQueue_read operationId s = (Normal (Some item), s') ∧
    st_data item = PQueue (filter (λ op, id op ≠ operationId) q) ∧
    reliable s' ∧ kv s' = kv s.
Proof.
  intros Hr H. pose proof H as H'. unfold reliable in *.
  apply stored_queue_cases in H' as [(ts & v & Ek)|[-> [Ek|Ek]]];
    unfold stored_queue in *; unfold_store; answers s.
  all: eexists _, _; split; [done|]; simpl; auto.
Qed.

Lemma removeFromSyncQueue_write_reliable operationId item s :
  reliable s →
  ∃ s', removeFromSyncQueue_write operationId item s = (Normal tt, s') ∧
    reliable s' ∧ kv s' = <[SYNC_QUEUE := Json item]> (kv s).
Proof.
  intros Hr. unfold reliable in *. unfold_store. answers s.
  eexists; split; [done|]; simpl; auto.
Qed.

Lemma processOperation_end_success operation d s :
  ∃ s', processOperation_end operation (Normal d) s = (Normal tt, s') ∧
    kv (storage s') = kv (storage s) ∧
    outcomes (storage s') = outcomes (storage s) ∧
    responses s' = responses s ∧ timers s' = timers s.
Proof.
  unfold processOperation_end. unfold_service.
  eexists. split; [reflexivity|]. simpl. by repeat split.
Qed.

Lemma task_step_removing sent q task s x :
  healthy s x → between sent q x → removing sent q task →
  ∃ task' s' x', task_step task s = (Normal task', s') ∧
    healthy s' x' ∧ between sent q x' ∧ removing sent q task' ∧
    timers s' = timers s.
Proof.
  intros (Hr & Hs & Hq) Hx Htask.
  destruct task as [operation|operation answer|operation answer item|];
    unfold task_step.
  - unfold settled, apiService_settle, pop, mbind, M_bind. simpl.
    destruct (Hs 0%nat) as [d ->]. simpl.
    eexists _, _, x. split; [reflexivity|]. simpl.
    split; [|by eauto].
    split; [done|]. split; [|done]. intros n. apply Hs.
  - destruct Htask as (Hop & d & ->).
    unfold mbind, M_bind, offlineStorage, zoom.
    destruct (removeFromSyncQueue_read_reliable (id operation) _ _ Hr Hq)
      as (item & st' & -> & Hitem & Hr' & Hkv).
    simpl. eexists _, _, x. split; [reflexivity|]. simpl.
    split; [|split; [done|]; split; [|done]].
    + split; [done|]. split; [done|]. unfold stored_queue in *. simpl.
      by rewrite Hkv.
    + split; [done|]. split; [by eauto|]. eexists. split; [exact Hitem|].
      exact (between_filter _ _ _ _ Hop Hx).
  - destruct Htask as (Hop & (d & ->) & xi & Hitem & Hxi).
    unfold mbind, M_bind, offlineStorage, zoom.
    destruct (removeFromSyncQueue_write_reliable (id operation) item _ Hr)
      as (st' & -> & Hr' & Hkv).
    destruct (processOperation_end_success operation d (set_storage st' s))
      as (s' & -> & Hkv' & Ho' & Hresp' & Ht').
    simpl in *. eexists _, _, xi. split; [reflexivity|].
    split; [|split; [exact Hxi|split; [done|exact Ht']]].
    split; [|split].
    + intros n. rewrite Ho'. apply Hr'.
    + intros n. rewrite Hresp'. apply Hs.
    + unfold stored_queue. rewrite Hkv', Hkv, lookup_insert_eq. simpl.
      by rewrite Hitem.
  - eexists _, _, x. split; [reflexivity|]. split; [by repeat split|].
    split; [exact Hx|]. by split.
Qed.

Lemma Promise_all_removing sent q turns tasks s x :
  healthy s x → between sent q x → Forall (removing sent q) tasks →
  ∃ tasks' s' x', Promise_all turns tasks s = (Normal tasks', s') ∧
    healthy s' x' ∧ between sent q x' ∧ timers s' = timers s ∧
    config s' = config s.
Proof.
  revert tasks s x. induction turns as [|turns IH]; intros tasks s x H Hx Htasks.
  { by exists tasks, s, x. }
  simpl. destruct (unsettled tasks) as [|first others] eqn:Eu.
  { by exists tasks, s, x. }
  unfold mbind, M_bind, next_turn, pop. simpl.
  set (i := default first _).
  assert (removing sent q (default Finished (tasks !! i))) as Hi.
  { destruct (tasks !! i) as [task|] eqn:Ei; simpl; [|done].
    eapply Forall_lookup_1; eauto. }
  match goal with |- context [task_step ?task ?s0] =>
    destruct (task_step_removing sent q task s0 x) as (task' & s1 & x1 & E & H1 & Hx1 & Ht1 & Hm1);
      [by destruct H as (? & ? & ?)|done|done|];
    destruct (task_step_run task s0) as (task'' & s1' & new & E' & _ & Hc1 & _)
  end.
  rewrite E in E'. injection E' as <- <-. rewrite E.
  destruct (IH (<[i := task']> tasks) s1 x1 H1 Hx1)
    as (tasks' & s2 & x2 & -> & H2 & Hx2 & Hm2 & Hc2).
  { by apply Forall_insert. }
  exists tasks', s2, x2. split; [done|]. split; [done|]. split; [done|].
  simpl in *. split; congruence.
Qed.

Lemma processBatch_settle_removing sent q batch s x :
  healthy s x → between sent q x → selected (config s) batch ⊆ sent →
  ∃ s' x', processBatch_settle batch s = (Normal tt, s') ∧
    healthy s' x' ∧ between sent q x' ∧ timers s' = timers s ∧
    config s' = config s.
Proof.
  intros H Hx Hsent. unfold processBatch_settle, gets, mbind, M_bind.
  match goal with |- context [Promise_all ?turns ?tasks s] =>
    destruct (Promise_all_removing sent q turns tasks s x H Hx)
      as (tasks' & s' & x' & -> & ?)
  end.
  { apply Forall_fmap, Forall_forall. intros op Hop. simpl. by apply Hsent. }
  by exists s', x'.
Qed.

Lemma syncPendingOperations_batch_removing sent q batch later s x :
  healthy s x → between sent q x → selected (config s) batch ⊆ sent →
  ∃ s' x', syncPendingOperations_batch batch later s = (Normal (next_pass later), s') ∧
    healthy s' x' ∧ between sent q x' ∧ timers s' = timers s ∧
    config s' = config s.
Proof.
  intros H Hx Hsent. unfold syncPendingOperations_batch, try_catch, mbind, M_bind.
  destruct (processBatch_settle_removing sent q batch s x H Hx Hsent)
    as (s1 & x1 & -> & (Hr & Hs & Hq) & Hx1 & Hm1 & Hc1).
  destruct (syncPendingOperations_loop_run later s1)
    as (s2 & new & -> & _ & Hc2 & _ & _ & _ & _ & Hm2 & Hresp2 & Hkv2 & Ho2).
  exists s2, x1. split; [done|]. split; [|split; [done|split; congruence]].
  split; [|split].
  - intros n. rewrite Ho2. apply Hr.
  - intros n. rewrite Hresp2. apply Hs.
  - unfold stored_queue in *. by rewrite Hkv2.
Qed.

Lemma resume_batches_removing sent q batch later s x :
  healthy s x → between sent q x →
  Forall (λ batch, selected (config s) batch ⊆ sent) (batch :: later) →
  ∃ s' x', resume_batches batch later s = (Normal Returned, s') ∧
    healthy s' x' ∧ between sent q x' ∧ timers s' = timers s.
Proof.
  revert batch s x. induction later as [|batch' later IH];
    intros batch s x H Hx [Hb Hl]%Forall_cons; simpl; unfold mbind, M_bind.
  - destruct (syncPendingOperations_batch_removing sent q batch [] s x H Hx Hb)
      as (s1 & x1 & -> & H1 & Hx1 & Hm1 & _).
    simpl. by exists s1, x1.
  - destruct (syncPendingOperations_batch_removing sent q batch (batch' :: later)
                s x H Hx Hb) as (s1 & x1 & -> & H1 & Hx1 & Hm1 & Hc1).
    simpl. destruct (IH batch' s1 x1 H1 Hx1) as (s2 & x2 & -> & H2 & Hx2 & Hm2).
    { by rewrite Hc1. }
    exists s2, x2. split; [done|]. split; [done|]. split; [done|congruence].
Qed.

(** X14.  A pass in which every call succeeds takes out of the queue
    operations it has sent, and no other, in whatever order the operations
    of a batch go on: the driver is idle, the device online, the store
    answers every call and the API resolves every call.  The queue that is
    stored after the pass is a part of the queue the pass found, in the same
    order, and every operation the pass has not sent is still in it.  An
    operation that was sent can be in it too.  No retry timer is set. *)
Theorem successful_pass_removes_only_what_it_sent (s : Service)
    (q : list SyncOperation) :
  isSyncing s = false → online s → healthy s q →
  (0 < batchSize (config s))%nat →
  ∃ batches q',
    createBatches q (batchSize (config s)) = Some batches ∧
    result syncPendingOperations s = Normal Returned ∧
    stored_queue (storage (exec syncPendingOperations s)) = Some q' ∧
    sublist q' q ∧
    sublist (remaining (dispatched (config s) batches) q) q' ∧
    timers (exec syncPendingOperations s) = timers s.
Proof.
  intros Hidle (state & Hn & Hc & Hi) (Hr & Hs & Hq) Hb.
  destruct (createBatches_spec q _ Hb) as (batches & E & Hcat & Hj).
  exists batches.
  destruct (getSyncQueue_reliable _ q Hr Hq) as (st1 & E1 & Hr1 & Hq1).
  unfold exec, result, syncPendingOperations, syncPendingOperations_enter,
    syncPendingOperations_connectivity, checkConnectivity,
    Network_getNetworkStateAsync, gets, modify, pop, try_catch, mbind, M_bind,
    mret, M_ret, offlineStorage, zoom.
  rewrite Hidle; simpl; rewrite Hn; simpl; rewrite Hc, Hi; simpl.
  rewrite E1; simpl.
  destruct q as [|op q']; simpl.
  - unfold createBatches in E; simpl in E; injection E as <-; simpl.
    exists []. unfold stored_queue in *. simpl. rewrite Hq1.
    by repeat split.
  - rewrite E.
    match goal with |- context [syncPendingOperations_loop batches ?s0] =>
      destruct (syncPendingOperations_loop_run batches s0)
        as (s1 & new & E2 & _ & Hc1 & _ & _ & _ & _ & Hm1 & Hresp1 & Hkv1 & Ho1)
    end.
    rewrite E2. simpl in *.
    destruct batches as [|batch later]; [done|]. cbn [fst snd next_pass].
    destruct (resume_batches_removing (dispatched (config s) (batch :: later))
                (op :: q') batch later s1 (op :: q'))
      as (s2 & x2 & -> & (_ & _ & Hq2) & [Hx2 Hx2'] & Hm2).
    + split; [|split].
      * intros n. rewrite Ho1. apply Hr1.
      * intros n. rewrite Hresp1. apply Hs.
      * unfold stored_queue in *. by rewrite Hkv1.
    + apply between_refl.
    + rewrite Hc1. apply Forall_forall. intros b Hin op' Hop'.
      unfold dispatched. apply (elem_of_concat _ (selected (config s) b)); [done|].
      by apply list_elem_of_fmap_2.
    + exists x2. simpl. split; [done|]. split; [done|]. split; [done|].
      split; [done|]. split; [done|]. congruence.
Qed.

Lemma successful_pass_removes_only_what_it_sent_witness :
  ∃ q',
    stored_queue (storage (exec syncPendingOperations twelve_online)) = Some q' ∧
    sublist q' twelve_queued ∧
    sublist [numbered 3; numbered 4; numbered 5; numbered 6; numbered 7;
             numbered 8; numbered 9] q'.
Proof.
  destruct (successful_pass_removes_only_what_it_sent twelve_online twelve_queued)
    as (batches & q' & E & _ & Hq & H1 & H2 & _).
  - reflexivity.
  - eexists. repeat split; reflexivity.
  - split; [intros n; reflexivity|]. split; [intros n; eexists; reflexivity|reflexivity].
  - simpl. lia.
  - exists q'. split; [exact Hq|]. split; [exact H1|].
    vm_compute in E. injection E as <-. exact H2.
Defined.

(** Two operations are sent and both calls of the API succeed.  When each
    operation reads the queue before the other writes it, the write that
    comes last puts the other operation back: it stays in the queue.  When
    one operation is through before the other goes on, the queue is empty
    after the pass. *)
Example a_sent_operation_stays :
  id <$> default [] (stored_queue (storage (exec syncPendingOperations two_in_turn)))
  = ["op_0"] ∧
  requests (exec syncPendingOperations two_in_turn)
  = request_of <$> two_queued ∧
  stored_queue (storage (exec syncPendingOperations two_in_a_row)) = Some [].
Proof. vm_compute. by repeat split. Qed.

(** ** Retries and failed operations *)

Lemma getSyncQueue_read s q :
  stored_queue s = Some q →
  ∃ q' s', getSyncQueue s = (Normal (PQueue q'), s') ∧ (q' = q ∨ q' = []) ∧
           kv s' = kv s.
Proof.
  intros H.
  apply stored_queue_cases in H as [(ts & v & Ek)|[-> [Ek|Ek]]];
    unfold_store; answers s; eauto 10.
Qed.

Lemma list_find_absent operationId (q : list SyncOperation) :
  operationId ∉ id <$> q → list_find (λ op, id op = operationId) q = None.
Proof.
  intros Habs. apply list_find_None, Forall_forall. intros op Hop Hid.
  apply Habs. rewrite <- Hid. by apply list_elem_of_fmap_2.
Qed.

(** X15.  A retry timer that fires for an operation that is no longer in
    the queue does nothing, whatever the store answers: [retryOperation]
    returns without a request, a timer or an event, and the store holds what
    it held. *)
Theorem retryOperation_of_absent (operationId : string) (s : Service)
    (q : list SyncOperation) :
  stored_queue (storage s) = Some q → operationId ∉ id <$> q →
  let s' := exec (retryOperation operationId) s in
  result (retryOperation operationId) s = Normal tt ∧
  requests s' = requests s ∧ timers s' = timers s ∧ events s' = events s ∧
  kv (storage s') = kv (storage s).
Proof.
  intros Hq Habs.
  destruct (getSyncQueue_read _ _ Hq) as (q' & st1 & E & Hq' & Hkv).
  unfold retryOperation, exec, result, offlineStorage, zoom, mbind, M_bind. simpl.
  rewrite E. simpl.
  rewrite list_find_absent; [by repeat split|].
  destruct Hq' as [->| ->]; [done|]. simpl. apply not_elem_of_nil.
Qed.

Lemma retryOperation_of_absent_witness :
  requests (exec (retryOperation "op_0") idle_online) = [].
Proof.
  destruct (retryOperation_of_absent "op_0" idle_online [course_42])
    as (_ & H & _).
  - reflexivity.
  - vm_compute. intros H. apply list_elem_of_singleton in H. discriminate.
  - exact H.
Defined.

Lemma filter_ext_in {A} (P Q : A → Prop) `{!∀ x, Decision (P x), !∀ x, Decision (Q x)}
    (l : list A) :
  (∀ x, x ∈ l → P x ↔ Q x) → filter P l = filter Q l.
Proof.
  induction l as [|x l IH]; intros Hl; [done|].
  rewrite !filter_cons.
  pose proof (Hl x (list_elem_of_here _ _)) as Hx.
  rewrite IH by (intros y Hy; apply Hl; by apply list_elem_of_further).
  destruct (decide (P x)), (decide (Q x)); tauto.
Qed.

Lemma for_each_removeFromSyncQueue l s q :
  reliable (storage s) → stored_queue (storage s) = Some q →
  ∃ s', for_each (λ op, offlineStorage (removeFromSyncQueue (id op))) l s
        = (Normal tt, s') ∧
        reliable (storage s') ∧ stored_queue (storage s') = Some (remaining l q).
Proof.
  revert s q. induction l as [|op l IH]; intros s q Hr Hq; simpl.
  - eexists. by rewrite remaining_nil.
  - unfold mbind, M_bind, offlineStorage at 1, zoom.
    destruct (removeFromSyncQueue_reliable (id op) _ _ Hr Hq) as (st1 & -> & Hr1 & Hq1).
    destruct (IH (set_storage st1 s) _ Hr1 Hq1) as (s2 & -> & Hr2 & Hq2).
    eexists. split; [done|]. by rewrite remaining_cons.
Qed.

(** X16.  With a store that answers every call, [clearFailedOperations]
    leaves no operation in the queue that has used up its retries; the
    operations it keeps are in their order, and when no two operations of
    the queue have the same id it keeps every operation that has retries
    left. *)
Theorem clearFailedOperations_clears (s : Service) (q : list SyncOperation) :
  reliable (storage s) → stored_queue (storage s) = Some q →
  ∃ q',
    result SyncControl.clearFailedOperations s = Normal tt ∧
    stored_queue (storage (exec SyncControl.clearFailedOperations s)) = Some q' ∧
    sublist q' q ∧
    Forall (λ op, (retries op < maxRetries op)%nat) q' ∧
    (NoDup (id <$> q) → q' = filter (λ op, (retries op < maxRetries op)%nat) q).
Proof.
  intros Hr Hq. set (failed := filter (λ op, (maxRetries op ≤ retries op)%nat) q).
  exists (remaining failed q).
  destruct (getSyncQueue_reliable _ _ Hr Hq) as (st1 & E1 & Hr1 & Hq1).
  destruct (for_each_removeFromSyncQueue failed (set_storage st1 s) q Hr1 Hq1)
    as (s2 & E2 & Hr2 & Hq2).
  unfold SyncControl.clearFailedOperations, getFailedOperations, exec, result,
    offlineStorage, zoom, mbind, M_bind in *.
  rewrite E1. simpl. fold failed. rewrite E2.
  unfold_service. split; [done|]. split; [done|]. split; [apply sublist_filter|].
  split.
  - apply Forall_forall. intros op [Hid Hop]%list_elem_of_filter.
    destruct (decide (retries op < maxRetries op)%nat) as [|Hge]; [done|].
    destruct Hid. apply list_elem_of_fmap_2, list_elem_of_filter. split; [lia|done].
  - intros Hnd. unfold remaining. apply filter_ext_in.
    intros op Hop. split.
    + intros Hid. destruct (decide (retries op < maxRetries op)%nat) as [|Hge]; [done|].
      destruct Hid. apply list_elem_of_fmap_2, list_elem_of_filter. split; [lia|done].
    + intros Hlt [op' [Hid [Hf Hop']%list_elem_of_filter]]%list_elem_of_fmap.
      assert (op = op'); [|subst; lia].
      apply list_elem_of_lookup_1 in Hop as [i Hi], Hop' as [j Hj].
      assert (i = j); [|congruence].
      eapply NoDup_lookup; [exact Hnd| |]; rewrite list_lookup_fmap.
      * by rewrite Hi.
      * rewrite Hj. simpl. by rewrite Hid.
Qed.

Lemma clearFailedOperations_clears_witness :
  stored_queue
    (storage (exec SyncControl.clearFailedOperations
                (set_storage (store_with StoreSpec.twice_queued) idle_online)))
  = Some [StoreSpec.fresh_read].
Proof.
  destruct (clearFailedOperations_clears
              (set_storage (store_with StoreSpec.twice_queued) idle_online)
              StoreSpec.twice_queued) as (q' & _ & Hq & _ & _ & Hnd).
  - intros n. reflexivity.
  - reflexivity.
  - rewrite Hq. f_equal. apply Hnd. vm_compute.
    repeat constructor; rewrite ?elem_of_cons; try apply not_elem_of_nil.
    intros [H|H]; [discriminate|by apply not_elem_of_nil in H].
Defined.

End PassFacts.

Module ControlFacts.
Import OfflineStorage SyncService QueueSpec DriverSpec SyncControl ControlSpec.
Import SyncServiceFacts.

Ltac unfold_control :=
  unfold startAutoSync, stopAutoSync, clearInterval,
    setInterval_syncPendingOperations, addEventListener, removeEventListener,
    driver in *;
  unfold_service.

(** ** Listeners *)

Lemma register_run call c :
  ∃ c', register call c = (Normal tt, c') ∧
        service c' = service c ∧ delivered c' = delivered c ∧
        syncIntervalId c' = syncIntervalId c ∧ intervals c' = intervals c ∧
        reaction c' = reaction c.
Proof.
  destruct call as [listener|listener]; unfold register; unfold_control.
  - eexists. split; [reflexivity|]. by repeat split.
  - destruct (decide _); simpl; eexists; (split; [reflexivity|]); by repeat split.
Qed.

Lemma for_each_register calls c :
  ∃ c', for_each register calls c = (Normal tt, c') ∧
        service c' = service c ∧ delivered c' = delivered c ∧
        syncIntervalId c' = syncIntervalId c ∧ intervals c' = intervals c ∧
        reaction c' = reaction c.
Proof.
  revert c. induction calls as [|call calls IH]; intros c; simpl.
  - by eexists.
  - unfold mbind, M_bind.
    destruct (register_run call c) as (c1 & -> & Hs & Hd & Hi & Ht & Hr).
    destruct (IH c1) as (c2 & -> & Hs2 & Hd2 & Hi2 & Ht2 & Hr2).
    eexists. split; [done|]. repeat split; congruence.
Qed.

Lemma notify_run event listener c :
  ∃ c', notify event listener c = (Normal tt, c') ∧
        delivered c' = delivered c ++ [(listener, event)] ∧
        log (storage (service c'))
        = log (storage (service c)) ++
          match (reaction c listener event).2 with
          | Some thrown => [{| level := Error; text := "Error in sync event listener:";
                               detail := Some thrown |}]
          | None => []
          end ∧
        config (service c') = config (service c) ∧
        events (service c') = events (service c) ∧
        syncIntervalId c' = syncIntervalId c ∧ intervals c' = intervals c ∧
        reaction c' = reaction c ∧
        ((reaction c listener event).1 = [] → eventListeners c' = eventListeners c).
Proof.
  unfold notify, try_catch, modify, gets, mbind, M_bind. simpl.
  match goal with |- context [for_each register ?calls ?x] =>
    destruct (for_each_register calls x) as (c1 & E & Hs & Hd & Hi & Ht & Hr)
  end.
  assert ((reaction c listener event).1 = [] →
          eventListeners c1 = eventListeners c) as Hkept.
  { intros Hnil. rewrite Hnil in E. simpl in E. by injection E as <-. }
  rewrite E. simpl in *.
  destruct (reaction c listener event).2 as [thrown|]; unfold_control.
  - eexists. split; [reflexivity|]. simpl. rewrite Hs.
    repeat split; try done.
  - eexists. split; [reflexivity|]. simpl. rewrite Hs, app_nil_r.
    repeat split; try done.
Qed.

Lemma forEach_listener_run event index count c :
  ∃ c', forEach_listener (notify event) index count c = (Normal tt, c') ∧
        config (service c') = config (service c) ∧
        events (service c') = events (service c) ∧
        syncIntervalId c' = syncIntervalId c ∧ intervals c' = intervals c ∧
        reaction c' = reaction c.
Proof.
  revert index c. induction count as [|count IH]; intros index c; simpl.
  - by eexists.
  - unfold gets, mbind, M_bind.
    destruct (eventListeners c !! index) as [listener|].
    + destruct (notify_run event listener c)
        as (c1 & -> & _ & _ & Hc & He & Hi & Ht & Hr & _).
      destruct (IH (S index) c1) as (c2 & -> & Hc2 & He2 & Hi2 & Ht2 & Hr2).
      eexists. split; [done|]. repeat split; congruence.
    + simpl. destruct (IH (S index) c) as (c2 & -> & ?). by eexists.
Qed.

Lemma forEach_listener_kept event index count c :
  registrations_kept event c →
  ∃ c', forEach_listener (notify event) index count c = (Normal tt, c') ∧
        delivered c' = delivered c ++
          ((λ listener, (listener, event))
             <$> take count (drop index (eventListeners c))) ∧
        log (storage (service c'))
        = log (storage (service c)) ++
          omap (λ listener,
                  (λ thrown, {| level := Error; text := "Error in sync event listener:";
                                detail := Some thrown |})
                  <$> (reaction c listener event).2)
            (take count (drop index (eventListeners c))) ∧
        eventListeners c' = eventListeners c.
Proof.
  revert index c. induction count as [|count IH]; intros index c Hkept; simpl.
  - eexists. split; [done|]. rewrite !app_nil_r. by repeat split.
  - unfold gets, mbind, M_bind.
    destruct (eventListeners c !! index) as [listener|] eqn:El.
    + destruct (notify_run event listener c)
        as (c1 & -> & Hd & Hl & _ & _ & _ & _ & Hr & Hls).
      specialize (Hls (Hkept listener (list_elem_of_lookup_2 _ _ _ El))).
      destruct (IH (S index) c1) as (c2 & -> & Hd2 & Hl2 & Hls2).
      { intros x Hx. rewrite Hr. apply Hkept. by rewrite <- Hls. }
      eexists. split; [done|].
      rewrite (drop_S _ _ _ El). simpl.
      rewrite Hd2, Hl2, Hd, Hl, Hls, Hr, Hls2, <- !app_assoc.
      repeat split; try done.
      by destruct (reaction c listener event).2.
    + simpl. destruct (IH (S index) c Hkept) as (c2 & -> & Hd2 & Hl2 & Hls2).
      eexists. split; [done|].
      apply lookup_ge_None in El.
      rewrite drop_ge in Hd2, Hl2 by lia. rewrite drop_ge by lia.
      rewrite take_nil in *. by repeat split.
Qed.

Lemma emitEvent_run event c :
  ∃ c', SyncControl.emitEvent event c = (Normal tt, c') ∧
        config (service c') = config (service c) ∧
        events (service c') = events (service c) ++ [event] ∧
        syncIntervalId c' = syncIntervalId c ∧ intervals c' = intervals c.
Proof.
  unfold SyncControl.emitEvent, SyncService.emitEvent, driver, zoom, modify, gets,
    mbind, M_bind. simpl.
  match goal with |- context [forEach_listener _ _ ?count ?x] =>
    destruct (forEach_listener_run event 0 count x)
      as (c2 & -> & Hc2 & He2 & Hi2 & Ht2 & _)
  end.
  eexists. split; [done|]. by repeat split.
Qed.

(** X17.  [emitEvent] never throws, whatever the listeners do.  When no
    registered listener calls the driver during the broadcast, to register
    or unregister a listener, [emitEvent] calls every registered listener
    with the event, once for each time it is registered and in the order of
    registration, also after a listener has thrown; for every listener that
    throws, one error goes to the log; the registrations are as before. *)
Theorem emitEvent_reaches_every_listener (event : SyncEvent) (c : Controller) :
  let c' := exec (SyncControl.emitEvent event) c in
  result (SyncControl.emitEvent event) c = Normal tt ∧
  (registrations_kept event c →
   delivered c' = delivered c ++ ((λ listener, (listener, event)) <$> eventListeners c) ∧
   log (storage (service c')) = log (storage (service c)) ++ listener_errors event c ∧
   eventListeners c' = eventListeners c).
Proof.
  simpl. split.
  { destruct (emitEvent_run event c) as (c' & E & _). unfold result. by rewrite E. }
  intros Hkept.
  unfold exec, SyncControl.emitEvent, SyncService.emitEvent, driver, zoom, modify,
    gets, mbind, M_bind. simpl.
  match goal with |- context [forEach_listener _ _ ?count ?x] =>
    destruct (forEach_listener_kept event 0 count x Hkept)
      as (c2 & -> & Hd2 & Hl2 & Hls2)
  end.
  simpl in *. rewrite drop_0, firstn_all in Hd2, Hl2. by repeat split.
Qed.

Lemma emitEvent_reaches_every_listener_witness :
  delivered (exec (SyncControl.emitEvent sync_started) new_controller)
  = [(0%nat, sync_started); (1%nat, sync_started); (2%nat, sync_started)] ∧
  eventListeners (exec (SyncControl.emitEvent sync_started) new_controller)
  = [0; 1; 2]%nat.
Proof.
  destruct (emitEvent_reaches_every_listener sync_started new_controller) as [_ H].
  destruct H as (Hd & _ & Hls).
  - intros listener _. by destruct listener as [|[|?]].
  - split; [exact Hd|exact Hls].
Defined.

(** A listener that unregisters itself when it is called makes the
    broadcast pass over the listener registered after it: the array is one
    shorter when the loop comes to the next index. *)
Example emitEvent_passes_over_a_listener :
  delivered (exec (SyncControl.emitEvent sync_started) first_listens_once)
  = [(0%nat, sync_started); (2%nat, sync_started)] ∧
  eventListeners (exec (SyncControl.emitEvent sync_started) first_listens_once)
  = [1; 2]%nat.
Proof. vm_compute. by split. Qed.

Lemma listener_indexOf_absent listener listeners :
  listener ∉ listeners → listener_indexOf listener listeners = -1.
Proof.
  induction listeners as [|x l IH]; simpl; [done|].
  rewrite not_elem_of_cons. intros [Hne Hl].
  rewrite decide_False by done. rewrite IH by done. done.
Qed.

Lemma listener_indexOf_first listener l1 l2 :
  listener ∉ l1 →
  listener_indexOf listener (l1 ++ listener :: l2) = Z.of_nat (length l1).
Proof.
  induction l1 as [|x l IH]; simpl.
  - intros _. by rewrite decide_True.
  - rewrite not_elem_of_cons. intros [Hne Hl].
    rewrite decide_False by done. rewrite IH by done.
    rewrite decide_False by lia. lia.
Qed.

(** X18.  [removeEventListener] removes one registration of the listener,
    the earliest, and leaves the other registrations in their order; for a
    listener that is not registered it changes nothing.  So a listener that
    is added and then removed leaves the registrations as they were. *)
Theorem removeEventListener_removes_earliest (listener : nat) (c : Controller) :
  (listener ∉ eventListeners c →
   exec (removeEventListener listener) c = c) ∧
  (∀ l1 l2, eventListeners c = l1 ++ listener :: l2 → listener ∉ l1 →
     eventListeners (exec (removeEventListener listener) c) = l1 ++ l2) ∧
  (listener ∉ eventListeners c →
   eventListeners (exec (addEventListener listener;; removeEventListener listener) c)
   = eventListeners c).
Proof.
  assert (∀ c l1 l2, eventListeners c = l1 ++ listener :: l2 → listener ∉ l1 →
            eventListeners (exec (removeEventListener listener) c) = l1 ++ l2) as Hfirst.
  { intros c0 l1 l2 E Hl1. unfold_control. rewrite E.
    rewrite listener_indexOf_first by done.
    rewrite decide_True by lia. simpl. rewrite E. unfold splice_one.
    rewrite Nat2Z.id, take_app_length.
    replace (S (length l1)) with (length l1 + 1)%nat by lia.
    by rewrite drop_app_add. }
  split; [|split].
  - intros Habs. unfold_control. rewrite listener_indexOf_absent by done.
    by rewrite decide_False by lia.
  - apply Hfirst.
  - intros Habs.
    replace (exec (addEventListener listener;; removeEventListener listener) c)
      with (exec (removeEventListener listener) (exec (addEventListener listener) c))
      by done.
    rewrite (Hfirst _ (eventListeners c) []); [by rewrite app_nil_r| |done].
    done.
Qed.

Lemma removeEventListener_removes_earliest_witness :
  eventListeners (exec (removeEventListener 1%nat) new_controller) = [0; 2]%nat.
Proof.
  destruct (removeEventListener_removes_earliest 1%nat new_controller) as (_ & H & _).
  apply (H [0%nat] [2%nat]).
  - reflexivity.
  - vm_compute. intros Hin. apply list_elem_of_singleton in Hin. discriminate.
Defined.

(** ** The periodic timer *)

Lemma startAutoSync_run c :
  one_timer c →
  ∃ c', startAutoSync c = (Normal tt, c') ∧ one_timer c' ∧
        is_Some (syncIntervalId c') ∧
        config (service c') = config (service c) ∧
        (is_Some (syncIntervalId c) →
         intervals c' = intervals c ∧ syncIntervalId c' = syncIntervalId c ∧
         events (service c') = events (service c) ∧ delivered c' = delivered c) ∧
        (syncIntervalId c = None →
         ∃ now, events (service c') = events (service c) ++
                  [{| ev_type := syncStarted; ev_operationId := None;
                      ev_data := None; ev_error := None; ev_timestamp := now |}]).
Proof.
  unfold one_timer. intros H. unfold startAutoSync, gets, mbind, M_bind.
  destruct (syncIntervalId c) as [handle|] eqn:Hid.
  - unfold_control. rewrite ?Hid. eexists. split; [done|]. simpl. rewrite ?Hid.
    repeat split; done.
  - unfold setInterval_syncPendingOperations, driver, zoom, modify, pop,
      SyncService.logger, SyncService.Date_now, offlineStorage, zoom,
      OfflineStorage.logger, OfflineStorage.Date_now, modify, pop. simpl.
    match goal with |- context [SyncControl.emitEvent ?ev ?x] =>
      destruct (emitEvent_run ev x) as (c' & -> & Hc & He & Hi & Ht)
    end.
    simpl in *. eexists. split; [done|]. rewrite Hi, Ht, Hc, H. simpl.
    split; [done|]. split; [by eexists|]. split; [done|].
    split; [by intros [? ?]|]. intros _. eexists. exact He.
Qed.

Lemma stopAutoSync_run c :
  one_timer c →
  ∃ c', stopAutoSync c = (Normal tt, c') ∧
        syncIntervalId c' = None ∧ intervals c' = [] ∧
        config (service c') = config (service c) ∧
        events (service c') = events (service c).
Proof.
  unfold one_timer. intros H. unfold_control.
  destruct (syncIntervalId c) as [handle|] eqn:Hid; simpl.
  - eexists. split; [done|]. simpl. rewrite H.
    rewrite filter_cons_False by (simpl; intros Hne; by apply Hne).
    by repeat split.
  - eexists. split; [done|]. by repeat split.
Qed.

Lemma run_autoSyncs_one_timer commands c :
  one_timer c →
  one_timer (run_autoSyncs commands c) ∧
  config (service (run_autoSyncs commands c)) = config (service c).
Proof.
  revert c. induction commands as [|command commands IH]; intros c H; [done|].
  simpl. destruct command; simpl; unfold exec.
  - destruct (startAutoSync_run c H) as (c' & -> & H' & _ & Hc & _).
    destruct (IH c' H') as [H1 H2]. split; [exact H1|].
    etrans; [exact H2|exact Hc].
  - destruct (stopAutoSync_run c H) as (c' & -> & Hi & Ht & Hc & _).
    destruct (IH c') as [H1 H2].
    + unfold one_timer. by rewrite Hi.
    + split; [exact H1|]. etrans; [exact H2|exact Hc].
Qed.

(** X19.  However [startAutoSync] and [stopAutoSync] are called on a driver
    without a timer, the driver has at most one periodic timer: none when
    the handle it keeps is null, and else the one with that handle, whose
    period is the [syncInterval] of the configuration.  A [startAutoSync]
    while a timer runs installs no timer and emits no event, and
    [stopAutoSync] leaves no timer. *)
Theorem autoSync_has_one_timer (commands : list AutoSync) (c : Controller) :
  syncIntervalId c = None → intervals c = [] →
  let c' := run_autoSyncs commands c in
  one_timer c' ∧
  (length (intervals c') ≤ 1)%nat ∧
  (is_Some (syncIntervalId c') →
   intervals (exec startAutoSync c') = intervals c' ∧
   events (service (exec startAutoSync c')) = events (service c')) ∧
  intervals (exec stopAutoSync c') = [] ∧
  syncIntervalId (exec stopAutoSync c') = None.
Proof.
  intros Hid Ht. simpl.
  destruct (run_autoSyncs_one_timer commands c) as [H _].
  { unfold one_timer. by rewrite Hid. }
  split; [done|]. split.
  { unfold one_timer in H. case_match; rewrite H; simpl; lia. }
  unfold exec.
  destruct (startAutoSync_run _ H) as (c1 & -> & _ & _ & _ & Hsame & _).
  destruct (stopAutoSync_run _ H) as (c2 & -> & Hi2 & Ht2 & _).
  simpl. split; [|done]. intros Hsome. by destruct (Hsame Hsome) as (? & _ & ? & _).
Qed.

Lemma autoSync_has_one_timer_witness :
  one_timer (run_autoSyncs [Start; Start; Stop; Start] new_controller) ∧
  (length (intervals (run_autoSyncs [Start; Start; Stop; Start] new_controller)) ≤ 1)%nat.
Proof.
  destruct (autoSync_has_one_timer [Start; Start; Stop; Start] new_controller)
    as (H1 & H2 & _).
  - reflexivity.
  - reflexivity.
  - split; [exact H1|exact H2].
Defined.

End ControlFacts.

(* ===================================================================== *)
(** * Further properties of the offline data cache *)
(* ===================================================================== *)

Module CacheEditFacts.
Import OfflineStorage useOfflineData CacheEdits QueueSpec CacheSpec.
Import OfflineStorageFacts CacheFacts.

#[local] Arguments addToSyncQueue : simpl never.
#[local] Arguments store : simpl never.
#[local] Arguments remove : simpl never.

Ltac unfold_edits :=
  unfold updateItem, CacheEdits.clearAll in *; unfold_hook.

(** ** Saving *)

(** X20.  [saveData] persists the dictionary before it shows it: when the
    store accepts the write, the store and the state of the hook both hold
    the new dictionary; when the store rejects it, [saveData] throws what
    the store rejected with, and the store and the state hold what they
    held. *)
Theorem saveData_persists_first (dataType : string) (newData : Dict) (h : Hook) :
  (outcomes (storage h) 0%nat = None →
   result (saveData dataType newData) h = Normal tt ∧
   data (exec (saveData dataType newData) h) = newData ∧
   ∃ item, kv (storage (exec (saveData dataType newData) h)) !! dataType
           = Some (Json item) ∧ st_data item = PDict newData) ∧
  (∀ e, outcomes (storage h) 0%nat = Some e →
     result (saveData dataType newData) h = Throw e ∧
     data (exec (saveData dataType newData) h) = data h ∧
     kv (storage (exec (saveData dataType newData) h)) = kv (storage h)).
Proof.
  split.
  - intros Ho. unfold_hook. store_call store_accepted.
    split; [done|]. split; [done|]. eexists.
    match goal with H : kv _ = _ ∧ _ |- _ => destruct H as [-> _] end.
    by rewrite lookup_insert_eq.
  - intros e Ho. unfold_hook.
    match goal with |- context [store ?key ?d ?v ?st] =>
      destruct (store_rejected key d v st e) as (st1 & -> & Hkv & _); [done|]
    end.
    simpl. by rewrite Hkv.
Qed.

Lemma saveData_persists_first_witness :
  result (saveData "courses" synced_then_pending) (fresh_hook []) = Normal tt ∧
  data (exec (saveData "courses" synced_then_pending) (fresh_hook []))
  = synced_then_pending.
Proof.
  destruct (saveData_persists_first "courses" synced_then_pending (fresh_hook []))
    as [H _].
  destruct H as (H1 & H2 & _).
  - reflexivity.
  - split; [exact H1|exact H2].
Defined.

(** ** Updating and deleting *)

Lemma obj_get_delete {V} key k (obj : list (string * V)) :
  obj_get key (obj_delete k obj) = if decide (key = k) then None else obj_get key obj.
Proof.
  unfold obj_delete. induction obj as [|[k' v] obj IH]; simpl; [by case_decide|].
  rewrite filter_cons. simpl.
  repeat (case_decide; simplify_eq/=); try done.
  all: by rewrite ?decide_True, ?decide_False in IH by done.
Qed.

(** X21.  [updateItem] for an id that the dictionary of the render does
    not hold, and that is not the name of a member of [Object.prototype],
    throws an error that names the id; the store is not called, and the
    dictionary and the stored data are as before. *)
Theorem updateItem_of_absent (dataType : string) (data : Dict) (isOnline : bool)
    (id : string) (itemData : Data) (h : Hook) :
  obj_get id data = None → id ∉ Object_prototype →
  let h' := exec (updateItem dataType data isOnline id itemData) h in
  result (updateItem dataType data isOnline id itemData) h
  = Throw (JsError ("Item with id " +:+ id +:+ " not found")) ∧
  useOfflineData.data h' = useOfflineData.data h ∧
  kv (storage h') = kv (storage h) ∧
  outcomes (storage h') = outcomes (storage h).
Proof.
  intros H Hp. unfold_edits. rewrite (obj_lookup_missing _ _ H Hp). simpl.
  by repeat split.
Qed.

Lemma updateItem_of_absent_witness :
  result (updateItem "courses" synced_then_pending true "c" (DObject []))
    (fresh_hook synced_then_pending)
  = Throw (JsError "Item with id c not found").
Proof.
  destruct (updateItem_of_absent "courses" synced_then_pending true "c" (DObject [])
              (fresh_hook synced_then_pending)) as [H _].
  - reflexivity.
  - apply (bool_decide_unpack _). by vm_compute.
  - exact H.
Defined.

(** For the name of a member of [Object.prototype] that the dictionary does
    not hold, [updateItem] does not throw: it takes the member for the
    record, and saves under that name a record without id whose data are
    those of the update. *)
Example updateItem_of_inherited :
  result (updateItem "courses" [] false "toString"
            (DObject [("title", VPrim (PStr "Sets"))])) (fresh_hook [])
  = Normal tt ∧
  useOfflineData.data
    (exec (updateItem "courses" [] false "toString"
             (DObject [("title", VPrim (PStr "Sets"))])) (fresh_hook []))
  = [("toString",
      {| item_id := None; item_data := DObject [("title", VPrim (PStr "Sets"))];
         status := pending; lastModified := Some 1700000000001;
         syncAttempts := Some 0%nat; errorMessage := None |})].
Proof. vm_compute. by split. Qed.

(** X22.  [updateItem] for a record of the dictionary, when the store
    accepts the write of the dictionary: the record is pending again with
    no sync attempt, and keeps its id and its error message; its data are
    the properties of the old data and of the update, with the value of the
    update where both have the key; the other records are as they were. *)
Theorem updateItem_merges (dataType : string) (data : Dict) (isOnline : bool)
    (id : string) (item : OfflineDataItem) (old new : list (string * Value))
    (h : Hook) :
  obj_get id data = Some item → item_data item = DObject old →
  NoDup new.*1 → outcomes (storage h) 0%nat = None →
  let h' := exec (updateItem dataType data isOnline id (DObject new)) h in
  (∃ item' merged,
     obj_get id (useOfflineData.data h') = Some item' ∧
     status item' = pending ∧ syncAttempts item' = Some 0%nat ∧
     item_id item' = item_id item ∧ errorMessage item' = errorMessage item ∧
     item_data item' = DObject merged ∧
     ∀ key, obj_get key merged = match obj_get key new with
                                 | Some v => Some v
                                 | None => obj_get key old
                                 end) ∧
  (∀ id', id' ≠ id → obj_get id' (useOfflineData.data h') = obj_get id' data).
Proof.
  intros Hitem Hold Hnd Ho. unfold_edits. rewrite (obj_lookup_own _ _ _ Hitem). simpl.
  store_call store_accepted.
  assert (∀ key, obj_get key (spread new old) = match obj_get key new with
                                                | Some v => Some v
                                                | None => obj_get key old
                                                end) as Hmerged.
  { intros key. by apply ConflictFacts.obj_get_spread. }
  rewrite Hold. simpl.
  destruct isOnline; simpl.
  - match goal with |- context [addToSyncQueue ?op ?st] =>
      destruct (addToSyncQueue op st) as [[?|?] ?]
    end; simpl; rewrite obj_get_set_eq.
    all: split; [eauto 10|]; intros id' Hne;
      rewrite ConflictFacts.obj_get_set; by rewrite decide_False.
  - rewrite obj_get_set_eq. split; [eauto 10|]. intros id' Hne.
    rewrite ConflictFacts.obj_get_set. by rewrite decide_False.
Qed.

Lemma updateItem_merges_witness :
  ∃ item', obj_get "b" (useOfflineData.data
             (exec (updateItem "courses" synced_then_pending false "b"
                      (DObject [("title", VPrim (PStr "Sets"))]))
                (fresh_hook synced_then_pending))) = Some item' ∧
           item_data item' = DObject [("title", VPrim (PStr "Sets"))].
Proof.
  destruct (updateItem_merges "courses" synced_then_pending false "b"
              (record "b" pending) [("title", VPrim (PStr "b"))]
              [("title", VPrim (PStr "Sets"))] (fresh_hook synced_then_pending))
    as [(item' & merged & H1 & _) _].
  - reflexivity.
  - reflexivity.
  - simpl. repeat constructor. apply not_elem_of_nil.
  - reflexivity.
  - exists item'. split; [exact H1|].
    vm_compute in H1. injection H1 as <-. reflexivity.
Defined.

(** X23.  [deleteItem], when the store accepts the write of the
    dictionary: the dictionary no longer has the id, and the other records
    are as they were; this is so online and offline, and whatever becomes of
    the enqueue. *)
Theorem deleteItem_removes (dataType : string) (data : Dict) (isOnline : bool)
    (id : string) (h : Hook) :
  outcomes (storage h) 0%nat = None →
  let h' := exec (deleteItem dataType data isOnline id) h in
  obj_get id (useOfflineData.data h') = None ∧
  (∀ id', id' ≠ id → obj_get id' (useOfflineData.data h') = obj_get id' data).
Proof.
  intros Ho. unfold_hook. store_call store_accepted.
  destruct isOnline; simpl.
  - match goal with |- context [addToSyncQueue ?op ?st] =>
      destruct (addToSyncQueue op st) as [[?|?] ?]
    end; simpl; rewrite obj_get_delete, decide_True by done.
    all: split; [done|]; intros id' Hne; by rewrite obj_get_delete, decide_False.
  - rewrite obj_get_delete, decide_True by done.
    split; [done|]. intros id' Hne. by rewrite obj_get_delete, decide_False.
Qed.

Lemma deleteItem_removes_witness :
  obj_get "a" (useOfflineData.data
                 (exec (deleteItem "courses" synced_then_pending true "a")
                    (fresh_hook synced_then_pending))) = None.
Proof.
  destruct (deleteItem_removes "courses" synced_then_pending true "a"
              (fresh_hook synced_then_pending)) as [H _].
  - reflexivity.
  - exact H.
Defined.

(** ** What goes to the sync queue *)

Lemma saveData_accepted dataType newData h :
  outcomes (storage h) 0%nat = None →
  ∃ st, saveData dataType newData h
        = (Normal tt, {| storage := st; useOfflineData.data := newData;
                         isSyncing := isSyncing h |}) ∧
        (∀ key, key ≠ dataType → kv st !! key = kv (storage h) !! key) ∧
        outcomes st = λ n, outcomes (storage h) (S n).
Proof.
  intros Ho. unfold_hook. store_call store_accepted.
  match goal with H : kv _ = _ ∧ _ |- _ => destruct H as [Hkv Hout] end.
  eexists. split; [done|]. simpl. split; [|done].
  intros key Hne. rewrite Hkv. by rewrite lookup_insert_ne.
Qed.

Lemma enqueue_after_save operation st0 st q :
  (∀ n, outcomes st n = None) →
  kv st !! SYNC_QUEUE = kv st0 !! SYNC_QUEUE → stored_queue st0 = Some q →
  ∃ syncOp st', addToSyncQueue operation st = (Normal (id syncOp), st') ∧
    enqueued operation syncOp ∧
    stored_queue st' = Some (Array_sort compareOperations (q ++ [syncOp])).
Proof.
  intros Hr Hkv Hq.
  destruct (addToSyncQueue_reliable operation st q Hr) as (st' & E & _ & Hq').
  { unfold stored_queue in *. by rewrite Hkv. }
  eexists _, st'. split; [exact E|]. split; [by repeat split|done].
Qed.

(** X24.  Offline, [addItem], [updateItem] and [deleteItem] leave the sync
    queue as it is.  Online, with a store that answers every call and a
    data type that is not the key of the queue, each of them adds one
    operation to the queue, for the endpoint of the record: a [CREATE] of
    high priority with the data of the item; for a record whose data are
    an object and an update that is an object, an [UPDATE] of medium
    priority with the properties of both, those of the update first; a
    [DELETE] of medium priority without data. *)
Theorem edits_enqueue_when_online (dataType : string) (data : Dict) (id : string)
    (itemData : Data) (q : list SyncOperation) (h : Hook) :
  dataType ≠ SYNC_QUEUE →
  reliable (storage h) → stored_queue (storage h) = Some q →
  (stored_queue (storage (exec (addItem dataType data false id itemData) h)) = Some q ∧
   stored_queue (storage (exec (updateItem dataType data false id itemData) h)) = Some q ∧
   stored_queue (storage (exec (deleteItem dataType data false id) h)) = Some q) ∧
  (∃ syncOp,
     stored_queue (storage (exec (addItem dataType data true id itemData) h))
     = Some (Array_sort compareOperations (q ++ [syncOp])) ∧
     enqueued {| in_type := CREATE; in_endpoint := "/" +:+ dataType +:+ "/" +:+ id;
                 in_data := Some itemData; in_priority := high |} syncOp) ∧
  (∀ item old new, obj_get id data = Some item → item_data item = DObject old →
   ∃ syncOp,
     stored_queue (storage (exec (updateItem dataType data true id (DObject new)) h))
     = Some (Array_sort compareOperations (q ++ [syncOp])) ∧
     enqueued {| in_type := UPDATE; in_endpoint := "/" +:+ dataType +:+ "/" +:+ id;
                 in_data := Some (DObject (spread new old));
                 in_priority := medium |} syncOp) ∧
  (∃ syncOp,
     stored_queue (storage (exec (deleteItem dataType data true id) h))
     = Some (Array_sort compareOperations (q ++ [syncOp])) ∧
     enqueued {| in_type := DELETE; in_endpoint := "/" +:+ dataType +:+ "/" +:+ id;
                 in_data := None; in_priority := medium |} syncOp).
Proof.
  intros Hkey Hr Hq.
  assert (∀ newData (h0 : Hook),
            kv (storage h0) = kv (storage h) → reliable (storage h0) →
            ∃ st, saveData dataType newData h0
                  = (Normal tt, {| storage := st; useOfflineData.data := newData;
                                   isSyncing := isSyncing h0 |}) ∧
                  reliable st ∧ kv st !! SYNC_QUEUE = kv (storage h) !! SYNC_QUEUE)
    as Hsave.
  { intros newData h0 Hkv Hr0.
    destruct (saveData_accepted dataType newData h0 (Hr0 _)) as (st & E & Hk & Ho).
    exists st. split; [done|]. split.
    - intros n. rewrite Ho. apply Hr0.
    - rewrite Hk by done. by rewrite Hkv. }
  assert (∀ st, kv st !! SYNC_QUEUE = kv (storage h) !! SYNC_QUEUE →
                stored_queue st = Some q) as Hsame.
  { intros st Hk. unfold stored_queue in *. by rewrite Hk. }
  split; [split; [|split]|split; [|split]].
  - unfold addItem, try_catch, mbind, M_bind, exec, useOfflineData.Date_now,
      OfflineStorage.Date_now, offlineStorage, zoom, pop. simpl.
    match goal with |- context [saveData _ ?d ?x] =>
      destruct (Hsave d x) as (st & -> & _ & Hk); [done|intros n; apply Hr|]
    end.
    simpl. by apply Hsame.
  - unfold updateItem, try_catch, mbind, M_bind, exec, useOfflineData.Date_now,
      OfflineStorage.Date_now, offlineStorage, zoom, pop, throw,
      useOfflineData.logger, OfflineStorage.logger, modify.
    destruct (obj_lookup id data) as [item| |]; simpl; [| |by apply Hsame].
    all: match goal with |- context [saveData _ ?d ?x] =>
      destruct (Hsave d x) as (st & -> & _ & Hk); [done|intros n; apply Hr|]
    end.
    all: simpl; by apply Hsame.
  - unfold deleteItem, try_catch, mbind, M_bind, exec. simpl.
    match goal with |- context [saveData _ ?d ?x] =>
      destruct (Hsave d x) as (st & -> & _ & Hk); [done|done|]
    end.
    simpl. by apply Hsame.
  - unfold addItem, try_catch, mbind, M_bind, exec, useOfflineData.Date_now,
      OfflineStorage.Date_now, offlineStorage, zoom, pop. simpl.
    match goal with |- context [saveData _ ?d ?x] =>
      destruct (Hsave d x) as (st & -> & Hr1 & Hk); [done|intros n; apply Hr|]
    end.
    simpl.
    match goal with |- context [addToSyncQueue ?op st] =>
      destruct (enqueue_after_save op (storage h) st q Hr1 Hk Hq)
        as (syncOp & st' & -> & He & Hq')
    end.
    simpl. eauto.
  - intros item old new Hitem Hold.
    unfold updateItem, try_catch, mbind, M_bind, exec, useOfflineData.Date_now,
      OfflineStorage.Date_now, offlineStorage, zoom, pop.
    rewrite (obj_lookup_own _ _ _ Hitem). simpl. rewrite Hold. simpl.
    match goal with |- context [saveData _ ?d ?x] =>
      destruct (Hsave d x) as (st & -> & Hr1 & Hk); [done|intros n; apply Hr|]
    end.
    simpl.
    match goal with |- context [addToSyncQueue ?op st] =>
      destruct (enqueue_after_save op (storage h) st q Hr1 Hk Hq)
        as (syncOp & st' & -> & He & Hq')
    end.
    simpl. eauto.
  - unfold deleteItem, try_catch, mbind, M_bind, exec, offlineStorage, zoom. simpl.
    match goal with |- context [saveData _ ?d ?x] =>
      destruct (Hsave d x) as (st & -> & Hr1 & Hk); [done|done|]
    end.
    simpl.
    match goal with |- context [addToSyncQueue ?op st] =>
      destruct (enqueue_after_save op (storage h) st q Hr1 Hk Hq)
        as (syncOp & st' & -> & He & Hq')
    end.
    simpl. eauto.
Qed.

Lemma edits_enqueue_when_online_witness :
  ∃ syncOp,
    stored_queue
      (storage (exec (updateItem "courses" synced_then_pending true "b"
                        (DObject [("title", VPrim (PStr "Sets"))]))
                  (fresh_hook synced_then_pending)))
    = Some (Array_sort compareOperations ([] ++ [syncOp])) ∧
    enqueued {| in_type := UPDATE; in_endpoint := "/" +:+ "courses" +:+ "/" +:+ "b";
                in_data := Some (DObject (spread [("title", VPrim (PStr "Sets"))]
                                            [("title", VPrim (PStr "b"))]));
                in_priority := medium |} syncOp.
Proof.
  destruct (edits_enqueue_when_online "courses" synced_then_pending "b" (DObject []) []
              (fresh_hook synced_then_pending)) as (_ & _ & H & _).
  - discriminate.
  - intros n. reflexivity.
  - reflexivity.
  - apply (H (record "b" pending) [("title", VPrim (PStr "b"))]
             [("title", VPrim (PStr "Sets"))]); reflexivity.
Defined.

(** ** Syncing *)

(** X25.  [syncItem] for a record of the dictionary, with a store that
    answers every call and a data type that is not the key of the queue:
    an [UPDATE] of high priority with the data of the record is added to the
    sync queue, the record is pending with one sync attempt more, and the
    hook is not syncing when the call returns. *)
Theorem syncItem_enqueues (dataType : string) (data : Dict) (id : string)
    (item : OfflineDataItem) (q : list SyncOperation) (h : Hook) :
  dataType ≠ SYNC_QUEUE → obj_get id data = Some item →
  reliable (storage h) → stored_queue (storage h) = Some q →
  let h' := exec (syncItem dataType data id) h in
  result (syncItem dataType data id) h = Normal tt ∧
  (∃ syncOp,
     stored_queue (storage h') = Some (Array_sort compareOperations (q ++ [syncOp])) ∧
     enqueued {| in_type := UPDATE; in_endpoint := "/" +:+ dataType +:+ "/" +:+ id;
                 in_data := Some (item_data item); in_priority := high |} syncOp) ∧
  (∃ item', obj_get id (useOfflineData.data h') = Some item' ∧
            status item' = pending ∧
            syncAttempts item' = (λ n, (n + 1)%nat) <$> syncAttempts item ∧
            item_data item' = item_data item) ∧
  isSyncing h' = false.
Proof.
  intros Hkey Hitem Hr Hq.
  unfold syncItem, try_finally, try_catch, setIsSyncing, modify, mbind, M_bind,
    exec, result, offlineStorage, zoom. rewrite (obj_lookup_own _ _ _ Hitem). simpl.
  destruct (enqueue_after_save
              {| in_type := UPDATE; in_endpoint := endpoint_of dataType id;
                 in_data := Some (item_data item); in_priority := high |}
              (storage h) (storage h) q Hr eq_refl Hq)
    as (syncOp & st' & E & He & Hq').
  rewrite E. simpl.
  assert (reliable st') as Hr'.
  { destruct (addToSyncQueue_reliable
                {| in_type := UPDATE; in_endpoint := endpoint_of dataType id;
                   in_data := Some (item_data item); in_priority := high |}
                (storage h) q Hr Hq) as (st'' & E'' & Hr'' & _).
    rewrite E in E''. by injection E'' as _ <-. }
  match goal with |- context [saveData _ ?d ?x] =>
    destruct (saveData_accepted dataType d x (Hr' _)) as (st & -> & Hk & _)
  end.
  simpl. split; [done|]. split.
  - exists syncOp. split; [|done]. unfold stored_queue in *.
    rewrite Hk by done. done.
  - rewrite obj_get_set_eq. split; [|done]. eauto 10.
Qed.

Lemma syncItem_enqueues_witness :
  result (syncItem "courses" synced_then_pending "b") (fresh_hook synced_then_pending)
  = Normal tt ∧
  isSyncing (exec (syncItem "courses" synced_then_pending "b")
               (fresh_hook synced_then_pending)) = false.
Proof.
  destruct (syncItem_enqueues "courses" synced_then_pending "b" (record "b" pending) []
              (fresh_hook synced_then_pending)) as (H1 & _ & _ & H2).
  - discriminate.
  - reflexivity.
  - intros n. reflexivity.
  - reflexivity.
  - split; [exact H1|exact H2].
Defined.

(** X26.  The hook is never left syncing: when [syncAll] returns or throws,
    and when [syncItem] for a record of the dictionary returns or throws,
    [isSyncing] is false, whatever the store has answered. *)
Theorem syncing_flag_is_reset (dataType : string) (data : Dict) (id : string)
    (h : Hook) :
  isSyncing (exec (syncAll dataType data) h) = false ∧
  (is_Some (obj_get id data) → isSyncing (exec (syncItem dataType data id) h) = false).
Proof.
  split.
  - unfold syncAll, try_finally, exec, setIsSyncing, modify.
    by destruct (try_catch _ _ h).
  - intros [item Hitem]. unfold syncItem. rewrite (obj_lookup_own _ _ _ Hitem).
    unfold try_finally, exec, setIsSyncing, modify.
    by destruct (try_catch _ _ h).
Qed.

Lemma syncing_flag_is_reset_witness :
  isSyncing (exec (syncItem "courses" synced_then_pending "b")
               (second_call_rejected synced_then_pending)) = false.
Proof.
  destruct (syncing_flag_is_reset "courses" synced_then_pending "b"
              (second_call_rejected synced_then_pending)) as [_ H].
  apply H. eexists. reflexivity.
Defined.

Lemma imap_keys {A} (keys : list string) (l : list A) :
  (length l ≤ length keys)%nat →
  imap (λ index _, default "undefined" (keys !! index)) l = take (length l) keys.
Proof.
  revert keys. induction l as [|x l IH]; intros keys Hlen; [done|].
  destruct keys as [|key keys]; simpl in *; [lia|].
  f_equal. apply IH. lia.
Qed.

(** X27.  The ids [syncAll] passes to [syncItem] are the first [n] keys of
    the dictionary, [n] being the number of its pending records, whichever
    records those keys name.  With no pending record [syncAll] calls
    nothing: the store is not touched. *)
Theorem syncAll_takes_the_first_keys (dataType : string) (data : Dict) (h : Hook) :
  syncAll_calls data = take (length (pending_ids data)) (Object_keys data) ∧
  (pending_ids data = [] →
   result (syncAll dataType data) h = Normal tt ∧
   storage (exec (syncAll dataType data) h) = storage h ∧
   useOfflineData.data (exec (syncAll dataType data) h) = useOfflineData.data h).
Proof.
  assert (length (getItemsByStatus data pending) = length (pending_ids data)) as Hlen.
  { unfold getItemsByStatus, pending_ids, Object_values.
    unfold Dict in *. rewrite !length_fmap.
    induction data as [|[k item] l IH]; [done|].
    rewrite fmap_cons, !filter_cons. simpl.
    destruct (decide (status item = pending)); simpl; by rewrite IH. }
  assert (syncAll_calls data = take (length (pending_ids data)) (Object_keys data)) as Hcalls.
  { unfold syncAll_calls. rewrite imap_keys; [by rewrite Hlen|].
    rewrite Hlen. unfold pending_ids, Object_keys. rewrite !length_fmap.
    apply length_filter. }
  split; [done|]. intros Hnone.
  unfold syncAll. rewrite Hcalls, Hnone. simpl.
  by unfold_hook.
Qed.

Lemma syncAll_takes_the_first_keys_witness :
  result (syncAll "courses" [("a", record "a" synced)])
    (fresh_hook [("a", record "a" synced)]) = Normal tt.
Proof.
  destruct (syncAll_takes_the_first_keys "courses" [("a", record "a" synced)]
              (fresh_hook [("a", record "a" synced)])) as [_ H].
  destruct H as [H _].
  - reflexivity.
  - exact H.
Defined.

(** ** Clearing and counting *)

(** X28.  [clearAll] of the hook removes the stored dictionary and then
    empties the dictionary of the hook; when the store rejects the removal
    it throws what the store rejected with, and the dictionary and the store
    are as before. *)
Theorem clearAll_empties (dataType : string) (h : Hook) :
  (outcomes (storage h) 0%nat = None →
   result (CacheEdits.clearAll dataType) h = Normal tt ∧
   useOfflineData.data (exec (CacheEdits.clearAll dataType) h) = [] ∧
   kv (storage (exec (CacheEdits.clearAll dataType) h)) = delete dataType (kv (storage h))) ∧
  (∀ e, outcomes (storage h) 0%nat = Some e →
     result (CacheEdits.clearAll dataType) h = Throw e ∧
     useOfflineData.data (exec (CacheEdits.clearAll dataType) h) = useOfflineData.data h ∧
     kv (storage (exec (CacheEdits.clearAll dataType) h)) = kv (storage h)).
Proof.
  split.
  - intros Ho. unfold_edits. unfold_store. simpl. rewrite Ho. simpl. by repeat split.
  - intros e Ho. unfold_edits. unfold_store. simpl. rewrite Ho. simpl. by repeat split.
Qed.

Lemma clearAll_empties_witness :
  useOfflineData.data
    (exec (CacheEdits.clearAll "courses") (fresh_hook synced_then_pending)) = [].
Proof.
  destruct (clearAll_empties "courses" (fresh_hook synced_then_pending)) as [H _].
  destruct H as (_ & H & _).
  - reflexivity.
  - exact H.
Defined.

(** X29.  Every record of the dictionary is counted under its status and
    under no other: the numbers of pending, synced, failed and conflicting
    records add up to the number of keys.  So the three counts the hook
    returns add up to the total when no record is in conflict, and to less
    otherwise. *)
Theorem counts_add_up (data : Dict) :
  length (Object_keys data)
  = (length (getItemsByStatus data pending) + length (getItemsByStatus data synced)
     + length (getItemsByStatus data OfflineStorage.error)
     + length (getItemsByStatus data conflict))%nat.
Proof.
  unfold getItemsByStatus, Object_keys, Object_values. rewrite !length_fmap.
  induction data as [|[k item] l IH]; [done|].
  rewrite fmap_cons, !filter_cons. simpl. rewrite IH.
  destruct (status item); simpl; lia.
Qed.

End CacheEditFacts.
